(** * Queue and playback engine of the music cog

    A shallow embedding of [MusicCog] (musicnowerror.py, with the older
    variant of musicold.py in [Module Old]) and the properties of its
    queue store, preloader, playback sequencer and command surface.

    Conventions of the embedding.
    - Python [str] values are byte strings ([string] of the standard
      library, UTF-8); every separator, prefix and keyword the code
      searches for is ASCII, so byte-wise search agrees with the search on
      code points.  [lower] folds every letter whose lower case has an
      ASCII letter (A to Z, U+212A and U+0130); the other letters outside
      ASCII, whose lower case is outside ASCII too, are left as they
      are, which no search for an ASCII keyword can tell.
    - A duration is stored as the resolver gives it: an integer, a float
      or [None].
    - The dictionaries [queues], [title_cache], [audio_cache] and
      [pending_playlists] are finite maps ([gmap]); a guild queue is the
      Python list itself.
    - The resolver (yt_dlp), the stream constructor (FFmpeg) and the page
      fetches are external: they are oracles of a [World], indexed by the
      number of external calls made so far ([clock]).
    - Every externally visible action (message sent, resolver call, task
      scheduled, stream handed to the player) is appended to [log].
    - The model is sequential: one coroutine runs from start to end; tasks
      handed to [loop.create_task] are logged, not run. *)

From Stdlib Require Import ZArith Ascii String List Bool Lia SpecFloat.
From stdpp Require Import base option list gmap strings.

Local Open Scope string_scope.
Local Open Scope Z_scope.
Local Open Scope list_scope.

(* ===================================================================== *)
(** ** Python string operations *)
(* ===================================================================== *)

Module PyStr.

(** [c.lower()] on one ASCII byte. *)
Definition lower_ascii (c : ascii) : ascii :=
  let n := nat_of_ascii c in
  if ((65 <=? n) && (n <=? 90))%nat then ascii_of_nat (n + 32) else c.

(** The byte [c] has the value [n]. *)
Definition is_byte (n : nat) (c : ascii) : bool := (nat_of_ascii c =? n)%nat.

(** [s.lower()].  Two letters outside ASCII have a lower case with an
    ASCII letter: U+0130 (bytes C4 B0) becomes [i] followed by U+0307
    (bytes CC 87), and U+212A (bytes E2 84 AA) becomes [k]. *)
Fixpoint lower (s : string) : string :=
  match s with
  | EmptyString => EmptyString
  | String c1 s1 =>
      let plain := String (lower_ascii c1) (lower s1) in
      match s1 with
      | String c2 s2 =>
          if is_byte 196 c1 && is_byte 176 c2
          then String "i" (String (ascii_of_nat 204)
                             (String (ascii_of_nat 135) (lower s2)))
          else
            match s2 with
            | String c3 s3 =>
                if is_byte 226 c1 && is_byte 132 c2 && is_byte 170 c3
                then String "k" (lower s3)
                else plain
            | EmptyString => plain
            end
      | EmptyString => plain
      end
  end.

(** [s.startswith(p)]. *)
Fixpoint startswith (p s : string) : bool :=
  match p, s with
  | EmptyString, _ => true
  | String _ _, EmptyString => false
  | String a p', String b s' => if Ascii.eqb a b then startswith p' s' else false
  end.

(** [needle in hay]. *)
Fixpoint contains (needle hay : string) : bool :=
  startswith needle hay ||
  match hay with
  | EmptyString => false
  | String _ hay' => contains needle hay'
  end.

(** [s.split(sep)] for a non-empty separator: the pieces between the
    non-overlapping occurrences of [sep], scanned left to right.  [skip]
    counts the bytes of a separator still to be passed over and [cur] is
    the piece being read, last byte first. *)
Fixpoint split_go (sep : string) (skip : nat) (cur : string) (s : string)
  : list string :=
  match s with
  | EmptyString => [String.rev cur]
  | String c s' =>
      match skip with
      | S k => split_go sep k cur s'
      | O =>
          if startswith sep s
          then String.rev cur :: split_go sep (String.length sep - 1) EmptyString s'
          else split_go sep O (String c cur) s'
      end
  end.

Definition split (sep s : string) : list string := split_go sep 0 EmptyString s.

(** [l[-1]] and [l[0]] on a list of strings; [split] never returns the
    empty list, so the default is not reached from the code. *)
Definition last_piece (l : list string) : string := List.last l EmptyString.
Definition first_piece (l : list string) : string := List.hd EmptyString l.

(** [sep.join(l)]. *)
Fixpoint join (sep : string) (l : list string) : string :=
  match l with
  | [] => EmptyString
  | [x] => x
  | x :: rest => x +:+ sep +:+ join sep rest
  end.

(** Decimal digits of a natural number, as [str(n)] prints them. *)
Definition digit (n : nat) : ascii := ascii_of_nat (48 + n mod 10).

Fixpoint digits_go (fuel n : nat) (acc : string) : string :=
  match fuel with
  | O => acc
  | S f =>
      let acc' := String (digit n) acc in
      if (n <? 10)%nat then acc' else digits_go f (n / 10) acc'
  end.

Definition str_nat (n : nat) : string := digits_go (S n) n EmptyString.

(** [str(z)] for an integer. *)
Definition str_Z (z : Z) : string :=
  if z <? 0 then String "-" (str_nat (Z.to_nat (- z))) else str_nat (Z.to_nat z).

(** The format [{z:02d}]: at least two characters, padded with zeros. *)
Definition fmt_02d (z : Z) : string :=
  if (0 <=? z) && (z <? 10) then String "0" (str_Z z) else str_Z z.

(** A string given by its bytes. *)
Definition of_bytes (l : list nat) : string :=
  string_of_list_ascii (List.map ascii_of_nat l).

(** Python truth value of a string. *)
Definition truthy (s : string) : bool :=
  match s with EmptyString => false | _ => true end.

End PyStr.

Import PyStr.

(* ===================================================================== *)
(** ** Data model *)
(* ===================================================================== *)

(** One encoding of a resolved track, a dictionary: [f.get('acodec')],
    [int(f.get('abr', 0) or 0)], [f['url']] (absent: [KeyError]), and
    whether the dictionary has an entry that these three do not show (a
    key of another name, or ['abr'] with the value 0, for instance). *)
Record Format := mkFormat {
  f_acodec : option string;
  f_abr : Z;
  f_url : option string;
  f_other : bool
}.

(** The key is present. *)
Definition present {A : Type} (o : option A) : bool :=
  match o with Some _ => true | None => false end.

(** Python truth value of a format: false for the empty dictionary. *)
Definition format_truthy (f : Format) : bool :=
  present (f_acodec f) || negb (f_abr f =? 0) || present (f_url f) || f_other f.

(** The value found under ['duration'], which the code stores as it is:
    an integer, a float, or [None]. *)
Inductive Duration :=
  | DInt (seconds : Z)
  | DFloat (seconds : spec_float)
  | DNone.

Coercion DInt : Z >-> Duration.

(** An element of [info['entries']] that is a dictionary.  [e_duration]
    is [entry.get('duration', 0)]. *)
Record Entry := mkEntry {
  e_webpage_url : option string;
  e_url : option string;
  e_title : option string;
  e_duration : Duration
}.

(** The dictionary returned by [extract_info].  [i_entries] is [Some] when
    the key ['entries'] is present; an element [None] of the list is a
    [None] entry.  [i_duration] is [info.get('duration', 0)]. *)
Record Info := mkInfo {
  i_title : option string;
  i_duration : Duration;
  i_url : option string;
  i_webpage_url : option string;
  i_formats : option (list Format);
  i_entries : option (list (option Entry))
}.

(** A value of [title_cache]. *)
Record TitleInfo := mkTitleInfo {
  t_title : string;
  t_duration : Duration;
  t_webpage_url : option string
}.

(** A value of [audio_cache]: the stream handle (an opaque identity), the
    resolver's dictionary and [loop.time()] at creation. *)
Record AudioEntry := mkAudioEntry {
  a_source : nat;
  a_info : Info;
  a_created_at : nat
}.

(** [guild.voice_client], as far as the engine observes it. *)
Record VoiceClient := mkVoiceClient {
  vc_connected : bool;
  vc_playing : bool;
  vc_source : option nat
}.

(** The option sets the code builds for yt_dlp. *)
Inductive Mode :=
  | ExFlat      (* play: YTDL_OPTIONS with extract_flat = 'in_playlist' *)
  | ExFull      (* self.ytdl: YTDL_OPTIONS *)
  | ExSingle    (* _preload_song: noplaylist = True *)
  | ExSearch.   (* _try_alternative_source: default_search = 'ytsearch' *)

Inductive ExtractResult :=
  | Raises (msg : string)
  | Returns (info : option Info).

(** Outcome of the second fetch of a Spotify track page: the request
    raises, or it returns and the title pattern yields its first group
    ([None] when the status is not 200 or the pattern does not match). *)
Inductive PageTitle :=
  | FetchRaises
  | FetchReturns (title : option string).

(** The external collaborators.  The first argument is the number of
    external calls made before this one, so that an answer may change from
    one call to the next. *)
Record World := mkWorld {
  (** [YoutubeDL(opts).extract_info(query, download=False)] *)
  ytdl_extract : nat -> Mode -> string -> ExtractResult;
  (** [discord.FFmpegPCMAudio(...)] wrapped in a volume transformer
      ([FFmpegOpusAudio.from_probe] in the older variant); [None] when the
      constructor raises *)
  ffmpeg_source : nat -> string -> option nat;
  (** [_extract_song_info(url)]: artist, title and search phrase scraped
      from the page, three empty strings on any failure *)
  page_hints : nat -> string -> string * string * string;
  (** the GET of the canonical track page followed by the search for
      [<title>(.*?) \| Spotify</title>] in its body *)
  spotify_page_title : nat -> string -> PageTitle
}.

Inductive Task :=
  | TaskPreload (url : string)
  | TaskPreloadNext (guild_id : Z)
  | TaskProcessPending (guild_id : Z) (channel : option Z).

Record Field := mkField {
  fd_name : string;
  fd_value : string;
  fd_inline : bool
}.

Inductive Color := Blue | Green | Red.

Record Embed := mkEmbed {
  em_title : string;
  em_color : Color;
  em_fields : list Field
}.

Inductive Event :=
  | EvExtract (mode : Mode) (query : string)
  | EvFFmpeg (audio_url : string)
  | EvPageHints (url : string)
  | EvHttpGet (url : string)
  | EvSend (channel : Z) (msg : string)
  | EvSleep (seconds : nat)
  | EvPlay (guild_id : Z) (source : nat)
  | EvCreateTask (t : Task)
  | EvConnect (guild_id : Z)
  | EvResponse (msg : string)
  | EvDefer
  | EvFollowup (msg : string)
  | EvFollowupEmbed (e : Embed)
  | EvLogError (msg : string).

(** The cog's four dictionaries, the voice clients of the guilds, the
    count of external calls and the trace of visible actions. *)
Record State := mkState {
  queues : gmap Z (list string);
  title_cache : gmap string TitleInfo;
  audio_cache : gmap string AudioEntry;
  pending_playlists : gmap Z (list string);
  voice_clients : gmap Z VoiceClient;
  clock : nat;
  log : list Event
}.

(** [MusicCog.__init__] *)
Definition init : State := mkState ∅ ∅ ∅ ∅ ∅ 0 [].

Definition set_queues (q : gmap Z (list string)) (st : State) : State :=
  mkState q (title_cache st) (audio_cache st) (pending_playlists st)
          (voice_clients st) (clock st) (log st).

Definition set_title_cache (t : gmap string TitleInfo) (st : State) : State :=
  mkState (queues st) t (audio_cache st) (pending_playlists st)
          (voice_clients st) (clock st) (log st).

Definition set_audio_cache (a : gmap string AudioEntry) (st : State) : State :=
  mkState (queues st) (title_cache st) a (pending_playlists st)
          (voice_clients st) (clock st) (log st).

Definition set_pending (p : gmap Z (list string)) (st : State) : State :=
  mkState (queues st) (title_cache st) (audio_cache st) p
          (voice_clients st) (clock st) (log st).

Definition set_voice (v : gmap Z VoiceClient) (st : State) : State :=
  mkState (queues st) (title_cache st) (audio_cache st) (pending_playlists st)
          v (clock st) (log st).

(** One more external call has been made. *)
Definition tick (st : State) : State :=
  mkState (queues st) (title_cache st) (audio_cache st) (pending_playlists st)
          (voice_clients st) (S (clock st)) (log st).

Definition emit (e : Event) (st : State) : State :=
  mkState (queues st) (title_cache st) (audio_cache st) (pending_playlists st)
          (voice_clients st) (clock st) (log st ++ [e]).

(** [if text_channel: await text_channel.send(msg)] *)
Definition send (channel : option Z) (msg : string) (st : State) : State :=
  match channel with
  | Some c => emit (EvSend c msg) st
  | None => st
  end.

(** [d.get(key, default)] on an optional field. *)
Definition get_or (d : string) (o : option string) : string :=
  match o with Some s => s | None => d end.

(** Python truth value of [d.get(key)] for a string field. *)
Definition opt_truthy (o : option string) : bool :=
  match o with Some s => truthy s | None => false end.

(** [a or b] on two optional strings. *)
Definition py_or (a b : option string) : option string :=
  if opt_truthy a then a else b.

(* ===================================================================== *)
(** ** Queue store *)
(* ===================================================================== *)

(** [get_queue]: the guild's list, created empty on first access. *)
Definition get_queue (guild_id : Z) (st : State) : list string * State :=
  match queues st !! guild_id with
  | Some q => (q, st)
  | None => ([], set_queues (<[guild_id := []]> (queues st)) st)
  end.

(** [self.get_queue(guild_id).append(url)] *)
Definition append (guild_id : Z) (url : string) (st : State) : State :=
  let '(q, st1) := get_queue guild_id st in
  set_queues (<[guild_id := q ++ [url]]> (queues st1)) st1.

(** [self.get_queue(guild_id).pop(0)]; [None] is Python's [IndexError]
    on an empty list (the queue has then been created all the same). *)
Definition popHead (guild_id : Z) (st : State) : option string * State :=
  let '(q, st1) := get_queue guild_id st in
  match q with
  | [] => (None, st1)
  | url :: rest => (Some url, set_queues (<[guild_id := rest]> (queues st1)) st1)
  end.

(** [self.get_queue(guild_id).clear()] *)
Definition clear (guild_id : Z) (st : State) : State :=
  let '(_, st1) := get_queue guild_id st in
  set_queues (<[guild_id := []]> (queues st1)) st1.

(** The queue of a guild as an observer sees it (absent = empty). *)
Definition queue_of (guild_id : Z) (st : State) : list string :=
  default [] (queues st !! guild_id).

(* ===================================================================== *)
(** ** Preloader *)
(* ===================================================================== *)

(** [f.get('acodec') != 'none'] *)
Definition has_audio (f : Format) : bool :=
  match f_acodec f with
  | Some c => negb (String.eqb c "none")
  | None => true
  end.

(** The body of the loop over [info['formats']] of [_preload_song] (lines
    241-243): a format with an audio codec replaces [best_format] when
    that is [None] or an empty dictionary ([not best_format]), or has a
    lower bitrate. *)
Definition best_format_step (best : option Format) (f : Format) : option Format :=
  if has_audio f then
    match best with
    | None => Some f
    | Some b =>
        if negb (format_truthy b) || (f_abr f >? f_abr b) then Some f else best
    end
  else best.

Definition best_format (formats : list Format) : option Format :=
  fold_left best_format_step formats None.

(** Outcome of the choice of a stream URL: a truthy URL, none, or the
    [KeyError] of a chosen format without ['url']. *)
Inductive UrlChoice :=
  | HaveUrl (audio_url : string)
  | NoUrl
  | MissingKey.

(** [best_format['url']], then [if not audio_url]. *)
Definition url_of_format (b : Format) : UrlChoice :=
  match f_url b with
  | None => MissingKey
  | Some u => if truthy u then HaveUrl u else NoUrl
  end.

(** Lines 237-248: the stream URL the source is built from. *)
Definition select_audio_url (info : Info) : UrlChoice :=
  if opt_truthy (i_url info) then HaveUrl (get_or "" (i_url info))
  else
    match i_formats info with
    | Some (f :: fs) =>
        match best_format (f :: fs) with
        | Some b => if format_truthy b then url_of_format b else NoUrl
        | None => NoUrl
        end
    | _ => NoUrl
    end.

(** The entry [_preload_song] writes to [title_cache]. *)
Definition title_of_info (info : Info) : TitleInfo :=
  mkTitleInfo (get_or "Unknown" (i_title info)) (i_duration info) None.

(** [_preload_song(url)]: the returned entry ([None] for Python's [None])
    and the state it leaves. *)
Definition preload_song_in (mode : Mode) (W : World) (url : string) (st : State)
  : option AudioEntry * State :=
  match audio_cache st !! url with
  | Some cached => (Some cached, st)
  | None =>
      let st1 := tick (emit (EvExtract mode url) st) in
      match ytdl_extract W (clock st) mode url with
      | Raises _ => (None, st1)
      | Returns None => (None, st1)
      | Returns (Some info) =>
          let st2 :=
            set_title_cache (<[url := title_of_info info]> (title_cache st1)) st1 in
          match select_audio_url info with
          | NoUrl | MissingKey => (None, st2)
          | HaveUrl audio_url =>
              let st3 := tick (emit (EvFFmpeg audio_url) st2) in
              match ffmpeg_source W (clock st2) audio_url with
              | None => (None, st3)
              | Some src =>
                  let entry := mkAudioEntry src info (clock st3) in
                  (Some entry,
                   set_audio_cache (<[url := entry]> (audio_cache st3)) st3)
              end
          end
      end
  end.

Definition preload_song := preload_song_in ExSingle.

(** [preload_next_tracks(guild_id, count)] *)
Definition preload_next_tracks (guild_id : Z) (count : nat) (st : State) : State :=
  let '(q, st1) := get_queue guild_id st in
  fold_left
    (fun acc url =>
       match audio_cache acc !! url with
       | Some _ => acc
       | None => emit (EvCreateTask (TaskPreload url)) acc
       end)
    (take (Nat.min count (length q)) q) st1.

(* ===================================================================== *)
(** ** Playback sequencer *)
(* ===================================================================== *)

Definition max_retries : nat := 3.

Definition msg_failed_attempts : string :=
  "Failed to play track after " +:+ str_nat max_retries +:+ " attempts. Skipping...".

(** [guild.voice_client.play(source, after=...)]: the player refuses
    ([ClientException], here [None]) when it is not connected or already
    playing; otherwise it takes the stream. *)
Definition vc_play (guild_id : Z) (src : nat) (st : State) : option State :=
  match voice_clients st !! guild_id with
  | Some vc =>
      if vc_connected vc && negb (vc_playing vc)
      then Some (emit (EvPlay guild_id src)
                   (set_voice (<[guild_id := mkVoiceClient true true (Some src)]>
                                 (voice_clients st)) st))
      else None
  | None => None
  end.

(** [guild.voice_client and guild.voice_client.is_connected()] *)
Definition is_connected (guild_id : Z) (st : State) : bool :=
  match voice_clients st !! guild_id with
  | Some vc => vc_connected vc
  | None => false
  end.

(** [guild.voice_client.is_playing()], for a guild with a voice client. *)
Definition is_playing (guild_id : Z) (st : State) : bool :=
  match voice_clients st !! guild_id with
  | Some vc => vc_playing vc
  | None => false
  end.

(** The handler of the outer [try] of [play_next] (lines 337-343), entered
    with the text of the exception; [k] is the recursive call. *)
Definition play_next_except (k : State -> option State) (guild_id : Z)
    (channel : option Z) (msg : string) (st : State) : option State :=
  let st1 := send channel ("Error playing song: " +:+ msg) st in
  match queue_of guild_id st1 with
  | [] => Some st1
  | _ :: _ => k (snd (popHead guild_id st1))
  end.

(** The [except Exception] of the loop body (lines 327-335), entered with
    [cached_data] and the state at the point of the raise.  [remaining'] is
    [max_retries - retry_count] after the increment; [retry] is the next
    turn of the loop and [k] the recursive call of [play_next]. *)
Definition on_exception (k : State -> option State)
    (retry : option AudioEntry -> State -> option State) (remaining' : nat)
    (guild_id : Z) (channel : option Z) (cached' : option AudioEntry)
    (st' : State) : option State :=
  match remaining' with
  | O =>
      let st1 := send channel msg_failed_attempts st' in
      match popHead guild_id st1 with
      | (None, st2) =>
          play_next_except k guild_id channel "pop from empty list" st2
      | (Some _, st2) => k st2
      end
  | S _ => retry cached' (emit (EvSleep 1) st')
  end.

(** The body of the loop after [cached_data] is known to be set (lines
    302-321): the head is removed and the stream handed to the player. *)
Definition start_playback (guild_id : Z) (channel : option Z) (data : AudioEntry)
    (st : State) : State + State :=
  match popHead guild_id st with
  | (None, st2) => inr st2
  | (Some _, st2) =>
      match vc_play guild_id (a_source data) st2 with
      | None => inr st2
      | Some st3 =>
          let st4 :=
            send channel
              ("Now playing: " +:+ get_or "Unknown" (i_title (a_info data))) st3 in
          inl (emit (EvCreateTask (TaskPreloadNext guild_id)) st4)
      end
  end.

(** The [while retry_count < max_retries] loop (lines 294-335).
    [remaining] is [max_retries - retry_count]; [cached] is
    [cached_data]; [k] is the recursive call of [play_next]. *)
Fixpoint retry_loop (W : World) (k : State -> option State) (remaining : nat)
    (guild_id : Z) (channel : option Z) (url : string)
    (cached : option AudioEntry) (st : State) : option State :=
  match remaining with
  | O => Some st
  | S remaining' =>
      let handler :=
        on_exception k
          (fun c s => retry_loop W k remaining' guild_id channel url c s)
          remaining' guild_id channel in
      let '(cached1, st1) :=
        match cached with
        | Some c => (Some c, st)
        | None => preload_song W url st
        end in
      match cached1 with
      | None => handler cached1 st1
      | Some data =>
          match start_playback guild_id channel data st1 with
          | inl playing => Some playing
          | inr raised => handler cached1 raised
          end
      end
  end.

(** [play_next(guild, text_channel)].  [fuel] bounds the depth of the
    recursion; [None] only when it runs out. *)
Fixpoint play_next_fuel (fuel : nat) (W : World) (guild_id : Z)
    (channel : option Z) (st : State) : option State :=
  match fuel with
  | O => None
  | S fuel' =>
      if negb (is_connected guild_id st) then Some st
      else
        let '(q, st1) := get_queue guild_id st in
        match q with
        | [] => Some (send channel "Queue finished!" st1)
        | url :: _ =>
            retry_loop W (play_next_fuel fuel' W guild_id channel) max_retries
              guild_id channel url (audio_cache st1 !! url) st1
        end
  end.

(** Each recursive call is made on a shorter queue, so one unit of fuel
    per queued reference, and one more, is enough. *)
Definition play_next (W : World) (guild_id : Z) (channel : option Z) (st : State)
  : option State :=
  play_next_fuel (S (length (queue_of guild_id st))) W guild_id channel st.

(** [_handle_playback_error(error, guild, text_channel)] *)
Definition handle_playback_error (W : World) (error : bool) (guild_id : Z)
    (channel : option Z) (st : State) : option State :=
  let st1 :=
    if error
    then send channel "An error occurred during playback. Playing next song..." st
    else st in
  play_next W guild_id channel st1.

(* ===================================================================== *)
(** ** Alternative-source search *)
(* ===================================================================== *)

(** The pictographs of the replies, byte for byte as the source file
    stores them. *)
Definition g_link : string := of_bytes [195; 148; 195; 184; 206; 169]%nat.
Definition g_ok : string := of_bytes [226; 128; 154; 195; 186; 195; 150]%nat.
Definition g_search : string :=
  of_bytes [239; 163; 191; 195; 188; 195; 174; 195; 167]%nat.
Definition g_cross : string := of_bytes [226; 128; 154; 195; 185; 195; 165]%nat.
Definition g_retry : string :=
  of_bytes [239; 163; 191; 195; 188; 195; 174; 195; 145]%nat.
Definition g_bullet : string := of_bytes [226; 128; 154; 195; 132; 194; 162]%nat.
Definition g_warn : string :=
  of_bytes [226; 128; 154; 195; 182; 226; 128; 160; 195; 148; 226; 136; 143;
            195; 168]%nat.
Definition g_list : string :=
  of_bytes [239; 163; 191; 195; 188; 195; 172; 195; 171]%nat.
Definition g_note : string :=
  of_bytes [239; 163; 191; 195; 188; 195; 169; 194; 181]%nat.

Definition nl : string := of_bytes [10%nat].

(** The phrase compared against on line 159. *)
Definition adventure_phrase : string := " - Adventure Time! audio".

(** [_extract_song_info(url)], an external page fetch. *)
Definition extract_song_info (W : World) (url : string) (st : State)
  : (string * string * string) * State :=
  (page_hints W (clock st) url, tick (emit (EvPageHints url) st)).

(** Line 159: the test that opens the second look at the track page. *)
Definition phrase_needs_refetch (search_query : string) : bool :=
  negb (truthy search_query) || String.eqb search_query adventure_phrase.

(** Lines 159-160 together: the page is fetched again. *)
Definition refetch_triggered (query search_query : string) : bool :=
  phrase_needs_refetch search_query && contains "spotify.com/track/" query.

(** Line 161 *)
Definition track_id_of (query : string) : string :=
  first_piece (split "?" (last_piece (split "track/" query))).

(** Lines 159-168: the search phrase after the optional second fetch;
    [None] when the fetch raises. *)
Definition refine_phrase (W : World) (query search_query : string) (st : State)
  : option string * State :=
  if refetch_triggered query search_query then
    let page := "https://open.spotify.com/track/" +:+ track_id_of query in
    let st1 := tick (emit (EvHttpGet page) st) in
    match spotify_page_title W (clock st) page with
    | FetchRaises => (None, st1)
    | FetchReturns (Some t) => (Some t, st1)
    | FetchReturns None => (Some search_query, st1)
    end
  else (Some search_query, st).

(** Lines 186-199: the variants of the phrase, tried in order. *)
Fixpoint search_terms_loop (W : World) (terms : list string) (st : State)
  : option (string * string) * State :=
  match terms with
  | [] => (None, st)
  | term :: rest =>
      let q := "ytsearch1:" +:+ term in
      let st1 := tick (emit (EvExtract ExSearch q) st) in
      let hit :=
        match ytdl_extract W (clock st) ExSearch q with
        | Returns (Some info) =>
            match i_entries info with
            | Some (Some video :: _) =>
                if opt_truthy (e_webpage_url video)
                then Some (get_or "" (e_webpage_url video),
                           "Found alternative: " +:+ get_or "Unknown" (e_title video))
                else None
            | _ => None
            end
        | _ => None
        end in
      match hit with
      | Some r => (Some r, st1)
      | None => search_terms_loop W rest st1
      end
  end.

(** [_try_alternative_source(query)]: the triple [(found, url, message)]. *)
Definition try_alternative_source (W : World) (query : string) (st : State)
  : (bool * string * string) * State :=
  let '((_, _, search_query), st1) := extract_song_info W query st in
  match refine_phrase W query search_query st1 with
  | (None, st2) => ((false, "", "Error searching for alternative"), st2)
  | (Some phrase, st2) =>
      if negb (truthy phrase)
      then ((false, "", "Could not extract song information"), st2)
      else
        let terms := [phrase +:+ " official audio"; phrase +:+ " lyrics"; phrase] in
        match search_terms_loop W terms st2 with
        | (Some (url, message), st3) => ((true, url, message), st3)
        | (None, st3) => ((false, "", "Could not find an alternative source"), st3)
        end
  end.

(* ===================================================================== *)
(** ** The play command *)
(* ===================================================================== *)

(** What [play] reads of the [discord.Interaction]: the guild identity
    ([None] outside a server), whether the caller is in a voice channel,
    and the channel the command was issued in. *)
Record Interaction := mkInteraction {
  in_guild : option Z;
  in_user_voice : bool;
  in_channel : option Z
}.

Definition followup (msg : string) (st : State) : State := emit (EvFollowup msg) st.

(** Line 409 *)
Definition video_id_of (query : string) : string :=
  first_piece (split "?" (last_piece (split "/" query))).

(** Lines 386-410: the query handed to the resolver, or [None] when [play]
    replies and returns without resolving. *)
Definition normalize_query (W : World) (query : string) (st : State)
  : option string * State :=
  let is_url := startswith "http://" query || startswith "https://" query in
  let is_spotify := contains "spotify.com" (lower query) in
  let is_apple_music := contains "music.apple.com" (lower query) in
  if is_spotify || is_apple_music then
    let st1 :=
      followup (g_link +:+ " Processing link... Searching for alternative source...")
        st in
    let '((success, alt_url, message), st2) := try_alternative_source W query st1 in
    if success then (Some alt_url, followup (g_ok +:+ " " +:+ message) st2)
    else
      let '((_, title, search_query), st3) := extract_song_info W query st2 in
      if truthy search_query
      then (Some ("ytsearch1:" +:+ search_query),
            followup (g_search +:+ " Searching for: " +:+ title) st3)
      else (None, followup (g_cross +:+ " Could not extract song information.") st3)
  else if negb is_url then
    (Some ("ytsearch:" +:+ query),
     followup (g_search +:+ " Searching for: " +:+ query) st)
  else if contains "youtu.be" query then
    (Some ("https://www.youtube.com/watch?v=" +:+ video_id_of query), st)
  else (Some query, st).

(** The classified replies of lines 458-467. *)
Definition msg_unavailable : string :=
  g_warn +:+ " This video is unavailable or private.".
Definition msg_age_restricted : string :=
  g_warn +:+ " This content is age-restricted.".
Definition msg_unsupported_url : string :=
  g_warn +:+ " This URL is not supported. Try using a direct link to the content.".
Definition msg_geo_restricted : string :=
  g_warn +:+ " This content is not available in the current region.".
Definition msg_network : string :=
  g_warn +:+ " Network error occurred. Please check your connection and try again.".
Definition msg_raw (e : string) : string :=
  g_warn +:+ " Error loading content: " +:+ e.
Definition msg_drm_detected : string :=
  g_retry +:+ " DRM protection detected. Searching for alternative source...".
Definition msg_no_alternative : string :=
  g_cross +:+ " Could not find a playable alternative." +:+ nl +:+ nl +:+
  "Try these options instead:" +:+ nl +:+
  g_bullet +:+ " Use a regular YouTube link" +:+ nl +:+
  g_bullet +:+ " Search by song name and artist" +:+ nl +:+
  g_bullet +:+ " Try SoundCloud or other non-DRM sources".

(** [queue.append(url); self.title_cache[url] = entry] *)
Definition enqueue (guild_id : Z) (url : string) (entry : TitleInfo) (st : State)
  : State :=
  let st1 := append guild_id url st in
  set_title_cache (<[url := entry]> (title_cache st1)) st1.

(** [if not interaction.guild.voice_client.is_playing(): await play_next] *)
Definition start_if_idle (W : World) (guild_id : Z) (channel : option Z)
    (st : State) : option State :=
  if negb (is_playing guild_id st) then play_next W guild_id channel st
  else Some st.

(** Lines 426-457: the fallback taken on a DRM error. *)
Definition drm_fallback (W : World) (guild_id : Z) (channel : option Z)
    (query : string) (st : State) : option State :=
  let st1 := followup msg_drm_detected st in
  let '((success, alt_url, message), st2) := try_alternative_source W query st1 in
  if success then
    let st3 := tick (emit (EvExtract ExFull alt_url) st2) in
    match ytdl_extract W (clock st2) ExFull alt_url with
    | Returns (Some info) =>
        let st4 := followup (g_ok +:+ " " +:+ message) st3 in
        let '(_, st5) := get_queue guild_id st4 in
        let url := py_or (i_webpage_url info) (i_url info) in
        if opt_truthy url then
          let st6 :=
            enqueue guild_id (get_or "" url)
              (mkTitleInfo (get_or "Unknown" (i_title info)) (i_duration info) None)
              st5 in
          start_if_idle W guild_id channel st6
        else Some (followup msg_no_alternative st5)
    | _ => Some (followup msg_no_alternative st3)
    end
  else Some (followup msg_no_alternative st2).

(** Lines 423-471: the handler of a resolver error with text [e]. *)
Definition handle_extract_error (W : World) (guild_id : Z) (channel : option Z)
    (query e : string) (st : State) : option State :=
  let error_msg := lower e in
  if contains "[drm]" error_msg || contains "drm protection" error_msg then
    drm_fallback W guild_id channel query st
  else if contains "video unavailable" error_msg then
    Some (followup msg_unavailable st)
  else if contains "sign in to confirm your age" error_msg then
    Some (followup msg_age_restricted st)
  else if contains "not a supported url" error_msg then
    Some (followup msg_unsupported_url st)
  else if contains "geo restriction" error_msg then
    Some (followup msg_geo_restricted st)
  else if contains "network error" error_msg || contains "connection error" error_msg then
    Some (followup msg_network st)
  else
    Some (followup (msg_raw e)
            (emit (EvLogError ("Error in play command with query: " +:+ query)) st)).

(** [e and (e.get('webpage_url') or e.get('url'))] *)
Definition entry_ref (e : option Entry) : option string :=
  match e with
  | Some d => py_or (e_webpage_url d) (e_url d)
  | None => None
  end.

Definition entry_ok (e : option Entry) : bool := opt_truthy (entry_ref e).

(** The cache entry written for a playlist entry with reference [url]. *)
Definition title_of_entry (url : string) (d : Entry) : TitleInfo :=
  mkTitleInfo (get_or "Unknown" (e_title d)) (e_duration d) (Some url).

(** [next((e for e in entries if e and (...)), None)] *)
Fixpoint first_resolvable (entries : list (option Entry)) : option Entry :=
  match entries with
  | [] => None
  | e :: rest =>
      if entry_ok e then e else first_resolvable rest
  end.

(** Lines 505-531: the reply to a playlist query. *)
Definition playlist_reply (added_tracks : list string) : Event :=
  match added_tracks with
  | [] => EvFollowup (g_warn +:+ " No playable tracks found in playlist")
  | _ :: _ =>
      let n := length added_tracks in
      let bullets l := join nl (List.map (fun t => g_bullet +:+ " " +:+ t) l) in
      let listing :=
        if (5 <? n)%nat
        then mkField "First 5 Tracks"
               (bullets (take 5 added_tracks) +:+ nl +:+ "*...and " +:+
                str_nat (n - 5) +:+ " more*") false
        else mkField "Track List" (bullets added_tracks) false in
      EvFollowupEmbed
        (mkEmbed (g_list +:+ " Playlist Added to Queue") Green
           [mkField "Tracks Added" (str_nat n +:+ " songs") false; listing])
  end.

(** Lines 480-531: a resolved playlist.  The query joins the guild's
    pending playlists; only the first resolvable entry is enqueued here,
    and the expansion of the rest is handed to a background task. *)
Definition enqueue_playlist (guild_id : Z) (channel : option Z) (query : string)
    (entries : list (option Entry)) (st : State) : State :=
  let pending := default [] (pending_playlists st !! guild_id) in
  let st1 := set_pending (<[guild_id := pending ++ [query]]> (pending_playlists st)) st in
  match first_resolvable entries with
  | Some d =>
      let url := get_or "" (entry_ref (Some d)) in
      let st2 := enqueue guild_id url (title_of_entry url d) st1 in
      let st3 := emit (EvCreateTask (TaskProcessPending guild_id channel)) st2 in
      emit (playlist_reply [get_or "Unknown" (e_title d)]) st3
  | None => emit (playlist_reply []) st1
  end.

(** A computation that may raise: its value, or the text of the
    exception. *)
Inductive Result (A : Type) :=
  | Ok (a : A)
  | Raise (msg : string).

Arguments Ok {A} a.
Arguments Raise {A} msg.

(** Python truth value of a duration ([if duration]). *)
Definition duration_truthy (duration : Duration) : bool :=
  match duration with
  | DInt z => negb (z =? 0)
  | DFloat (S754_zero _) => false
  | DFloat _ => true
  | DNone => false
  end.

(** The texts of the exceptions of the interpreter: the format code [d]
    applied to a float, and [//] applied to [None]. *)
Definition msg_format_float : string :=
  "Unknown format code 'd' for object of type 'float'".
Definition msg_floordiv_none : string :=
  "unsupported operand type(s) for //: 'NoneType' and 'int'".

(** [f"{duration//60}:{duration%60:02d}"]: minutes and seconds of an
    integer; on a float the quotient and the remainder are floats, and the
    format code [d] raises [ValueError]. *)
Definition minsec (duration : Duration) : Result string :=
  match duration with
  | DInt z => Ok (str_Z (z / 60) +:+ ":" +:+ fmt_02d (z mod 60))
  | DFloat _ => Raise msg_format_float
  | DNone => Raise msg_floordiv_none
  end.

(** Lines 549-565: the card for a single track. *)
Definition track_embed (title : string) (duration : Duration) : Result Embed :=
  let card fields :=
    mkEmbed (g_note +:+ " Track Added to Queue") Blue
      (mkField "Title" title false :: fields) in
  if duration_truthy duration then
    match minsec duration with
    | Ok text => Ok (card [mkField "Duration" text true])
    | Raise msg => Raise msg
    end
  else Ok (card []).

(** How lines 533-566 end: at the [return] of line 540, after the card
    has been sent on line 566, or with an exception raised on line 563,
    when the track has been enqueued already. *)
Inductive Single :=
  | NoReference
  | CardSent (st : State)
  | CardRaises (msg : string) (st : State).

(** Lines 533-566: a single track. *)
Definition enqueue_single (guild_id : Z) (info : Info) (st : State) : Single :=
  let url := py_or (i_webpage_url info) (i_url info) in
  let title := get_or "Unknown" (i_title info) in
  let duration := i_duration info in
  if opt_truthy url then
    let u := get_or "" url in
    let st1 := enqueue guild_id u (mkTitleInfo title duration (Some u)) st in
    match track_embed title duration with
    | Ok embed => CardSent (emit (EvFollowupEmbed embed) st1)
    | Raise msg => CardRaises msg st1
    end
  else NoReference.

(** The handler of the outer [try] of [play] (lines 571-573), entered
    with the text of the exception. *)
Definition play_except (msg : string) (st : State) : State :=
  followup ("An error occurred: " +:+ msg)
    (emit (EvLogError ("Error in play command: " +:+ msg)) st).

(** Line 422: the resolver call of [play]. *)
Definition resolve_flat (W : World) (query : string) (st : State)
  : ExtractResult * State :=
  (ytdl_extract W (clock st) ExFlat query, tick (emit (EvExtract ExFlat query) st)).

(** Lines 423-569: what [play] does with the resolver's answer. *)
Definition play_resolved (W : World) (guild_id : Z) (channel : option Z)
    (query : string) (r : ExtractResult) (st : State) : option State :=
  match r with
  | Raises e => handle_extract_error W guild_id channel query e st
  | Returns None => Some (followup "Could not find any playable audio!" st)
  | Returns (Some info) =>
      let '(_, st5) := get_queue guild_id st in
      match i_entries info with
      | Some entries =>
          start_if_idle W guild_id channel
            (enqueue_playlist guild_id channel query entries st5)
      | None =>
          match enqueue_single guild_id info st5 with
          | CardSent st6 => start_if_idle W guild_id channel st6
          | NoReference =>
              Some (followup (g_warn +:+ " Could not process the track!") st5)
          | CardRaises msg st6 => Some (play_except msg st6)
          end
      end
  end.

(** Lines 383-384: [play] connects when the guild has no voice client. *)
Definition ensure_connected (guild_id : Z) (st : State) : State :=
  match voice_clients st !! guild_id with
  | Some _ => st
  | None =>
      emit (EvConnect guild_id)
        (set_voice (<[guild_id := mkVoiceClient true false None]>
                      (voice_clients st)) st)
  end.

(** Lines 412-413 *)
Definition playlist_notice (original_query : string) (st : State) : State :=
  if contains "playlist" original_query || contains "list=" original_query
  then followup "Processing playlist... This might take a moment." st
  else st.

(** [play(interaction, query)] *)
Definition play (W : World) (i : Interaction) (query : string) (st : State)
  : option State :=
  match in_guild i with
  | None => Some (emit (EvResponse "This command can only be used in a server!") st)
  | Some guild_id =>
      if negb (in_user_voice i)
      then Some (emit (EvResponse "You need to be in a voice channel!") st)
      else
        let st1 := ensure_connected guild_id (emit EvDefer st) in
        match normalize_query W query st1 with
        | (None, st2) => Some st2
        | (Some query', st2) =>
            let '(r, st4) := resolve_flat W query' (playlist_notice query st2) in
            play_resolved W guild_id (in_channel i) query' r st4
        end
  end.

(* ===================================================================== *)
(** ** Background playlist expansion *)
(* ===================================================================== *)

(** The body of the loop over [info['entries'][1:]] (lines 85-94). *)
Definition expand_entry (guild_id : Z) (st : State) (e : option Entry) : State :=
  match e with
  | Some d =>
      if entry_ok e then
        let url := get_or "" (entry_ref e) in
        let st1 :=
          set_title_cache (<[url := title_of_entry url d]> (title_cache st)) st in
        let st2 := append guild_id url st1 in
        if (length (queue_of guild_id st2) <=? 3)%nat
        then emit (EvCreateTask (TaskPreload url)) st2
        else st2
      else st
  | None => st
  end.

(** One turn of the loop over the pending playlists (lines 76-98). *)
Definition expand_playlist (W : World) (guild_id : Z) (channel : option Z)
    (st : State) (playlist_url : string) : State :=
  let st1 := tick (emit (EvExtract ExFull playlist_url) st) in
  match ytdl_extract W (clock st) ExFull playlist_url with
  | Raises e => send channel ("Error processing playlist: " +:+ e) st1
  | Returns None => st1
  | Returns (Some info) =>
      match i_entries info with
      | None => st1
      | Some entries =>
          let '(_, st2) := get_queue guild_id st1 in
          fold_left (expand_entry guild_id) (tail entries) st2
      end
  end.

(** [process_pending_playlists(guild_id, channel)] *)
Definition process_pending_playlists (W : World) (guild_id : Z)
    (channel : option Z) (st : State) : State :=
  match pending_playlists st !! guild_id with
  | None => st
  | Some pending =>
      let st1 := fold_left (expand_playlist W guild_id channel) pending st in
      set_pending (<[guild_id := []]> (pending_playlists st1)) st1
  end.

(* ===================================================================== *)
(** ** The show-queue, stop and skip commands *)
(* ===================================================================== *)

(** [f" ({duration//60}:{duration%60:02d})" if duration else ""] *)
Definition duration_str (duration : Duration) : Result string :=
  if duration_truthy duration then
    match minsec duration with
    | Ok text => Ok (" (" +:+ text +:+ ")")
    | Raise msg => Raise msg
    end
  else Ok "".

(** The title shown for a queued reference: [info.get('title',
    'Loading...')] on [title_cache.get(url, {})]. *)
Definition shown_title (tc : gmap string TitleInfo) (url : string) : string :=
  match tc !! url with
  | Some t => t_title t
  | None => "Loading..."
  end.

(** [info.get('duration', 0)] on [title_cache.get(url, {})]. *)
Definition shown_duration (tc : gmap string TitleInfo) (url : string) : Duration :=
  match tc !! url with
  | Some t => t_duration t
  | None => 0
  end.

(** One line of the listing (lines 686-694), [i] counted from 1: the
    title with the duration, or the line of the handler when the
    formatting of the duration raises. *)
Definition queue_line (tc : gmap string TitleInfo) (i : nat) (url : string)
  : string :=
  match duration_str (shown_duration tc url) with
  | Ok shown => "`" +:+ str_nat i +:+ ".` " +:+ shown_title tc url +:+ shown
  | Raise _ => "`" +:+ str_nat i +:+ ".` Error getting track info"
  end.

(** [for i, url in enumerate(queue[:10], 1)] *)
Definition queue_text (tc : gmap string TitleInfo) (queue : list string)
  : list string :=
  imap (fun i url => queue_line tc (S i) url) (take 10 queue).

(** Lines 682-714: the fields that follow the now-playing field. *)
Definition up_next_fields (tc : gmap string TitleInfo) (queue : list string)
  : list Field :=
  match queue with
  | [] => [mkField "Up Next" "*No songs in queue*" false]
  | _ :: _ =>
      let lines := queue_text tc queue in
      (match lines with
       | [] => []
       | _ :: _ => [mkField "Up Next" (join nl lines) false]
       end) ++
      (if (10 <? length queue)%nat
       then [mkField "And more..."
               ("*" +:+ str_nat (length queue - 10) +:+ " more songs in queue*")
               false]
       else [])
  end.

(** Lines 611-728: the card of the [queue] command for a guild.  Lines
    620-680 add exactly one field named "Now Playing", computed from the
    player; it is taken as given here. *)
Definition queue_embed (now_playing : Field) (guild_id : Z) (st : State)
  : Embed * State :=
  let '(q, st1) := get_queue guild_id st in
  (mkEmbed (g_note +:+ " Music Queue") Blue
     (now_playing :: up_next_fields (title_cache st1) q),
   st1).

(** [queue(interaction)]: the reply is deferred, the card is built and
    sent. *)
Definition queue (now_playing : Field) (i : Interaction) (st : State) : State :=
  match in_guild i with
  | None => emit (EvResponse "This command can only be used in a server!") st
  | Some guild_id =>
      let '(embed, st1) := queue_embed now_playing guild_id (emit EvDefer st) in
      emit (EvFollowupEmbed embed) st1
  end.

(** [stop]: clears the queue, stops the stream and disconnects. *)
Definition stop (guild_id : Z) (st : State) : State :=
  match voice_clients st !! guild_id with
  | None => emit (EvResponse "Not playing any music!") st
  | Some _ =>
      let st1 := clear guild_id st in
      emit (EvResponse "Stopped playing and cleared the queue!")
        (set_voice (delete guild_id (voice_clients st1)) st1)
  end.

(* ===================================================================== *)
(** ** The older variant (musicold.py) *)
(* ===================================================================== *)

Module Old.

(** [formats.sort(key=lambda x: int(x.get('abr', 0) or 0), reverse=True)]:
    a stable sort, highest bitrate first. *)
Fixpoint insert_desc (f : Format) (sorted : list Format) : list Format :=
  match sorted with
  | [] => [f]
  | g :: rest => if f_abr g >? f_abr f then g :: insert_desc f rest else f :: sorted
  end.

Definition sort_desc (formats : list Format) : list Format :=
  fold_right insert_desc [] formats.

(** Lines 188-196 *)
Definition select_audio_url (info : Info) : UrlChoice :=
  if opt_truthy (i_url info) then HaveUrl (get_or "" (i_url info))
  else
    match i_formats info with
    | Some formats =>
        match sort_desc (List.filter has_audio formats) with
        | b :: _ => url_of_format b
        | [] => NoUrl
        end
    | None => NoUrl
    end.

(** [_preload_song(url)] of the older variant: one [try] around the whole
    body, every exception logged with [log_error]. *)
Definition preload_song (W : World) (url : string) (st : State)
  : option AudioEntry * State :=
  let failed st' := emit (EvLogError ("Error preloading " +:+ url)) st' in
  match audio_cache st !! url with
  | Some cached => (Some cached, st)
  | None =>
      let st1 := tick (emit (EvExtract ExFull url) st) in
      match ytdl_extract W (clock st) ExFull url with
      | Raises _ => (None, failed st1)
      | Returns None => (None, st1)
      | Returns (Some info) =>
          let st2 :=
            set_title_cache (<[url := title_of_info info]> (title_cache st1)) st1 in
          match select_audio_url info with
          | NoUrl => (None, st2)
          | MissingKey => (None, failed st2)
          | HaveUrl audio_url =>
              let st3 := tick (emit (EvFFmpeg audio_url) st2) in
              match ffmpeg_source W (clock st2) audio_url with
              | None => (None, failed st3)
              | Some src =>
                  let entry := mkAudioEntry src info (clock st3) in
                  (Some entry,
                   set_audio_cache (<[url := entry]> (audio_cache st3)) st3)
              end
          end
      end
  end.

End Old.

(* ===================================================================== *)
(** ** Definitions used to state the properties *)
(* ===================================================================== *)

(** The appends of a sequence of references, in order. *)
Definition append_all (guild_id : Z) (refs : list string) (st : State) : State :=
  fold_left (fun acc url => append guild_id url acc) refs st.

(** [n] consecutive [popHead]s, stopping at the first one that finds the
    queue empty: the references returned and the final state. *)
Fixpoint pop_many (guild_id : Z) (n : nat) (st : State) : list string * State :=
  match n with
  | O => ([], st)
  | S n' =>
      match popHead guild_id st with
      | (Some url, st1) =>
          let '(l, st2) := pop_many guild_id n' st1 in (url :: l, st2)
      | (None, st1) => ([], st1)
      end
  end.


(** Worlds for the worked examples: a resolver and a stream constructor
    that answer alike at every call, and pages that yield nothing. *)
Definition steady_world (resolver : Mode -> string -> ExtractResult)
    (ffmpeg : string -> option nat) : World :=
  mkWorld (fun _ => resolver) (fun _ => ffmpeg)
          (fun _ _ => ("", "", "")) (fun _ _ => FetchReturns None).

(** A resolved track without any stream URL. *)
Definition info_no_stream (title : string) (duration : Duration) : Info :=
  mkInfo (Some title) duration None None None None.

(** A resolved track with a direct stream URL. *)
Definition info_stream (title : string) (duration : Duration) (audio_url : string)
  : Info :=
  mkInfo (Some title) duration (Some audio_url) None None None.

(** A state whose audio cache already holds the reference ["u"]. *)
Definition cached_state : State :=
  set_audio_cache
    {[ "u" := mkAudioEntry 1 (info_stream "Song" 215 "http://cdn/a") 0%nat ]} init.

(** Every preload attempt on [url] yields none: whatever the state, as
    long as the audio cache has no entry for it. *)
Definition always_fails (W : World) (url : string) : Prop :=
  ∀ st, audio_cache st !! url = None → (preload_song W url st).1 = None.

(** The resolver calls a preload of [url] makes. *)
Definition is_resolve_of (url : string) (ev : Event) : bool :=
  match ev with
  | EvExtract ExSingle q => String.eqb q url
  | _ => false
  end.

Definition resolver_calls (url : string) (l : list Event) : nat :=
  length (List.filter (is_resolve_of url) l).

(** What a run of the sequencer for guild [g] may change: the queue of [g]
    only shrinks from its head, the queues and voice clients of the other
    guilds and all pending playlists stay, the trace only grows. *)
Definition sequencer_frame (g : Z) (st st' : State) : Prop :=
  queue_of g st' `suffix_of` queue_of g st ∧
  (∀ g', g' ≠ g → queue_of g' st' = queue_of g' st) ∧
  (∀ g', g' ≠ g → voice_clients st' !! g' = voice_clients st !! g') ∧
  pending_playlists st' = pending_playlists st ∧
  log st `prefix_of` log st'.

(** A guild with a connected, idle voice client and the given queue. *)
Definition guild_ready (g : Z) (q : list string) (st : State) : State :=
  set_voice (<[g := mkVoiceClient true false None]> (voice_clients st))
    (set_queues (<[g := q]> (queues st)) st).

(** A world in which the reference ["bad"] never resolves and every other
    one resolves to a direct stream. *)
Definition world_one_bad : World :=
  steady_world
    (fun _ q => if String.eqb q "bad" then Raises "Video unavailable"
                else Returns (Some (info_stream ("Title of " +:+ q) 100
                                      ("http://cdn/" +:+ q))))
    (fun _ => Some 5%nat).

(** The references of the resolvable entries of a list, in order. *)
Definition valid_refs (entries : list (option Entry)) : list string :=
  List.map (fun e => get_or "" (entry_ref e)) (List.filter entry_ok entries).

(** The entry list the resolver gives for a playlist at call [c], empty
    when the call raises or returns no entry list. *)
Definition playlist_entries (W : World) (c : nat) (playlist_url : string)
  : list (option Entry) :=
  match ytdl_extract W c ExFull playlist_url with
  | Returns (Some info) => default [] (i_entries info)
  | _ => []
  end.

(** The references left of a playlist once its first resolvable entry,
    the one [play] enqueues at once, is set aside. *)
Definition remaining_refs (entries : list (option Entry)) : list string :=
  tail (valid_refs entries).

(** The first resolvable entry of the list is its first entry. *)
Definition eager_is_first (entries : list (option Entry)) : bool :=
  match entries with
  | [] => true
  | e :: _ => entry_ok e
  end.

(** The references a drain pass starting at call [c] is to append:
    playlist after playlist, one resolver call each. *)
Fixpoint expansion_refs (W : World) (c : nat) (pending : list string)
  : list string :=
  match pending with
  | [] => []
  | p :: ps => remaining_refs (playlist_entries W c p) ++ expansion_refs W (S c) ps
  end.

(** Every playlist of the pass lists its eagerly enqueued entry first. *)
Fixpoint eager_first_all (W : World) (c : nat) (pending : list string) : bool :=
  match pending with
  | [] => true
  | p :: ps => eager_is_first (playlist_entries W c p) && eager_first_all W (S c) ps
  end.

(** The references for which a trace schedules a preload, in order. *)
Definition scheduled_preloads (l : list Event) : list string :=
  omap (fun ev => match ev with
                  | EvCreateTask (TaskPreload url) => Some url
                  | _ => None
                  end) l.

(** The playlists a trace submits to the full resolver, in order. *)
Definition resolved_playlists (l : list Event) : list string :=
  omap (fun ev => match ev with
                  | EvExtract ExFull q => Some q
                  | _ => None
                  end) l.

(** The references the code appends in a drain pass starting at call
    [c]: the resolvable entries after the first element of each list. *)
Fixpoint appended_refs (W : World) (c : nat) (pending : list string)
  : list string :=
  match pending with
  | [] => []
  | p :: ps =>
      valid_refs (tail (playlist_entries W c p)) ++ appended_refs W (S c) ps
  end.

(** The entries a drain pass starting at call [c] goes through: the entry
    list of each pending playlist without its first element. *)
Fixpoint appended_entries (W : World) (c : nat) (pending : list string)
  : list (option Entry) :=
  match pending with
  | [] => []
  | p :: ps => tail (playlist_entries W c p) ++ appended_entries W (S c) ps
  end.

(** The entry [e] is resolvable and its reference is [u]. *)
Definition refers_to (u : string) (e : option Entry) : bool :=
  entry_ok e && String.eqb (get_or "" (entry_ref e)) u.

(** The last of the resolvable entries of a list whose reference is
    [u]. *)
Fixpoint last_entry_for (u : string) (entries : list (option Entry))
  : option Entry :=
  match entries with
  | [] => None
  | e :: rest =>
      match last_entry_for u rest with
      | Some d => Some d
      | None => if refers_to u e then e else None
      end
  end.

(** State [st] is what a drain pass for guild [g] started in [st0] has
    reached after appending [refs]. *)
Definition expanded (g : Z) (st0 st : State) (refs : list string) : Prop :=
  queue_of g st = queue_of g st0 ++ refs ∧
  scheduled_preloads (log st) =
    scheduled_preloads (log st0) ++ take (3 - length (queue_of g st0)) refs ∧
  (∀ u, u ∈ refs → ∃ d, title_cache st !! u = Some (title_of_entry u d)) ∧
  (∀ g', g' ≠ g → queue_of g' st = queue_of g' st0) ∧
  pending_playlists st = pending_playlists st0 ∧
  audio_cache st = audio_cache st0 ∧
  voice_clients st = voice_clients st0.

(** The recursive call [k] of the sequencer returns, within its frame, on
    every queue shorter than [m]. *)
Definition returns_below (g : Z) (k : State → option State) (m : nat) : Prop :=
  ∀ st1, (length (queue_of g st1) < m)%nat →
         ∃ st', k st1 = Some st' ∧ sequencer_frame g st1 st'.

(** A playlist entry with a page URL. *)
Definition entry_at (url title : string) : option Entry :=
  Some (mkEntry (Some url) None (Some title) 0).

(** A resolved playlist of four tracks. *)
Definition four_tracks : Info :=
  mkInfo (Some "Mix") 0 None (Some "https://www.youtube.com/playlist?list=PL") None
    (Some [entry_at "v0" "Zero"; entry_at "v1" "One"; entry_at "v2" "Two";
           entry_at "v3" "Three"]).

(** A world in which every query resolves to that playlist. *)
Definition world_playlist : World :=
  steady_world (fun _ _ => Returns (Some four_tracks)) (fun _ => Some 5%nat).

(** A guild whose player is busy with a stream. *)
Definition guild_busy (g : Z) (st : State) : State :=
  set_voice (<[g := mkVoiceClient true true (Some 0%nat)]> (voice_clients st)) st.

(** The playlist command of the worked example, issued in guild 1. *)
Definition playlist_query : string := "https://www.youtube.com/playlist?list=PL".

Definition in_guild_one : Interaction := mkInteraction (Some 1) true (Some 9).

(** Serving guild [g] has left the queue and the pending playlists of
    every other guild as they were. *)
Definition guild_frame (g : Z) (st st' : State) : Prop :=
  ∀ g', g' ≠ g →
        queue_of g' st' = queue_of g' st ∧
        pending_playlists st' !! g' = pending_playlists st !! g'.

(** Two guilds, connected and idle, that both have the same reference
    queued. *)
Definition shared_ref : string := "https://t/u".

Definition two_guilds : State :=
  guild_ready 2 [shared_ref] (guild_ready 1 [shared_ref] init).

Definition in_guild_two : Interaction := mkInteraction (Some 2) true (Some 8).

(** A world in which every reference resolves to a direct stream whose
    title names the kind of resolver call. *)
Definition world_titles : World :=
  steady_world
    (fun mode q =>
       Returns (Some (mkInfo
                        (Some (match mode with
                               | ExSingle => "Preloaded title"
                               | _ => "Listed title"
                               end))
                        100 (Some ("http://cdn/" +:+ q)) (Some q) None None)))
    (fun _ => Some 5%nat).

(** The classes of resolver failure the replies distinguish. *)
Inductive ErrorClass :=
  | DrmProtected
  | Unavailable
  | AgeRestricted
  | UnsupportedUrl
  | GeoRestricted
  | Network.

(** The classification as an ordered table: each row lists the
    substrings, any of which selects the class of the row. *)
Definition error_table : list (list string * ErrorClass) :=
  [ (["[drm]"; "drm protection"], DrmProtected);
    (["video unavailable"], Unavailable);
    (["sign in to confirm your age"], AgeRestricted);
    (["not a supported url"], UnsupportedUrl);
    (["geo restriction"], GeoRestricted);
    (["network error"; "connection error"], Network) ].

(** The first row of a table with a substring occurring in [text]. *)
Fixpoint first_match (table : list (list string * ErrorClass)) (text : string)
  : option ErrorClass :=
  match table with
  | [] => None
  | (subs, c) :: rest =>
      if existsb (fun s => contains s text) subs then Some c
      else first_match rest text
  end.

(** The class of a raw error text: first match on its lowercased form;
    [None] is the unknown cause. *)
Definition classify (e : string) : option ErrorClass :=
  first_match error_table (lower e).




(** Twelve references. *)
Definition twelve_refs : list string :=
  ["r01"; "r02"; "r03"; "r04"; "r05"; "r06"; "r07"; "r08"; "r09"; "r10";
   "r11"; "r12"].

(** The now-playing field of an idle player. *)
Definition now_idle : Field := mkField "Now Playing" "*Nothing is playing*" false.




(** A shortened video link: the identifier, then the query parameters if
    any. *)
Definition short_link (video_id : string) (params : option string) : string :=
  "https://youtu.be/" +:+ video_id +:+
  match params with
  | Some p => "?" +:+ p
  | None => ""
  end.

(** The canonical long form of a video link. *)
Definition canonical_link (video_id : string) : string :=
  "https://www.youtube.com/watch?v=" +:+ video_id.

(** The page fetched again for a Spotify track query. *)
Definition track_page (query : string) : string :=
  "https://open.spotify.com/track/" +:+ track_id_of query.

(** A world whose first page scrape yields the given phrase and whose
    second look at the track page finds the given title. *)
Definition world_scrape (phrase : string) (page_title : option string) : World :=
  mkWorld (fun _ _ _ => Returns None) (fun _ _ => None)
          (fun _ _ => ("", "Adventure Time!", phrase))
          (fun _ _ => FetchReturns page_title).

Definition spotify_query : string := "https://open.spotify.com/track/4uLU6?si=9".

(** The queries a trace submits to the resolver, in order. *)
Definition resolver_queries (l : list Event) : list (Mode * string) :=
  omap (fun ev => match ev with
                  | EvExtract mode q => Some (mode, q)
                  | _ => None
                  end) l.

(** The separator of one character. *)
Definition sep1 (c : ascii) : string := String c EmptyString.

(* ===================================================================== *)
(** ** Further definitions: the remaining commands and the older engine *)
(* ===================================================================== *)

(** A step from [st] to [st'] keeps the invariant [I] and may be put in
    front of any run that ends well: [R st' f] gives [R st f]. *)
Definition step_ok (I : State → Prop) (R : State → State → Prop)
    (st st' : State) : Prop :=
  I st → I st' ∧ ∀ f, R st' f → R st f.

(** The streams a trace hands to the player, in order. *)
Definition played (l : list Event) : list (Z * nat) :=
  omap (fun ev => match ev with
                  | EvPlay g src => Some (g, src)
                  | _ => None
                  end) l.

(** The player of the guild is connected and busy with a stream. *)
Definition busy (g : Z) (st : State) : Prop :=
  is_connected g st = true ∧ is_playing g st = true.

(** The uncached among the first [count] references of a queue. *)
Definition to_preload (cache : gmap string AudioEntry) (count : nat)
    (q : list string) : list string :=
  List.filter (fun url => match cache !! url with Some _ => false | None => true end)
              (take count q).

(** What one search variant yields at resolver call [n]: the page URL and
    the message of the first result, if the call returns a result list
    whose first element has a page URL. *)
Definition variant_hit (W : World) (n : nat) (term : string)
  : option (string * string) :=
  match ytdl_extract W n ExSearch ("ytsearch1:" +:+ term) with
  | Returns (Some info) =>
      match i_entries info with
      | Some (Some video :: _) =>
          if opt_truthy (e_webpage_url video)
          then Some (get_or "" (e_webpage_url video),
                     "Found alternative: " +:+ get_or "Unknown" (e_title video))
          else None
      | _ => None
      end
  | _ => None
  end.

(** The first-come maximum of the bitrates: the earliest format among
    those of the highest bitrate. *)
Fixpoint argmax_first (formats : list Format) : option Format :=
  match formats with
  | [] => None
  | f :: rest =>
      match argmax_first rest with
      | None => Some f
      | Some b => if f_abr b >? f_abr f then Some b else Some f
      end
  end.

(** A world for the search variants: only the variant ending in
    [" lyrics"] has a result. *)
Definition world_lyrics_only : World :=
  steady_world
    (fun mode q =>
       if String.eqb q "ytsearch1:Song lyrics"
       then Returns (Some (mkInfo None 0 None None None
                             (Some [entry_at "https://yt/w1" "Song (lyrics)"])))
       else Raises "no result")
    (fun _ => None).

(** The messages a trace sends to text channels, in order. *)
Definition sent (l : list Event) : list (Z * string) :=
  omap (fun ev => match ev with
                  | EvSend c msg => Some (c, msg)
                  | _ => None
                  end) l.

(** The notices a drain pass starting at call [c] owes the channel: one
    for each pending playlist whose resolution raises. *)
Fixpoint playlist_errors (W : World) (c : nat) (pending : list string)
  : list string :=
  match pending with
  | [] => []
  | p :: ps =>
      match ytdl_extract W c ExFull p with
      | Raises e => ["Error processing playlist: " +:+ e]
      | _ => []
      end ++ playlist_errors W (S c) ps
  end.

(** A world in which the playlist ["bad"] cannot be resolved and every
    other query resolves to the playlist of four tracks. *)
Definition world_bad_playlist : World :=
  steady_world
    (fun _ q => if String.eqb q "bad" then Raises "private playlist"
                else Returns (Some four_tracks))
    (fun _ => None).

(** A state in which guild 1 has two playlists pending. *)
Definition two_pending : State :=
  set_pending {[ 1 := ["bad"; playlist_query] ]} (guild_ready 1 ["v0"] init).

(** A world for the DRM fallback: the page scrape yields a phrase, its
    first search variant finds a video, and that video resolves to a
    single track. *)
Definition world_drm : World :=
  mkWorld
    (fun _ mode q =>
       match mode with
       | ExSearch =>
           Returns (Some (mkInfo None 0 None None None
                            (Some [entry_at "https://yt/alt" "Song (audio)"])))
       | _ =>
           Returns (Some (mkInfo (Some "Song (audio)") 200 None
                            (Some "https://yt/alt") None None))
       end)
    (fun _ _ => Some 5%nat)
    (fun _ _ => ("Artist", "Song", "Artist - Song audio"))
    (fun _ _ => FetchReturns None).

(** More of the older variant (musicold.py): its sequencer and the
    playlist branch of its play command. *)
Module OldCog.

(** The handler of the [try] of the older [play_next] (lines 243-246),
    entered with the text of the exception; [k] is the recursive call. *)
Definition play_next_except (k : State -> option State) (channel : option Z)
    (msg : string) (st : State) : option State :=
  k (send channel ("Error playing song: " +:+ msg) st).

(** [play_next(guild, text_channel)] of the older variant: one preload
    attempt on the head, no retry.  [refusal] is the text of the exception
    the player raises when it does not take a stream.  [fuel] bounds the
    depth of the recursion; [None] only when it runs out. *)
Fixpoint play_next_fuel (fuel : nat) (refusal : string) (W : World)
    (guild_id : Z) (channel : option Z) (st : State) : option State :=
  match fuel with
  | O => None
  | S fuel' =>
      if negb (is_connected guild_id st) then Some st
      else
        let k := play_next_fuel fuel' refusal W guild_id channel in
        let '(q, st1) := get_queue guild_id st in
        match q with
        | [] => Some (send channel "Queue finished!" st1)
        | url :: _ =>
            let '(cached, st2) := Old.preload_song W url st1 in
            match cached with
            | None =>
                match popHead guild_id st2 with
                | (None, st3) =>
                    play_next_except k channel "pop from empty list" st3
                | (Some _, st3) =>
                    match channel with
                    | Some c => k (emit (EvSend c "Could not load the audio.") st3)
                    | None =>
                        play_next_except k channel
                          "'NoneType' object has no attribute 'send'" st3
                    end
                end
            | Some data =>
                match popHead guild_id st2 with
                | (None, st3) =>
                    play_next_except k channel "pop from empty list" st3
                | (Some _, st3) =>
                    match vc_play guild_id (a_source data) st3 with
                    | None => play_next_except k channel refusal st3
                    | Some st4 =>
                        Some (send channel
                                ("Now playing: " +:+
                                 get_or "Unknown" (i_title (a_info data))) st4)
                    end
                end
            end
        end
  end.

Definition play_next (refusal : string) (W : World) (guild_id : Z)
    (channel : option Z) (st : State) : option State :=
  play_next_fuel (S (length (queue_of guild_id st))) refusal W guild_id channel st.

(** The bullet of the older replies. *)
Definition bullet : string := of_bytes [226; 128; 162]%nat.

(** Lines 386-412: the reply to a playlist query. *)
Definition playlist_reply (added_tracks : list string) : Event :=
  match added_tracks with
  | [] => EvFollowup "No playable tracks found in playlist"
  | _ :: _ =>
      let n := length added_tracks in
      let bullets l := join nl (List.map (fun t => bullet +:+ " " +:+ t) l) in
      let listing :=
        if (5 <? n)%nat
        then mkField "First 5 Tracks"
               (bullets (take 5 added_tracks) +:+ nl +:+ "*...and " +:+
                str_nat (n - 5) +:+ " more*") false
        else mkField "Track List" (bullets added_tracks) false in
      EvFollowupEmbed
        (mkEmbed "Playlist Added to Queue" Green
           [mkField "Tracks Added" (str_nat n +:+ " songs") false; listing])
  end.

(** The body of the loop over [valid_entries] (lines 373-384): the state
    and [added_tracks]. *)
Definition add_entry (guild_id : Z) (acc : State * list string) (e : option Entry)
  : State * list string :=
  match e with
  | Some d =>
      let url := get_or "" (entry_ref e) in
      (enqueue guild_id url (title_of_entry url d) acc.1,
       acc.2 ++ [get_or "Unknown" (e_title d)])
  | None => acc
  end.

(** Lines 370-412: a resolved playlist in the older [play]: every
    resolvable entry is enqueued before the command replies. *)
Definition enqueue_playlist (guild_id : Z) (entries : list (option Entry))
    (st : State) : State :=
  let valid_entries := List.filter entry_ok entries in
  let '(st1, added_tracks) :=
    fold_left (add_entry guild_id) valid_entries (st, []) in
  emit (playlist_reply added_tracks) st1.

(** [s.replace(a, b)] for single characters. *)
Fixpoint replace_char (a b : ascii) (s : string) : string :=
  match s with
  | EmptyString => EmptyString
  | String x s' => String (if Ascii.eqb x a then b else x) (replace_char a b s')
  end.

(** Line 138: the phrase derived from the last path segment of the query
    when the page gave none. *)
Definition fallback_phrase (query : string) : string :=
  first_piece (split "?" (replace_char "-" " " (last_piece (split "/" query)))).

(** [_try_alternative_source(query)] of the older variant: a single
    search, with the scraped phrase or else the one derived from the
    query. *)
Definition try_alternative_source (W : World) (query : string) (st : State)
  : (bool * string * string) * State :=
  let '((_, _, scraped), st1) := extract_song_info W query st in
  let search_query := if truthy scraped then scraped else fallback_phrase query in
  let st2 := tick (emit (EvExtract ExSearch ("ytsearch1:" +:+ search_query)) st1) in
  match ytdl_extract W (clock st1) ExSearch ("ytsearch1:" +:+ search_query) with
  | Returns (Some info) =>
      match i_entries info with
      | Some (Some video :: _) =>
          if opt_truthy (e_webpage_url video)
          then ((true, get_or "" (e_webpage_url video),
                 "Found alternative: " +:+ get_or "Unknown" (e_title video)), st2)
          else ((false, "", "Could not find an alternative source"), st2)
      | _ => ((false, "", "Could not find an alternative source"), st2)
      end
  | _ => ((false, "", "Could not find an alternative source"), st2)
  end.

End OldCog.

(** A queue head whose preload, in the older variant, yields none. *)
Definition old_world_bad : World :=
  steady_world
    (fun _ q => if String.eqb q "bad" then Returns None
                else Returns (Some (info_stream ("Title of " +:+ q) 100
                                      ("http://cdn/" +:+ q))))
    (fun _ => Some 5%nat).

(** The titles of the resolvable entries of a list, in order. *)
Definition valid_titles (entries : list (option Entry)) : list string :=
  List.map (fun e => match e with
                     | Some d => get_or "Unknown" (e_title d)
                     | None => "Unknown"
                     end)
           (List.filter entry_ok entries).

(** [skip]: the player is told to stop its stream.  The completion
    callback of that stream, which advances the queue, is run by the
    player afterwards ([handle_playback_error]). *)
Definition skip (guild_id : Z) (st : State) : State :=
  match voice_clients st !! guild_id with
  | None => emit (EvResponse "Not playing any music!") st
  | Some vc =>
      if vc_playing vc
      then emit (EvResponse "Skipped the current song")
             (set_voice (<[guild_id := mkVoiceClient (vc_connected vc) false None]>
                           (voice_clients st)) st)
      else emit (EvResponse "No song is currently playing") st
  end.

(** The replies sent to the caller of a command, in order. *)
Definition followups (l : list Event) : list string :=
  omap (fun ev => match ev with
                  | EvFollowup msg => Some msg
                  | _ => None
                  end) l.
(* ===================================================================== *)
(** ** Python string operations: checks *)
(* ===================================================================== *)

Example split_slash :
  split "/" "https://youtu.be/abc?x=1" = ["https:"; ""; "youtu.be"; "abc?x=1"].
Proof. reflexivity. Qed.

Example split_track :
  split "track/" "https://open.spotify.com/track/4uLU6?si=9" =
  ["https://open.spotify.com/"; "4uLU6?si=9"].
Proof. reflexivity. Qed.

Example split_absent : split "?" "abc" = ["abc"].
Proof. reflexivity. Qed.

Example str_Z_120 : str_Z 120 = "120".
Proof. reflexivity. Qed.

Example fmt_02d_5 : fmt_02d 5 = "05".
Proof. reflexivity. Qed.

Example lower_mixed : lower "[DRM] Video" = "[drm] video".
Proof. reflexivity. Qed.

(** A letter outside ASCII whose lower case is an ASCII letter: U+212A
    (the bytes E2 84 AA) is folded to [k], as [str.lower] does. *)
Example lower_kelvin_sign :
  lower ("NETWOR" +:+ of_bytes [226; 132; 170]%nat +:+ " ERROR") = "network error" ∧
  lower (of_bytes [196; 176]%nat +:+ "D") = "i" +:+ of_bytes [204; 135]%nat +:+ "d".
Proof. split; vm_compute; reflexivity. Qed.

(* ===================================================================== *)
(** ** Properties of the queue store *)
(* ===================================================================== *)

Section QueueStore.

Implicit Types (g : Z) (st : State) (url : string).

Lemma get_queue_fst g st : (get_queue g st).1 = queue_of g st.
Proof. unfold get_queue, queue_of. by destruct (queues st !! g). Qed.

Lemma get_queue_queue_of g g' st :
  queue_of g' (get_queue g st).2 = queue_of g' st.
Proof.
  unfold get_queue, queue_of. destruct (queues st !! g) eqn:E; simpl; [done|].
  destruct (decide (g = g')) as [->|Hne].
  - by rewrite lookup_insert_eq, E.
  - by rewrite lookup_insert_ne.
Qed.

Lemma get_queue_frame g st :
  let st' := (get_queue g st).2 in
  title_cache st' = title_cache st ∧ audio_cache st' = audio_cache st ∧
  pending_playlists st' = pending_playlists st ∧
  voice_clients st' = voice_clients st ∧ clock st' = clock st ∧ log st' = log st.
Proof. unfold get_queue. by destruct (queues st !! g). Qed.

Lemma queue_of_set_queues g g' q st :
  queue_of g' (set_queues (<[g := q]> (queues st)) st) =
  if decide (g = g') then q else queue_of g' st.
Proof.
  unfold queue_of; simpl. rewrite lookup_insert. by case_decide.
Qed.

Lemma queue_of_append g g' url st :
  queue_of g' (append g url st) =
  if decide (g = g') then queue_of g st ++ [url] else queue_of g' st.
Proof.
  unfold append. pose proof (get_queue_fst g st) as Hq.
  pose proof (get_queue_queue_of g g' st) as Hq'.
  destruct (get_queue g st) as [q st1]; simpl in *.
  rewrite queue_of_set_queues. case_decide; congruence.
Qed.

Lemma popHead_cons g st url rest :
  queue_of g st = url :: rest →
  ∃ st', popHead g st = (Some url, st') ∧
         (∀ g', queue_of g' st' = if decide (g = g') then rest else queue_of g' st) ∧
         title_cache st' = title_cache st ∧ audio_cache st' = audio_cache st ∧
         pending_playlists st' = pending_playlists st ∧
         voice_clients st' = voice_clients st ∧ clock st' = clock st ∧
         log st' = log st.
Proof.
  intros Hq. unfold popHead.
  pose proof (get_queue_fst g st) as H1.
  pose proof (get_queue_frame g st) as H2.
  pose proof (λ g', get_queue_queue_of g g' st) as H3.
  destruct (get_queue g st) as [q st1]; simpl in *.
  rewrite Hq in H1; subst q. eexists; split; [done|].
  split; [|by simpl].
  intros g'. rewrite queue_of_set_queues. case_decide; [done|]. apply H3.
Qed.

Lemma popHead_nil g st :
  queue_of g st = [] →
  ∃ st', popHead g st = (None, st') ∧
         (∀ g', queue_of g' st' = queue_of g' st) ∧
         title_cache st' = title_cache st ∧ audio_cache st' = audio_cache st ∧
         pending_playlists st' = pending_playlists st ∧
         voice_clients st' = voice_clients st ∧ clock st' = clock st ∧
         log st' = log st.
Proof.
  intros Hq. unfold popHead.
  pose proof (get_queue_fst g st) as H1.
  pose proof (get_queue_frame g st) as H2.
  pose proof (λ g', get_queue_queue_of g g' st) as H3.
  destruct (get_queue g st) as [q st1]; simpl in *.
  rewrite Hq in H1; subst q. eexists; split; [done|]. by split.
Qed.

End QueueStore.

Lemma queue_of_append_all g refs st :
  queue_of g (append_all g refs st) = queue_of g st ++ refs.
Proof.
  revert st. induction refs as [|u refs IH]; intros st; simpl.
  - by rewrite app_nil_r.
  - rewrite IH, queue_of_append. case_decide; [|done]. by rewrite <- app_assoc.
Qed.

Lemma pop_many_queue g st :
  ∀ q, queue_of g st = q →
  (pop_many g (length q) st).1 = q ∧ queue_of g (pop_many g (length q) st).2 = [].
Proof.
  intros q. revert st. induction q as [|u q IH]; intros st Hq; simpl.
  - done.
  - destruct (popHead_cons g st u q Hq) as (st' & -> & Hq' & _).
    specialize (Hq' g). rewrite decide_True in Hq' by done.
    destruct (IH st' Hq') as [H1 H2].
    destruct (pop_many g (length q) st') as [l st2]; simpl in *. by subst.
Qed.

(** C5.  Starting from an empty guild queue, after any sequence of appends
    the consecutive head removals return the appended references in the
    order of the appends, and leave the queue empty. *)
Theorem C5_fifo_order (g : Z) (refs : list string) (st : State) :
  queue_of g st = [] →
  (pop_many g (length refs) (append_all g refs st)).1 = refs ∧
  queue_of g (pop_many g (length refs) (append_all g refs st)).2 = [] ∧
  (popHead g (pop_many g (length refs) (append_all g refs st)).2).1 = None.
Proof.
  intros Hq.
  assert (queue_of g (append_all g refs st) = refs) as Hall.
  { by rewrite queue_of_append_all, Hq. }
  destruct (pop_many_queue g _ refs Hall) as [H1 H2].
  split; [done|]. split; [done|].
  destruct (popHead_nil g _ H2) as (st' & -> & _). done.
Qed.

Lemma C5_fifo_order_witness :
  (pop_many 7 3 (append_all 7 ["a"; "b"; "c"] init)).1 = ["a"; "b"; "c"].
Proof.
  apply (C5_fifo_order 7 ["a"; "b"; "c"] init). reflexivity.
Defined.

(* ===================================================================== *)
(** ** Properties of the preloader *)
(* ===================================================================== *)

(** Unfolds a preloader call and splits on every test it makes. *)
Ltac preload_cases :=
  unfold preload_song, preload_song_in, Old.preload_song;
  repeat case_match; simplify_eq/=.

(** C4.  A reference already present in the audio cache is returned as it
    is cached, in both variants, and the state is left as it was: nothing
    is logged, so the resolver is not called, and no cache is written. *)
Theorem C4_preload_cached (W : World) (url : string) (st : State)
    (cached : AudioEntry) :
  audio_cache st !! url = Some cached →
  preload_song W url st = (Some cached, st) ∧
  Old.preload_song W url st = (Some cached, st).
Proof.
  intros Hc. unfold preload_song, preload_song_in, Old.preload_song.
  by rewrite Hc.
Qed.

Lemma C4_preload_cached_witness :
  audio_cache cached_state !! "u" =
    Some (mkAudioEntry 1 (info_stream "Song" 215 "http://cdn/a") 0%nat) ∧
  preload_song (steady_world (fun _ _ => Raises "never called") (fun _ => None))
    "u" cached_state =
    (Some (mkAudioEntry 1 (info_stream "Song" 215 "http://cdn/a") 0%nat),
     cached_state).
Proof.
  split; [reflexivity|].
  eapply proj1, (C4_preload_cached _ "u" cached_state). reflexivity.
Defined.

(** A successful preload leaves its entry in the audio cache. *)
Lemma preload_song_in_cached mode W url st entry st' :
  preload_song_in mode W url st = (Some entry, st') →
  audio_cache st' !! url = Some entry.
Proof.
  preload_cases; intros; simplify_eq/=; [done|]. by rewrite lookup_insert_eq.
Qed.

(** Hence a second preload of the same reference does no work. *)
Lemma preload_song_twice W url st entry st' :
  preload_song W url st = (Some entry, st') →
  preload_song W url st' = (Some entry, st').
Proof.
  intros H. apply preload_song_in_cached in H.
  unfold preload_song, preload_song_in. by rewrite H.
Qed.

(** What a preload never touches, and how it extends the trace. *)
Lemma preload_song_in_frame mode W url st :
  let st' := (preload_song_in mode W url st).2 in
  queues st' = queues st ∧ pending_playlists st' = pending_playlists st ∧
  voice_clients st' = voice_clients st ∧ ∃ evs, log st' = log st ++ evs.
Proof.
  preload_cases; repeat split; try done;
    rewrite <- ?app_assoc; try (eexists; done).
  by exists []; rewrite app_nil_r.
Qed.

(** C10.  In both variants: when the preload returns none, the audio
    cache is exactly what it was and holds no entry for the reference,
    while the title cache has received the resolved title and duration
    whenever the resolver returned a dictionary; and the audio cache
    changes only by the insertion of the returned entry, whose stream
    handle the constructor has delivered. *)
Theorem C10_preload_none_frame (W : World) (url : string) (st : State) :
  audio_cache st !! url = None →
  (∀ st', preload_song W url st = (None, st') →
     audio_cache st' = audio_cache st ∧ audio_cache st' !! url = None ∧
     title_cache st' =
       match ytdl_extract W (clock st) ExSingle url with
       | Returns (Some info) => <[url := title_of_info info]> (title_cache st)
       | _ => title_cache st
       end) ∧
  (∀ st', Old.preload_song W url st = (None, st') →
     audio_cache st' = audio_cache st ∧ audio_cache st' !! url = None ∧
     title_cache st' =
       match ytdl_extract W (clock st) ExFull url with
       | Returns (Some info) => <[url := title_of_info info]> (title_cache st)
       | _ => title_cache st
       end) ∧
  (∀ entry st', preload_song W url st = (Some entry, st') →
     audio_cache st' = <[url := entry]> (audio_cache st) ∧
     ∃ info audio_url,
       ytdl_extract W (clock st) ExSingle url = Returns (Some info) ∧
       select_audio_url info = HaveUrl audio_url ∧
       ffmpeg_source W (S (clock st)) audio_url = Some (a_source entry) ∧
       a_info entry = info) ∧
  (∀ entry st', Old.preload_song W url st = (Some entry, st') →
     audio_cache st' = <[url := entry]> (audio_cache st) ∧
     ∃ info audio_url,
       ytdl_extract W (clock st) ExFull url = Returns (Some info) ∧
       Old.select_audio_url info = HaveUrl audio_url ∧
       ffmpeg_source W (S (clock st)) audio_url = Some (a_source entry) ∧
       a_info entry = info).
Proof.
  intros Hc. split_and!; intros *; preload_cases; intros; simplify_eq/=;
    split_and?; eauto 10.
Qed.

(** A preload that returns none and has all the same written the title
    cache: the resolver knows the track but offers no stream for it. *)
Lemma C10_preload_none_frame_witness :
  let W := steady_world (fun _ _ => Returns (Some (info_no_stream "Song" 215)))
                        (fun _ => None) in
  audio_cache init !! "u" = None ∧
  (preload_song W "u" init).1 = None ∧
  audio_cache (preload_song W "u" init).2 = audio_cache init ∧
  title_cache (preload_song W "u" init).2 !! "u" = Some (mkTitleInfo "Song" 215 None).
Proof.
  intros W.
  pose proof (C10_preload_none_frame W "u" init eq_refl) as (H & _).
  specialize (H _ eq_refl) as (Ha & _ & Ht).
  split; [reflexivity|]. split; [reflexivity|]. split; [exact Ha|].
  etrans; [exact (f_equal (λ m, m !! "u") Ht)|]. vm_compute. reflexivity.
Defined.

(* ===================================================================== *)
(** ** Properties of the playback sequencer *)
(* ===================================================================== *)

Section Sequencer.

Implicit Types (g : Z) (st : State) (url : string) (ch : option Z).

Lemma sequencer_frame_refl g st : sequencer_frame g st st.
Proof. by repeat split. Qed.

Lemma sequencer_frame_trans g st1 st2 st3 :
  sequencer_frame g st1 st2 → sequencer_frame g st2 st3 →
  sequencer_frame g st1 st3.
Proof.
  intros (A1 & A2 & A3 & A4 & A5) (B1 & B2 & B3 & B4 & B5).
  split_and!.
  - by etrans.
  - intros g' Hg. by rewrite B2, A2.
  - intros g' Hg. by rewrite B3, A3.
  - congruence.
  - by etrans.
Qed.

Lemma frame_emit g e st : sequencer_frame g st (emit e st).
Proof.
  split_and!; try done. simpl. by apply prefix_app_r.
Qed.

Lemma frame_send g ch msg st : sequencer_frame g st (send ch msg st).
Proof. destruct ch; [apply frame_emit | apply sequencer_frame_refl]. Qed.

Lemma frame_get_queue g g0 st : sequencer_frame g st (get_queue g0 st).2.
Proof.
  pose proof (get_queue_frame g0 st) as (_ & _ & Hp & Hv & _ & Hl); simpl in *.
  split_and!.
  - by rewrite get_queue_queue_of.
  - intros. by rewrite get_queue_queue_of.
  - intros. by rewrite Hv.
  - done.
  - by rewrite Hl.
Qed.

Lemma frame_preload g W url st : sequencer_frame g st (preload_song W url st).2.
Proof.
  pose proof (preload_song_in_frame ExSingle W url st) as H.
  cbv zeta in H. destruct H as (Hq & Hp & Hv & evs & Hl).
  unfold preload_song, sequencer_frame, queue_of.
  rewrite Hq, Hp, Hl. split_and!; try done.
  - intros. by rewrite Hv.
  - by apply prefix_app_r.
Qed.

Lemma frame_popHead g st : sequencer_frame g st (popHead g st).2.
Proof.
  destruct (queue_of g st) as [|u rest] eqn:Hq.
  - destruct (popHead_nil g st Hq) as (st' & -> & Hq' & _ & _ & Hp & Hv & _ & Hl).
    simpl. split_and!; rewrite ?Hq', ?Hv, ?Hl; done.
  - destruct (popHead_cons g st u rest Hq) as (st' & -> & Hq' & _ & _ & Hp & Hv & _ & Hl).
    simpl. split_and!; rewrite ?Hv, ?Hl; try done.
    + rewrite Hq', decide_True, Hq by done. by apply suffix_cons_r.
    + intros g' Hg. rewrite Hq'. by rewrite decide_False.
Qed.

Lemma frame_vc_play g src st st' :
  vc_play g src st = Some st' → sequencer_frame g st st'.
Proof.
  unfold vc_play. repeat case_match; intros; simplify_eq/=.
  split_and!; try done.
  - intros g' Hg. simpl. by rewrite lookup_insert_ne.
  - simpl. by apply prefix_app_r.
Qed.

Lemma sequencer_frame_length g st st' :
  sequencer_frame g st st' → (length (queue_of g st') ≤ length (queue_of g st))%nat.
Proof. intros (H & _). by apply suffix_length. Qed.

Lemma queue_of_send g ch msg st : queue_of g (send ch msg st) = queue_of g st.
Proof. by destruct ch. Qed.

Lemma popHead_length g st r st' :
  popHead g st = (Some r, st') →
  S (length (queue_of g st')) = length (queue_of g st).
Proof.
  destruct (queue_of g st) as [|u rest] eqn:Hq.
  - destruct (popHead_nil g st Hq) as (st0 & -> & _). done.
  - destruct (popHead_cons g st u rest Hq) as (st0 & -> & Hq' & _).
    intros; simplify_eq. by rewrite Hq', decide_True.
Qed.

Lemma play_next_except_spec k g ch msg st m :
  returns_below g k m → (length (queue_of g st) ≤ m)%nat →
  ∃ st', play_next_except k g ch msg st = Some st' ∧ sequencer_frame g st st'.
Proof.
  intros Hk Hm. unfold play_next_except.
  pose proof (queue_of_send g ch ("Error playing song: " +:+ msg) st) as Hs.
  destruct (queue_of g (send ch _ st)) as [|u rest] eqn:Hq.
  - eexists; split; [done|]. apply frame_send.
  - destruct (popHead_cons g _ u rest Hq) as (st2 & Hpop & _).
    pose proof (frame_popHead g (send ch ("Error playing song: " +:+ msg) st)) as Hf.
    pose proof (popHead_length g _ _ _ Hpop) as Hl.
    rewrite Hpop in *; simpl in *.
    destruct (Hk st2) as (st' & -> & Hf'); [rewrite Hq, Hs in Hl; lia|].
    eexists; split; [done|].
    eapply sequencer_frame_trans; [apply frame_send|].
    eapply sequencer_frame_trans; done.
Qed.

Lemma on_exception_spec k retry n' g ch cached st m :
  returns_below g k m →
  (∀ c s, (length (queue_of g s) ≤ m)%nat →
          ∃ st', retry c s = Some st' ∧ sequencer_frame g s st') →
  (length (queue_of g st) ≤ m)%nat →
  ∃ st', on_exception k retry n' g ch cached st = Some st' ∧
         sequencer_frame g st st'.
Proof.
  intros Hk Hretry Hm. unfold on_exception. destruct n' as [|n'].
  - pose proof (queue_of_send g ch msg_failed_attempts st) as Hs.
    pose proof (frame_popHead g (send ch msg_failed_attempts st)) as Hf.
    pose proof (popHead_length g (send ch msg_failed_attempts st)) as Hl.
    destruct (popHead g (send ch msg_failed_attempts st)) as [[r|] st2]; simpl in *.
    + specialize (Hl _ _ eq_refl).
      destruct (Hk st2) as (st' & -> & Hf'); [rewrite Hs in Hl; lia|].
      eexists; split; [done|].
      eapply sequencer_frame_trans; [apply frame_send|].
      eapply sequencer_frame_trans; done.
    + pose proof (sequencer_frame_length _ _ _ Hf) as Hle. rewrite Hs in Hle.
      destruct (play_next_except_spec k g ch "pop from empty list" st2 m Hk)
        as (st' & -> & Hf'); [lia|].
      eexists; split; [done|].
      eapply sequencer_frame_trans; [apply frame_send|].
      eapply sequencer_frame_trans; done.
  - destruct (Hretry cached (emit (EvSleep 1) st)) as (st' & -> & Hf'); [done|].
    eexists; split; [done|].
    eapply sequencer_frame_trans; [apply frame_emit|done].
Qed.

Lemma start_playback_frame g ch data st :
  match start_playback g ch data st with
  | inl st' | inr st' => sequencer_frame g st st'
  end.
Proof.
  unfold start_playback. pose proof (frame_popHead g st) as Hf.
  destruct (popHead g st) as [[r|] st2]; simpl in *; [|done].
  destruct (vc_play g (a_source data) st2) as [st3|] eqn:Hv; [|done].
  apply frame_vc_play in Hv.
  eapply sequencer_frame_trans; [done|].
  eapply sequencer_frame_trans; [done|].
  eapply sequencer_frame_trans; [apply frame_send|apply frame_emit].
Qed.

Lemma retry_loop_spec W k n g ch url m :
  returns_below g k m →
  ∀ cached st, (length (queue_of g st) ≤ m)%nat →
  ∃ st', retry_loop W k n g ch url cached st = Some st' ∧
         sequencer_frame g st st'.
Proof.
  intros Hk. induction n as [|n IH]; intros cached st Hm; simpl.
  - eexists; split; [done|apply sequencer_frame_refl].
  - assert (∃ c1 s1, (match cached with
                      | Some c => (Some c, st)
                      | None => preload_song W url st
                      end) = (c1, s1) ∧ sequencer_frame g st s1)
      as (c1 & s1 & -> & Hf1).
    { destruct cached as [c|].
      - do 2 eexists; split; [done|apply sequencer_frame_refl].
      - pose proof (frame_preload g W url st) as Hf.
        destruct (preload_song W url st) as [c1 s1]. by do 2 eexists. }
    pose proof (sequencer_frame_length _ _ _ Hf1) as Hl1.
    destruct c1 as [data|].
    + pose proof (start_playback_frame g ch data s1) as Hf2.
      destruct (start_playback g ch data s1) as [st'|st'].
      * eexists; split; [done|]. by eapply sequencer_frame_trans.
      * pose proof (sequencer_frame_length _ _ _ Hf2) as Hl2.
        destruct (on_exception_spec k
                    (λ c s, retry_loop W k n g ch url c s) n g ch (Some data) st' m)
          as (st'' & -> & Hf3); [done|by apply IH|lia|].
        eexists; split; [done|].
        eapply sequencer_frame_trans; [done|].
        by eapply sequencer_frame_trans.
    + destruct (on_exception_spec k
                  (λ c s, retry_loop W k n g ch url c s) n g ch None s1 m)
        as (st'' & -> & Hf3); [done|by apply IH|lia|].
      eexists; split; [done|]. by eapply sequencer_frame_trans.
Qed.

Lemma play_next_fuel_S W g ch fuel st :
  play_next_fuel (S fuel) W g ch st =
  if negb (is_connected g st) then Some st
  else
    match (get_queue g st).1 with
    | [] => Some (send ch "Queue finished!" (get_queue g st).2)
    | url :: _ =>
        retry_loop W (play_next_fuel fuel W g ch) max_retries g ch url
          (audio_cache (get_queue g st).2 !! url) (get_queue g st).2
    end.
Proof. simpl. by destruct (get_queue g st). Qed.

(** The sequencer returns whenever it is given more fuel than the queue
    is long, and stays within its frame. *)
Lemma play_next_fuel_spec W g ch fuel :
  ∀ st, (length (queue_of g st) < fuel)%nat →
  ∃ st', play_next_fuel fuel W g ch st = Some st' ∧ sequencer_frame g st st'.
Proof.
  induction fuel as [|fuel IH]; intros st Hlen; [lia|].
  rewrite play_next_fuel_S.
  destruct (is_connected g st); cbn [negb].
  2: { eexists; split; [done|apply sequencer_frame_refl]. }
  pose proof (frame_get_queue g g st) as Hf.
  pose proof (get_queue_queue_of g g st) as Hqq.
  rewrite get_queue_fst.
  destruct (queue_of g st) as [|u rest] eqn:Hqs.
  - eexists; split; [done|].
    eapply sequencer_frame_trans; [done|apply frame_send].
  - destruct (retry_loop_spec W (play_next_fuel fuel W g ch) max_retries g ch u
                fuel IH (audio_cache (get_queue g st).2 !! u) (get_queue g st).2)
      as (st' & -> & Hf').
    { rewrite Hqq. cbn [length] in *. lia. }
    eexists; split; [done|]. by eapply sequencer_frame_trans.
Qed.

(** [play_next] always returns. *)
Lemma play_next_total W g ch st :
  ∃ st', play_next W g ch st = Some st' ∧ sequencer_frame g st st'.
Proof. apply play_next_fuel_spec. lia. Qed.

Lemma retry_loop_S W k n g ch url cached st :
  retry_loop W k (S n) g ch url cached st =
  let r := match cached with
           | Some c => (Some c, st)
           | None => preload_song W url st
           end in
  match r.1 with
  | None =>
      on_exception k (λ c s, retry_loop W k n g ch url c s) n g ch r.1 r.2
  | Some data =>
      match start_playback g ch data r.2 with
      | inl playing => Some playing
      | inr raised =>
          on_exception k (λ c s, retry_loop W k n g ch url c s) n g ch r.1 raised
      end
  end.
Proof.
  simpl. destruct cached; [done|]. by destruct (preload_song W url st).
Qed.

Lemma get_queue_present g st q :
  queues st !! g = Some q → get_queue g st = (q, st).
Proof. intros H. unfold get_queue. by rewrite H. Qed.

Lemma queue_of_cons_present g st u rest :
  queue_of g st = u :: rest → queues st !! g = Some (u :: rest).
Proof. unfold queue_of. destruct (queues st !! g); simpl; congruence. Qed.

Lemma resolver_calls_app url l1 l2 :
  resolver_calls url (l1 ++ l2) = (resolver_calls url l1 + resolver_calls url l2)%nat.
Proof. unfold resolver_calls. by rewrite List.filter_app, length_app. Qed.

Lemma is_resolve_of_self url : is_resolve_of url (EvExtract ExSingle url) = true.
Proof. simpl. apply String.eqb_refl. Qed.

Lemma resolver_calls_sleep url n st :
  resolver_calls url (log (emit (EvSleep n) st)) = resolver_calls url (log st).
Proof. simpl. rewrite resolver_calls_app. unfold resolver_calls; simpl. lia. Qed.

(** One attempt on a reference whose resolution always fails: exactly one
    resolver call, no entry returned, and nothing but the trace, the clock
    and possibly the title cache differs afterwards. *)
Lemma failed_attempt W url st :
  always_fails W url → audio_cache st !! url = None →
  ∃ st1, preload_song W url st = (None, st1) ∧
         queues st1 = queues st ∧ audio_cache st1 = audio_cache st ∧
         voice_clients st1 = voice_clients st ∧
         pending_playlists st1 = pending_playlists st ∧
         resolver_calls url (log st1) = S (resolver_calls url (log st)).
Proof.
  intros Hfail Hc. specialize (Hfail st Hc). revert Hfail.
  pose proof (is_resolve_of_self url) as Hself.
  preload_cases; intros; simplify_eq/=; eexists; (split; [done|]);
    split_and!; try done; simpl;
    rewrite ?resolver_calls_app; unfold resolver_calls; simpl;
    rewrite ?String.eqb_refl; simpl; lia.
Qed.

(** A resolver that raises at every call for [url] makes every preload of
    [url] fail. *)
Lemma always_fails_when_resolver_raises W url :
  (∀ n, ∃ msg, ytdl_extract W n ExSingle url = Raises msg) →
  always_fails W url.
Proof.
  intros Hr st Hc. unfold preload_song, preload_song_in. rewrite Hc.
  by destruct (Hr (clock st)) as [msg ->].
Qed.

End Sequencer.

(** C1.  The sequencer of a connected guild, on a queue whose head [u] is
    not cached and whose every preload yields none: three preload attempts
    are made on [u], one second apart, each calling the resolver once,
    and [u] is still the head of the queue after each of them; then the
    channel is told that the track is skipped, exactly the head is removed,
    and the sequencer goes on as it would from the remaining queue.  The
    run returns, and the queue it leaves is a final part of the references
    that followed [u]: nothing is put back. *)
Theorem C1_retry_bound (W : World) (g : Z) (ch : option Z) (st : State)
    (u : string) (rest : list string) :
  is_connected g st = true →
  queue_of g st = u :: rest →
  audio_cache st !! u = None →
  always_fails W u →
  ∃ st1 st2 st3 st4 : State,
    preload_song W u st = (None, st1) ∧
    preload_song W u (emit (EvSleep 1) st1) = (None, st2) ∧
    preload_song W u (emit (EvSleep 1) st2) = (None, st3) ∧
    resolver_calls u (log st3) = (resolver_calls u (log st) + 3)%nat ∧
    queue_of g st1 = u :: rest ∧ queue_of g st2 = u :: rest ∧
    queue_of g st3 = u :: rest ∧
    popHead g (send ch msg_failed_attempts st3) = (Some u, st4) ∧
    queue_of g st4 = rest ∧
    log st4 = log st3 ++
              match ch with Some c => [EvSend c msg_failed_attempts] | None => [] end ∧
    play_next W g ch st = play_next W g ch st4 ∧
    ∃ stf, play_next W g ch st = Some stf ∧ queue_of g stf `suffix_of` rest.
Proof.
  intros Hconn Hq Hc Hfail.
  destruct (failed_attempt W u st Hfail Hc) as (st1 & E1 & Q1 & A1 & V1 & _ & R1).
  destruct (failed_attempt W u (emit (EvSleep 1) st1) Hfail)
    as (st2 & E2 & Q2 & A2 & V2 & _ & R2); [by rewrite <- A1 in Hc|].
  simpl in Q2, A2, V2.
  destruct (failed_attempt W u (emit (EvSleep 1) st2) Hfail)
    as (st3 & E3 & Q3 & A3 & V3 & _ & R3); [simpl; congruence|].
  simpl in Q3, A3, V3.
  assert (queue_of g st3 = u :: rest) as Hq3.
  { unfold queue_of in *. congruence. }
  assert (queue_of g (send ch msg_failed_attempts st3) = u :: rest) as Hq3'.
  { by rewrite queue_of_send. }
  destruct (popHead_cons g _ u rest Hq3') as (st4 & Hpop & Hq4 & _ & _ & _ & _ & _ & Hl4).
  assert (queue_of g st4 = rest) as Hq4'.
  { by rewrite Hq4, decide_True. }
  assert (play_next W g ch st = play_next W g ch st4) as Hrec.
  { unfold play_next at 1. rewrite Hq. cbn [length].
    rewrite play_next_fuel_S, Hconn. cbn [negb].
    rewrite (get_queue_present g st (u :: rest)) by by apply queue_of_cons_present.
    cbn [fst snd]. unfold max_retries.
    rewrite retry_loop_S, Hc, E1. cbn [fst snd on_exception].
    rewrite retry_loop_S, E2. cbn [fst snd on_exception].
    rewrite retry_loop_S, E3. cbn [fst snd on_exception].
    rewrite Hpop. unfold play_next. by rewrite Hq4'. }
  exists st1, st2, st3, st4. split_and!; try done.
  - rewrite R3, resolver_calls_sleep, R2, resolver_calls_sleep, R1. lia.
  - unfold queue_of in *. congruence.
  - unfold queue_of in *. congruence.
  - rewrite Hl4. destruct ch; simpl; [done|by rewrite app_nil_r].
  - destruct (play_next_total W g ch st4) as (stf & Hstf & Hf & _).
    exists stf. split; [congruence|]. by rewrite <- Hq4'.
Qed.

Lemma world_one_bad_fails : always_fails world_one_bad "bad".
Proof.
  intros st Hc. unfold preload_song, preload_song_in. rewrite Hc. reflexivity.
Defined.

Lemma C1_retry_bound_witness :
  is_connected 1 (guild_ready 1 ["bad"; "good"] init) = true ∧
  queue_of 1 (guild_ready 1 ["bad"; "good"] init) = ["bad"; "good"] ∧
  audio_cache (guild_ready 1 ["bad"; "good"] init) !! "bad" = None ∧
  always_fails world_one_bad "bad" ∧
  ∃ stf, play_next world_one_bad 1 (Some 9) (guild_ready 1 ["bad"; "good"] init)
           = Some stf ∧
         queue_of 1 stf `suffix_of` ["good"].
Proof.
  split; [reflexivity|]. split; [reflexivity|]. split; [reflexivity|].
  split; [exact world_one_bad_fails|].
  destruct (C1_retry_bound world_one_bad 1 (Some 9)
              (guild_ready 1 ["bad"; "good"] init) "bad" ["good"]
              eq_refl eq_refl eq_refl world_one_bad_fails)
    as (_ & _ & _ & _ & _ & _ & _ & _ & _ & _ & _ & _ & _ & _ & _ & H).
  exact H.
Defined.

(** The whole run of that example: three resolver calls for ["bad"], the
    notice, then ["good"] is resolved once and played. *)
Example play_next_one_bad_trace :
  (λ st, (queue_of 1 st, log st)) <$>
    play_next world_one_bad 1 (Some 9) (guild_ready 1 ["bad"; "good"] init) =
  Some ([],
        [EvExtract ExSingle "bad"; EvSleep 1;
         EvExtract ExSingle "bad"; EvSleep 1;
         EvExtract ExSingle "bad";
         EvSend 9 "Failed to play track after 3 attempts. Skipping...";
         EvExtract ExSingle "good"; EvFFmpeg "http://cdn/good";
         EvPlay 1 5; EvSend 9 "Now playing: Title of good";
         EvCreateTask (TaskPreloadNext 1)]).
Proof. vm_compute. reflexivity. Qed.

(* ===================================================================== *)
(** ** Properties of the playlist expansion *)
(* ===================================================================== *)

Section Expansion.

Implicit Types (g : Z) (st : State) (url : string) (ch : option Z).

Lemma append_frame g url st :
  title_cache (append g url st) = title_cache st ∧
  audio_cache (append g url st) = audio_cache st ∧
  pending_playlists (append g url st) = pending_playlists st ∧
  voice_clients (append g url st) = voice_clients st ∧
  clock (append g url st) = clock st ∧ log (append g url st) = log st.
Proof. unfold append, get_queue. by destruct (queues st !! g). Qed.

Lemma valid_refs_app es1 es2 :
  valid_refs (es1 ++ es2) = valid_refs es1 ++ valid_refs es2.
Proof. unfold valid_refs. by rewrite List.filter_app, List.map_app. Qed.

Lemma valid_refs_cons e es : valid_refs (e :: es) = valid_refs [e] ++ valid_refs es.
Proof. apply (valid_refs_app [e] es). Qed.

Lemma take_snoc_bound (n : nat) (refs : list string) (u : string) :
  take n (refs ++ [u]) =
  if (length refs <? n)%nat then take n refs ++ [u] else take n refs.
Proof.
  destruct (Nat.ltb_spec (length refs) n) as [Hlt|Hge].
  - rewrite take_ge by (rewrite length_app; simpl; lia).
    by rewrite (take_ge refs) by lia.
  - by rewrite take_app_le by lia.
Qed.

Lemma expanded_refl g st : expanded g st st [].
Proof.
  unfold expanded. rewrite take_nil, !app_nil_r. split_and!; try done.
  intros u Hu. by apply elem_of_nil in Hu.
Qed.

(** Steps that touch neither a store nor the preload schedule. *)
Lemma expanded_silent g st0 st st' refs :
  expanded g st0 st refs →
  queues st' = queues st → title_cache st' = title_cache st →
  audio_cache st' = audio_cache st → pending_playlists st' = pending_playlists st →
  voice_clients st' = voice_clients st →
  scheduled_preloads (log st') = scheduled_preloads (log st) →
  expanded g st0 st' refs.
Proof.
  unfold expanded, queue_of.
  intros (H1 & H2 & H3 & H4 & H5 & H6 & H7) Q T A P V L.
  rewrite Q, T, A, P, V, L. done.
Qed.

Lemma expanded_get_queue g st0 st refs :
  expanded g st0 st refs → expanded g st0 (get_queue g st).2 refs.
Proof.
  intros (H1 & H2 & H3 & H4 & H5 & H6 & H7).
  pose proof (get_queue_frame g st) as (T & A & P & V & _ & L). simpl in *.
  unfold expanded. rewrite !get_queue_queue_of, T, A, P, V, L.
  split_and!; try done. intros g' Hg. rewrite get_queue_queue_of. by apply H4.
Qed.

Lemma expand_entry_expanded g st0 st refs e :
  expanded g st0 st refs →
  expanded g st0 (expand_entry g st e) (refs ++ valid_refs [e]) ∧
  clock (expand_entry g st e) = clock st ∧
  resolved_playlists (log (expand_entry g st e)) = resolved_playlists (log st).
Proof.
  intros Hex. unfold expand_entry, valid_refs.
  destruct e as [d|]; [|cbn [List.filter List.map entry_ok entry_ref opt_truthy];
                        by rewrite app_nil_r].
  cbn [List.filter].
  destruct (entry_ok (Some d)) eqn:Hok;
    [|cbn [List.map]; by rewrite app_nil_r].
  cbv zeta. cbn [List.map].
  set (u := get_or "" (entry_ref (Some d))).
  set (st1 := set_title_cache (<[u := title_of_entry u d]> (title_cache st)) st).
  pose proof (append_frame g u st1) as (T & A & P & V & C & L).
  destruct Hex as (H1 & H2 & H3 & H4 & H5 & H6 & H7).
  assert (queue_of g (append g u st1) = queue_of g st0 ++ refs ++ [u]) as Hq.
  { rewrite queue_of_append, decide_True by done.
    change (queue_of g st1) with (queue_of g st). by rewrite H1, <- app_assoc. }
  assert (∀ u', u' ∈ refs ++ [u] →
                ∃ d', title_cache st1 !! u' = Some (title_of_entry u' d')) as Ht.
  { intros u' Hu'. simpl. destruct (decide (u = u')) as [->|Hne].
    - exists d. by rewrite lookup_insert_eq.
    - rewrite lookup_insert_ne by done. apply H3.
      apply elem_of_app in Hu' as [Hu'|Hu']; [done|].
      apply list_elem_of_singleton in Hu'. congruence. }
  assert (∀ g', g' ≠ g → queue_of g' (append g u st1) = queue_of g' st0) as Ho.
  { intros g' Hg. rewrite queue_of_append, decide_False by done.
    change (queue_of g' st1) with (queue_of g' st). by apply H4. }
  assert (scheduled_preloads (log st1) =
          scheduled_preloads (log st0) ++ take (3 - length (queue_of g st0)) refs)
    as Hs by done.
  assert (length (queue_of g (append g u st1)) =
          length (queue_of g st0) + length refs + 1)%nat as Hlen.
  { rewrite Hq, !length_app. simpl. lia. }
  pose proof (take_snoc_bound (3 - length (queue_of g st0)) refs u) as Htake.
  destruct (Nat.leb_spec (length (queue_of g (append g u st1))) 3) as [Hle|Hgt].
  - destruct (Nat.ltb_spec (length refs) (3 - length (queue_of g st0)))
      as [_|?]; [|lia].
    split; [|split].
    + unfold expanded. split_and!.
      * done.
      * simpl. unfold scheduled_preloads in *. rewrite omap_app, L, Hs, Htake.
        simpl. by rewrite <- app_assoc.
      * simpl. by rewrite T.
      * done.
      * simpl. by rewrite P.
      * simpl. by rewrite A.
      * simpl. by rewrite V.
    + simpl. by rewrite C.
    + simpl. unfold resolved_playlists. rewrite omap_app, L. simpl.
      by rewrite app_nil_r.
  - destruct (Nat.ltb_spec (length refs) (3 - length (queue_of g st0)))
      as [?|_]; [lia|].
    split; [|split].
    + unfold expanded. split_and!.
      * done.
      * by rewrite L, Hs, Htake.
      * by rewrite T.
      * done.
      * by rewrite P.
      * by rewrite A.
      * by rewrite V.
    + by rewrite C.
    + by rewrite L.
Qed.

Lemma expand_entries_expanded g st0 es :
  ∀ st refs, expanded g st0 st refs →
  expanded g st0 (fold_left (expand_entry g) es st) (refs ++ valid_refs es) ∧
  clock (fold_left (expand_entry g) es st) = clock st ∧
  resolved_playlists (log (fold_left (expand_entry g) es st)) =
    resolved_playlists (log st).
Proof.
  induction es as [|e es IH]; intros st refs Hex.
  - cbn [fold_left]. change (valid_refs []) with (@nil string).
    by rewrite app_nil_r.
  - cbn [fold_left].
    destruct (expand_entry_expanded g st0 st refs e Hex) as (H1 & H2 & H3).
    destruct (IH _ _ H1) as (I1 & I2 & I3).
    rewrite valid_refs_cons, app_assoc. split_and!; [done|congruence..].
Qed.

Lemma resolved_playlists_snoc l p :
  resolved_playlists (l ++ [EvExtract ExFull p]) = resolved_playlists l ++ [p].
Proof. unfold resolved_playlists. by rewrite omap_app. Qed.

Lemma scheduled_preloads_extract l mode q :
  scheduled_preloads (l ++ [EvExtract mode q]) = scheduled_preloads l.
Proof. unfold scheduled_preloads. rewrite omap_app. simpl. by rewrite app_nil_r. Qed.

Lemma expand_playlist_expanded W g ch st0 st refs p :
  expanded g st0 st refs →
  expanded g st0 (expand_playlist W g ch st p)
    (refs ++ valid_refs (tail (playlist_entries W (clock st) p))) ∧
  clock (expand_playlist W g ch st p) = S (clock st) ∧
  resolved_playlists (log (expand_playlist W g ch st p)) =
    resolved_playlists (log st) ++ [p].
Proof.
  intros Hex. unfold expand_playlist, playlist_entries.
  set (st1 := tick (emit (EvExtract ExFull p) st)).
  assert (expanded g st0 st1 refs) as Hex1.
  { eapply expanded_silent; [exact Hex|done..|]. apply scheduled_preloads_extract. }
  assert (resolved_playlists (log st1) = resolved_playlists (log st) ++ [p]) as Hr1.
  { apply resolved_playlists_snoc. }
  destruct (ytdl_extract W (clock st) ExFull p) as [e|[info|]].
  - change (valid_refs (tail [])) with (@nil string). rewrite app_nil_r.
    destruct ch as [c|]; [|done]. split_and!; [|done|].
    + eapply expanded_silent; [exact Hex1|done..|].
      simpl. unfold scheduled_preloads. rewrite !omap_app. simpl.
      by rewrite !app_nil_r.
    + simpl. unfold resolved_playlists in *. rewrite omap_app. simpl.
      simpl in Hr1. by rewrite Hr1, app_nil_r.
  - destruct (i_entries info) as [entries|]; simpl.
    + pose proof (expanded_get_queue g st0 st1 refs Hex1) as Hex2.
      pose proof (get_queue_frame g st1) as (_ & _ & _ & _ & C & L).
      destruct (get_queue g st1) as [q st2]. simpl in *.
      destruct (expand_entries_expanded g st0 (tail entries) st2 refs Hex2)
        as (I1 & I2 & I3).
      split_and!; [done|congruence|]. rewrite I3, L. done.
    + change (valid_refs []) with (@nil string). by rewrite app_nil_r.
  - change (valid_refs (tail [])) with (@nil string). by rewrite app_nil_r.
Qed.

Lemma expand_pending_expanded W g ch st0 pending :
  ∀ st refs, expanded g st0 st refs →
  expanded g st0 (fold_left (expand_playlist W g ch) pending st)
    (refs ++ appended_refs W (clock st) pending) ∧
  clock (fold_left (expand_playlist W g ch) pending st) =
    (clock st + length pending)%nat ∧
  resolved_playlists (log (fold_left (expand_playlist W g ch) pending st)) =
    resolved_playlists (log st) ++ pending.
Proof.
  induction pending as [|p ps IH]; intros st refs Hex.
  - cbn [fold_left appended_refs length]. rewrite !app_nil_r.
    split_and!; [done|lia|done].
  - cbn [fold_left appended_refs length].
    destruct (expand_playlist_expanded W g ch st0 st refs p Hex) as (H1 & H2 & H3).
    destruct (IH _ _ H1) as (I1 & I2 & I3).
    rewrite H2 in I1. rewrite app_assoc. split_and!; [done|lia|].
    rewrite I3, H3, <- app_assoc. done.
Qed.

(** The entries after the first element are those after the first
    resolvable entry, when that entry comes first. *)
Lemma valid_refs_tail entries :
  eager_is_first entries = true →
  valid_refs (tail entries) = remaining_refs entries.
Proof.
  unfold remaining_refs, valid_refs. destruct entries as [|e es]; [done|].
  simpl. by intros ->.
Qed.

Lemma appended_refs_eager W pending :
  ∀ c, eager_first_all W c pending = true →
       appended_refs W c pending = expansion_refs W c pending.
Proof.
  induction pending as [|p ps IH]; intros c H; [done|]. simpl in *.
  apply andb_true_iff in H as [H1 H2]. by rewrite valid_refs_tail, IH.
Qed.

(** The first resolvable entry is the head of the resolvable ones. *)
Lemma first_resolvable_refs entries :
  match first_resolvable entries with
  | Some d => take 1 (valid_refs entries) = [get_or "" (entry_ref (Some d))]
  | None => valid_refs entries = []
  end.
Proof.
  induction entries as [|e es IH]; [done|]. simpl.
  unfold valid_refs. simpl. destruct (entry_ok e) eqn:Hok.
  - destruct e as [d|]; [done|]. done.
  - exact IH.
Qed.

End Expansion.

Lemma enqueue_frame g url entry st :
  (∀ g', queue_of g' (enqueue g url entry st) =
         if decide (g = g') then queue_of g st ++ [url] else queue_of g' st) ∧
  title_cache (enqueue g url entry st) = <[url := entry]> (title_cache st) ∧
  audio_cache (enqueue g url entry st) = audio_cache st ∧
  pending_playlists (enqueue g url entry st) = pending_playlists st ∧
  voice_clients (enqueue g url entry st) = voice_clients st ∧
  clock (enqueue g url entry st) = clock st ∧
  log (enqueue g url entry st) = log st.
Proof.
  unfold enqueue.
  pose proof (append_frame g url st) as (T & A & P & V & C & L).
  split_and!; simpl; try congruence.
  intros g'. change (queue_of g' (set_title_cache ?t ?s)) with (queue_of g' s).
  apply queue_of_append.
Qed.

(** What [play] does with a resolved playlist before it returns. *)
Lemma enqueue_playlist_spec g ch query entries st :
  let st1 := enqueue_playlist g ch query entries st in
  queue_of g st1 = queue_of g st ++ take 1 (valid_refs entries) ∧
  pending_playlists st1 !! g =
    Some (default [] (pending_playlists st !! g) ++ [query]) ∧
  log st1 = log st ++
    match first_resolvable entries with
    | Some d => [EvCreateTask (TaskProcessPending g ch);
                 playlist_reply [get_or "Unknown" (e_title d)]]
    | None => [playlist_reply []]
    end.
Proof.
  unfold enqueue_playlist. pose proof (first_resolvable_refs entries) as Hf.
  destruct (first_resolvable entries) as [d|]; cbv zeta.
  - match goal with |- context [enqueue g ?u ?e ?s] =>
      pose proof (enqueue_frame g u e s) as (Q & _ & _ & P & _ & _ & L) end.
    split_and!.
    + change (queue_of g (emit ?e ?s)) with (queue_of g s).
      change (queue_of g (emit ?e ?s)) with (queue_of g s).
      rewrite Q, decide_True, Hf by done. done.
    + cbn [emit pending_playlists]. rewrite P.
      cbn [set_pending pending_playlists]. by rewrite lookup_insert_eq.
    + cbn [emit log]. rewrite L. cbn [set_pending log]. by rewrite <- app_assoc.
  - rewrite Hf. simpl. rewrite app_nil_r, lookup_insert_eq. done.
Qed.

(** *** Which metadata a run over entry lists leaves in the cache *)

Lemma refers_to_ref u e :
  refers_to u e = true → entry_ok e = true ∧ get_or "" (entry_ref e) = u.
Proof.
  unfold refers_to. intros H. apply andb_true_iff in H as [H1 H2].
  by apply String.eqb_eq in H2.
Qed.

Lemma last_entry_for_app u es1 es2 :
  last_entry_for u (es1 ++ es2) =
  match last_entry_for u es2 with
  | Some d => Some d
  | None => last_entry_for u es1
  end.
Proof.
  induction es1 as [|e es1 IH]; cbn [app last_entry_for].
  - by destruct (last_entry_for u es2).
  - rewrite IH. by destruct (last_entry_for u es2).
Qed.

(** The references with such an entry are the resolvable ones. *)
Lemma last_entry_for_valid u es :
  is_Some (last_entry_for u es) ↔ u ∈ valid_refs es.
Proof.
  induction es as [|e es IH]; cbn [last_entry_for].
  - change (valid_refs []) with (@nil string). split; [by intros [? ?]|].
    intros H. by apply elem_of_nil in H.
  - rewrite valid_refs_cons, elem_of_app, <- IH.
    destruct (last_entry_for u es) as [d|]; [split; eauto|].
    unfold valid_refs. cbn [List.filter]. unfold refers_to.
    destruct (entry_ok e) eqn:Hok; cbn [andb List.map].
    + destruct (String.eqb_spec (get_or "" (entry_ref e)) u) as [Heq|Hne].
      * destruct e as [d|]; [|done]. split; [|eauto]. intros _. left.
        rewrite Heq. apply list_elem_of_here.
      * split; [by intros [? ?]|]. intros [H|[? ?]]; [|done].
        apply list_elem_of_singleton in H. congruence.
    + split; [by intros [? ?]|]. intros [H|[? ?]]; [|done].
      by apply elem_of_nil in H.
Qed.

(** The entry found is a resolvable entry of the list with the reference
    asked for. *)
Lemma last_entry_for_elem u es d :
  last_entry_for u es = Some d →
  Some d ∈ es ∧ entry_ok (Some d) = true ∧ get_or "" (entry_ref (Some d)) = u.
Proof.
  induction es as [|e es IH]; cbn [last_entry_for]; [done|].
  destruct (last_entry_for u es) as [d'|].
  - intros [= ->]. destruct (IH eq_refl) as (? & ? & ?).
    split; [by apply list_elem_of_further|done].
  - destruct (refers_to u e) eqn:Hr; [|done]. intros ->.
    apply refers_to_ref in Hr as [? ?]. split; [apply list_elem_of_here|done].
Qed.

Lemma expand_entry_title_cache g st e :
  title_cache (expand_entry g st e) =
  match e with
  | Some d =>
      if entry_ok e
      then <[get_or "" (entry_ref e) := title_of_entry (get_or "" (entry_ref e)) d]>
             (title_cache st)
      else title_cache st
  | None => title_cache st
  end.
Proof.
  unfold expand_entry. destruct e as [d|]; [|done].
  destruct (entry_ok (Some d)); [|done]. cbv zeta.
  match goal with |- context [append g ?u ?s] =>
    pose proof (append_frame g u s) as (T & _) end.
  by destruct (_ <=? 3)%nat; cbn [emit title_cache]; rewrite T.
Qed.

Lemma expand_entries_titles g es :
  ∀ st u,
    title_cache (fold_left (expand_entry g) es st) !! u =
    match last_entry_for u es with
    | Some d => Some (title_of_entry u d)
    | None => title_cache st !! u
    end.
Proof.
  induction es as [|e es IH]; intros st u; [done|].
  cbn [fold_left last_entry_for]. rewrite IH.
  destruct (last_entry_for u es) as [d'|]; [done|].
  rewrite expand_entry_title_cache. unfold refers_to.
  destruct e as [d|]; [|done].
  destruct (entry_ok (Some d)); [|done]. cbn [andb].
  destruct (String.eqb_spec (get_or "" (entry_ref (Some d))) u) as [->|Hne].
  - by rewrite lookup_insert_eq.
  - by rewrite lookup_insert_ne.
Qed.

Lemma expand_playlist_titles W g ch st p u :
  title_cache (expand_playlist W g ch st p) !! u =
  match last_entry_for u (tail (playlist_entries W (clock st) p)) with
  | Some d => Some (title_of_entry u d)
  | None => title_cache st !! u
  end.
Proof.
  unfold expand_playlist, playlist_entries.
  destruct (ytdl_extract W (clock st) ExFull p) as [e|[info|]].
  - by destruct ch.
  - destruct (i_entries info) as [entries|]; [|done]. cbn [default].
    pose proof (get_queue_frame g (tick (emit (EvExtract ExFull p) st))) as (T & _).
    destruct (get_queue g (tick (emit (EvExtract ExFull p) st))) as [q st2].
    cbn [snd] in T. rewrite expand_entries_titles, T. done.
  - done.
Qed.

Lemma expand_pending_titles W g ch pending :
  ∀ st u,
    title_cache (fold_left (expand_playlist W g ch) pending st) !! u =
    match last_entry_for u (appended_entries W (clock st) pending) with
    | Some d => Some (title_of_entry u d)
    | None => title_cache st !! u
    end.
Proof.
  induction pending as [|p ps IH]; intros st u; [done|].
  cbn [fold_left appended_entries]. rewrite IH, last_entry_for_app.
  destruct (expand_playlist_expanded W g ch st st [] p (expanded_refl g st))
    as (_ & -> & _).
  destruct (last_entry_for u (appended_entries W (S (clock st)) ps)); [done|].
  apply expand_playlist_titles.
Qed.

Lemma appended_refs_entries W pending :
  ∀ c, appended_refs W c pending = valid_refs (appended_entries W c pending).
Proof.
  induction pending as [|p ps IH]; intros c; [done|].
  cbn [appended_refs appended_entries]. by rewrite valid_refs_app, IH.
Qed.

(** C3 (as amended).  A playlist handled by [play]: only its first
    resolvable entry is appended before [play] returns, with its metadata
    cached; the query joins the guild's pending playlists, and the
    expansion is handed to a background task.  A drain pass of that task
    over playlists whose resolved entry list starts with a resolvable
    entry: it submits every pending playlist to the resolver, whether or
    not an earlier one raised; it appends the resolvable entries after
    that first one, in order; for each appended reference it caches the
    title, duration and page URL of the last listed entry with that
    reference, and it leaves every other cache entry as it was; it
    schedules a preload for exactly those appended entries that come to
    stand among the first three of the queue; and it leaves the guild's
    pending playlists empty. *)
Theorem C3_playlist_expansion (W : World) (g : Z) (ch : option Z)
    (query : string) (entries : list (option Entry)) (st st2 : State)
    (pending : list string) :
  pending_playlists st2 !! g = Some pending →
  eager_first_all W (clock st2) pending = true →
  let st1 := enqueue_playlist g ch query entries st in
  let st3 := process_pending_playlists W g ch st2 in
  let refs := expansion_refs W (clock st2) pending in
  let listed := appended_entries W (clock st2) pending in
  queue_of g st1 = queue_of g st ++ take 1 (valid_refs entries) ∧
  (∀ d, first_resolvable entries = Some d →
        let u := get_or "" (entry_ref (Some d)) in
        title_cache st1 !! u = Some (title_of_entry u d)) ∧
  pending_playlists st1 !! g =
    Some (default [] (pending_playlists st !! g) ++ [query]) ∧
  (valid_refs entries ≠ [] →
   EvCreateTask (TaskProcessPending g ch) ∈ log st1) ∧
  resolved_playlists (log st3) = resolved_playlists (log st2) ++ pending ∧
  queue_of g st3 = queue_of g st2 ++ refs ∧
  (∀ u, u ∈ refs ↔ is_Some (last_entry_for u listed)) ∧
  (∀ u, title_cache st3 !! u =
        match last_entry_for u listed with
        | Some d => Some (title_of_entry u d)
        | None => title_cache st2 !! u
        end) ∧
  scheduled_preloads (log st3) =
    scheduled_preloads (log st2) ++ take (3 - length (queue_of g st2)) refs ∧
  pending_playlists st3 !! g = Some [].
Proof.
  intros Hp He st1 st3 refs listed.
  destruct (enqueue_playlist_spec g ch query entries st) as (S1 & S2 & S3).
  fold st1 in S1, S2, S3.
  destruct (expand_pending_expanded W g ch st2 pending st2 [] (expanded_refl g st2))
    as ((E1 & E2 & _) & _ & R).
  assert (refs = valid_refs listed) as Hrefs.
  { unfold refs, listed. by rewrite <- appended_refs_entries, appended_refs_eager. }
  rewrite appended_refs_eager in E1, E2 by done. simpl in E1, E2.
  fold refs in E1, E2.
  assert (st3 = set_pending
                  (<[g := []]> (pending_playlists
                                  (fold_left (expand_playlist W g ch) pending st2)))
                  (fold_left (expand_playlist W g ch) pending st2)) as ->.
  { unfold st3, process_pending_playlists. by rewrite Hp. }
  split_and!; try done.
  - intros d Hd u. unfold st1, enqueue_playlist. rewrite Hd. cbv zeta. fold u.
    cbn [emit title_cache].
    match goal with |- context [enqueue g u ?t ?s] =>
      pose proof (enqueue_frame g u t s) as (_ & T & _) end.
    rewrite T. by rewrite lookup_insert_eq.
  - intros Hne. rewrite S3. pose proof (first_resolvable_refs entries) as Hf.
    destruct (first_resolvable entries); [|done].
    apply elem_of_app. right. apply list_elem_of_here.
  - intros u. rewrite Hrefs. symmetry. apply last_entry_for_valid.
  - intros u. cbn [set_pending title_cache]. apply expand_pending_titles.
  - simpl. by rewrite lookup_insert_eq.
Qed.

Lemma C3_playlist_expansion_witness :
  ∃ st2, play world_playlist in_guild_one playlist_query (guild_busy 1 init)
           = Some st2 ∧
         pending_playlists st2 !! 1 = Some [playlist_query] ∧
         eager_first_all world_playlist (clock st2) [playlist_query] = true ∧
         queue_of 1 st2 = ["v0"] ∧
         let st3 := process_pending_playlists world_playlist 1 (Some 9) st2 in
         queue_of 1 st3 = ["v0"; "v1"; "v2"; "v3"] ∧
         title_cache st3 !! "v2" = Some (mkTitleInfo "Two" 0 (Some "v2")).
Proof.
  eexists. split; [vm_compute; reflexivity|].
  split; [vm_compute; reflexivity|]. split; [vm_compute; reflexivity|].
  split; [vm_compute; reflexivity|].
  match goal with |- let _ := process_pending_playlists _ _ _ ?s in _ =>
    pose proof (C3_playlist_expansion world_playlist 1 (Some 9) playlist_query []
                  init s [playlist_query]) as H end.
  destruct H as (_ & _ & _ & _ & _ & Hq & _ & Ht & _); [vm_compute; reflexivity..|].
  split.
  - etrans; [exact Hq|]. vm_compute. reflexivity.
  - etrans; [exact (Ht "v2")|]. vm_compute. reflexivity.
Defined.

(** C3, as stated, fails.  Guild 1 is playing when a playlist of four
    tracks is requested: [play] enqueues the first, the drain pass appends
    the other three, and only two of these three are scheduled for
    preloading, since the third comes fourth in the queue. *)
Lemma C3_first_three_counterexample :
  ∃ st1,
    play world_playlist in_guild_one playlist_query (guild_busy 1 init) = Some st1 ∧
    queue_of 1 st1 = ["v0"] ∧
    let st2 := process_pending_playlists world_playlist 1 (Some 9) st1 in
    queue_of 1 st2 = ["v0"] ++ ["v1"; "v2"; "v3"] ∧
    scheduled_preloads (log st2) = ["v1"; "v2"] ∧
    scheduled_preloads (log st2) ≠ take 3 ["v1"; "v2"; "v3"].
Proof.
  eexists. split; [vm_compute; reflexivity|].
  split; [vm_compute; reflexivity|].
  split; [vm_compute; reflexivity|].
  split; [vm_compute; reflexivity|].
  vm_compute. discriminate.
Qed.

(* ===================================================================== *)
(** ** Which maps are partitioned by guild *)
(* ===================================================================== *)

Section Isolation.

Implicit Types (g : Z) (st : State) (url : string) (ch : option Z).

Lemma guild_frame_refl g st : guild_frame g st st.
Proof. by intros g' Hg. Qed.

Lemma guild_frame_trans g st1 st2 st3 :
  guild_frame g st1 st2 → guild_frame g st2 st3 → guild_frame g st1 st3.
Proof.
  intros H1 H2 g' Hg. destruct (H1 g' Hg) as [<- <-]. by apply H2.
Qed.

Lemma guild_frame_same g st st' :
  queues st' = queues st → pending_playlists st' = pending_playlists st →
  guild_frame g st st'.
Proof. intros Q P g' Hg. unfold queue_of. by rewrite Q, P. Qed.

Lemma guild_frame_sequencer g st st' :
  sequencer_frame g st st' → guild_frame g st st'.
Proof. intros (_ & Q & _ & P & _) g' Hg. rewrite P. split; [by apply Q|done]. Qed.

Lemma guild_frame_get_queue g st : guild_frame g st (get_queue g st).2.
Proof. apply guild_frame_sequencer, frame_get_queue. Qed.

Lemma guild_frame_enqueue g url entry st : guild_frame g st (enqueue g url entry st).
Proof.
  pose proof (enqueue_frame g url entry st) as (Q & _ & _ & P & _).
  intros g' Hg. rewrite Q, P, decide_False by done. done.
Qed.

Lemma guild_frame_play_next W g ch st st' :
  play_next W g ch st = Some st' → guild_frame g st st'.
Proof.
  intros H. destruct (play_next_total W g ch st) as (st'' & H' & Hf).
  rewrite H in H'. simplify_eq. by apply guild_frame_sequencer.
Qed.

Lemma guild_frame_start_if_idle W g ch st st' :
  start_if_idle W g ch st = Some st' → guild_frame g st st'.
Proof.
  unfold start_if_idle. destruct (negb (is_playing g st)).
  - apply guild_frame_play_next.
  - intros; simplify_eq. apply guild_frame_refl.
Qed.

Lemma search_terms_loop_same W terms :
  ∀ st, queues (search_terms_loop W terms st).2 = queues st ∧
        pending_playlists (search_terms_loop W terms st).2 = pending_playlists st ∧
        voice_clients (search_terms_loop W terms st).2 = voice_clients st.
Proof.
  induction terms as [|t ts IH]; intros st; [done|].
  cbn [search_terms_loop]. cbv zeta.
  set (st1 := tick (emit (EvExtract ExSearch ("ytsearch1:" +:+ t)) st)).
  match goal with |- context [match ?h with Some r => _ | None => _ end] =>
    generalize h end.
  intros [r|]; [done|]. destruct (IH st1) as (-> & -> & ->). done.
Qed.

Lemma refine_phrase_same W query phrase st :
  queues (refine_phrase W query phrase st).2 = queues st ∧
  pending_playlists (refine_phrase W query phrase st).2 = pending_playlists st ∧
  voice_clients (refine_phrase W query phrase st).2 = voice_clients st.
Proof. unfold refine_phrase. by repeat case_match. Qed.

Lemma try_alternative_source_same W query st :
  queues (try_alternative_source W query st).2 = queues st ∧
  pending_playlists (try_alternative_source W query st).2 = pending_playlists st ∧
  voice_clients (try_alternative_source W query st).2 = voice_clients st.
Proof.
  unfold try_alternative_source, extract_song_info.
  destruct (page_hints W (clock st) query) as [[artist title] phrase].
  set (st1 := tick (emit (EvPageHints query) st)).
  pose proof (refine_phrase_same W query phrase st1) as (Q & P & V).
  destruct (refine_phrase W query phrase st1) as [[phrase'|] st2];
    simpl in Q, P, V; [|done].
  destruct (negb (truthy phrase')); [done|].
  match goal with |- context [search_terms_loop W ?t st2] =>
    pose proof (search_terms_loop_same W t st2) as (Q' & P' & V');
    destruct (search_terms_loop W t st2) as [[[u m]|] st3] end;
    simpl in *; by rewrite Q', P', V'.
Qed.

Lemma normalize_query_same W query st :
  queues (normalize_query W query st).2 = queues st ∧
  pending_playlists (normalize_query W query st).2 = pending_playlists st ∧
  voice_clients (normalize_query W query st).2 = voice_clients st.
Proof.
  unfold normalize_query.
  destruct (_ || _); [|by repeat case_match].
  match goal with |- context [try_alternative_source W query ?s] =>
    pose proof (try_alternative_source_same W query s) as (Q & P & V);
    destruct (try_alternative_source W query s) as [[[success alt] msg] st2] end.
  simpl in Q, P, V. destruct success; [done|].
  unfold extract_song_info.
  destruct (page_hints W (clock st2) query) as [[artist title] phrase].
  by destruct (truthy phrase).
Qed.

Lemma guild_frame_enqueue_playlist g ch query entries st :
  guild_frame g st (enqueue_playlist g ch query entries st).
Proof.
  unfold enqueue_playlist. destruct (first_resolvable entries) as [d|]; cbv zeta.
  - eapply guild_frame_trans; [|apply guild_frame_same; done].
    eapply guild_frame_trans; [|apply guild_frame_same; done].
    eapply guild_frame_trans; [|apply guild_frame_enqueue].
    intros g' Hg. simpl. by rewrite lookup_insert_ne.
  - intros g' Hg. simpl. by rewrite lookup_insert_ne.
Qed.

Lemma guild_frame_drm_fallback W g ch query st st' :
  drm_fallback W g ch query st = Some st' → guild_frame g st st'.
Proof.
  unfold drm_fallback.
  pose proof (try_alternative_source_same W query (followup msg_drm_detected st))
    as (Q & P & _).
  destruct (try_alternative_source W query (followup msg_drm_detected st))
    as [[[success alt_url] message] st2]. simpl in Q, P.
  assert (guild_frame g st st2) as F2 by by apply guild_frame_same.
  destruct success.
  2: { intros; simplify_eq. eapply guild_frame_trans; [done|].
       by apply guild_frame_same. }
  destruct (ytdl_extract W (clock st2) ExFull alt_url) as [e|[info|]].
  1,3: intros; simplify_eq; eapply guild_frame_trans; [done|];
       by apply guild_frame_same.
  match goal with |- context [get_queue g ?s] =>
    pose proof (guild_frame_get_queue g s) as F5;
    assert (guild_frame g st2 s) as F4 by (by apply guild_frame_same);
    destruct (get_queue g s) as [q st5] end. simpl in F5.
  cbv beta iota zeta.
  destruct (opt_truthy (py_or (i_webpage_url info) (i_url info))).
  - intros H. apply guild_frame_start_if_idle in H.
    eapply guild_frame_trans; [exact F2|].
    eapply guild_frame_trans; [exact F4|].
    eapply guild_frame_trans; [exact F5|].
    eapply guild_frame_trans; [apply guild_frame_enqueue|exact H].
  - intros; simplify_eq. eapply guild_frame_trans; [exact F2|].
    eapply guild_frame_trans; [exact F4|].
    eapply guild_frame_trans; [exact F5|].
    by apply guild_frame_same.
Qed.

Lemma guild_frame_handle_extract_error W g ch query e st st' :
  handle_extract_error W g ch query e st = Some st' → guild_frame g st st'.
Proof.
  unfold handle_extract_error.
  repeat case_match; try apply guild_frame_drm_fallback;
    intros; simplify_eq; by apply guild_frame_same.
Qed.

Lemma guild_frame_play_resolved W g ch query r st st' :
  play_resolved W g ch query r st = Some st' → guild_frame g st st'.
Proof.
  unfold play_resolved. destruct r as [e|[info|]].
  - apply guild_frame_handle_extract_error.
  - pose proof (guild_frame_get_queue g st) as F5.
    destruct (get_queue g st) as [q st5]. simpl in F5.
    destruct (i_entries info) as [entries|].
    + intros H. apply guild_frame_start_if_idle in H.
      eapply guild_frame_trans; [exact F5|].
      eapply guild_frame_trans; [apply guild_frame_enqueue_playlist|exact H].
    + unfold enqueue_single.
      destruct (opt_truthy (py_or (i_webpage_url info) (i_url info))).
      * cbv zeta. destruct (track_embed _ _) as [embed|msg].
        -- intros H. apply guild_frame_start_if_idle in H.
           eapply guild_frame_trans; [exact F5|].
           eapply guild_frame_trans; [|exact H].
           eapply guild_frame_trans; [apply guild_frame_enqueue|].
           by apply guild_frame_same.
        -- intros; simplify_eq. eapply guild_frame_trans; [exact F5|].
           eapply guild_frame_trans; [apply guild_frame_enqueue|].
           by apply guild_frame_same.
      * intros; simplify_eq. eapply guild_frame_trans; [exact F5|].
        by apply guild_frame_same.
  - intros; simplify_eq. by apply guild_frame_same.
Qed.

Lemma guild_frame_play W i query g st st' :
  in_guild i = Some g → play W i query st = Some st' → guild_frame g st st'.
Proof.
  intros Hg. unfold play. rewrite Hg.
  destruct (negb (in_user_voice i)).
  { intros; simplify_eq. by apply guild_frame_same. }
  cbv zeta.
  assert (guild_frame g st (ensure_connected g (emit EvDefer st))) as F1.
  { apply guild_frame_same; unfold ensure_connected;
      by destruct (voice_clients (emit EvDefer st) !! g). }
  pose proof (normalize_query_same W query (ensure_connected g (emit EvDefer st)))
    as (Q & P & _).
  destruct (normalize_query W query (ensure_connected g (emit EvDefer st)))
    as [[query'|] st2]; simpl in Q, P.
  2: { intros; simplify_eq. eapply guild_frame_trans; [exact F1|].
       by apply guild_frame_same. }
  unfold resolve_flat. intros H. apply guild_frame_play_resolved in H.
  eapply guild_frame_trans; [exact F1|].
  eapply guild_frame_trans; [|exact H].
  apply guild_frame_same; unfold playlist_notice; simpl;
    by destruct (contains "playlist" query || _).
Qed.

Lemma guild_frame_process_pending W g ch st :
  guild_frame g st (process_pending_playlists W g ch st).
Proof.
  unfold process_pending_playlists.
  destruct (pending_playlists st !! g) as [pending|]; [|apply guild_frame_refl].
  destruct (expand_pending_expanded W g ch st pending st [] (expanded_refl g st))
    as ((_ & _ & _ & Q & P & _) & _).
  intros g' Hg. simpl. rewrite lookup_insert_ne, P by done. by split; [apply Q|].
Qed.

Lemma guild_frame_stop g st : guild_frame g st (stop g st).
Proof.
  unfold stop, clear. destruct (voice_clients st !! g); [|by apply guild_frame_same].
  pose proof (guild_frame_get_queue g st) as F.
  pose proof (get_queue_frame g st) as (_ & _ & P & _).
  destruct (get_queue g st) as [q st1]. simpl in *.
  intros g' Hg. destruct (F g' Hg) as [Fq Fp]. simpl.
  unfold queue_of in *. simpl. by rewrite lookup_insert_ne.
Qed.

End Isolation.

(** A queue head found in the audio cache is handed to the player as it
    is cached, whoever stored it: the resolver is not called. *)
Lemma play_next_from_cache W g ch st u rest e :
  is_connected g st = true → is_playing g st = false →
  queue_of g st = u :: rest → audio_cache st !! u = Some e →
  ∃ st', play_next W g ch st = Some st' ∧
         queue_of g st' = rest ∧
         log st' = log st ++ [EvPlay g (a_source e)] ++
                   match ch with
                   | Some c => [EvSend c ("Now playing: " +:+
                                          get_or "Unknown" (i_title (a_info e)))]
                   | None => []
                   end ++ [EvCreateTask (TaskPreloadNext g)].
Proof.
  intros Hconn Hplay Hq Hc.
  unfold play_next. rewrite Hq. cbn [length].
  rewrite play_next_fuel_S, Hconn. cbn [negb].
  rewrite (get_queue_present g st (u :: rest)) by by apply queue_of_cons_present.
  cbn [fst snd]. unfold max_retries. rewrite retry_loop_S, Hc. cbn [fst snd].
  unfold start_playback.
  destruct (popHead_cons g st u rest Hq) as (st2 & -> & Hq2 & _ & _ & _ & V & _ & L).
  unfold vc_play, is_connected, is_playing in *. rewrite V.
  destruct (voice_clients st !! g) as [vc|]; [|done].
  rewrite Hconn, Hplay. cbn [andb negb].
  eexists. split; [done|]. split.
  - change (queue_of g (emit ?e ?s)) with (queue_of g s).
    rewrite queue_of_send.
    change (queue_of g (emit ?e (set_voice ?v ?s))) with (queue_of g s).
    by rewrite Hq2, decide_True.
  - destruct ch; simpl; rewrite L, <- ?app_assoc; done.
Qed.

(** C2 (as amended).  The queue map and the pending-playlist map are
    partitioned by guild: the sequencer, the play command, the playlist
    expansion and the stop command serving guild [g] leave the queue and
    the pending playlists of every other guild [g'] as they were.  The
    audio cache is keyed by the track reference alone: an entry found
    under the reference at the head of the queue of [g'] is played for
    [g'] without any resolver call, whichever guild was served when it
    was stored. *)
Theorem C2_guild_keyed_maps (W : World) (g g' : Z) :
  g' ≠ g →
  (∀ ch st st', play_next W g ch st = Some st' →
     queue_of g' st' = queue_of g' st ∧
     pending_playlists st' !! g' = pending_playlists st !! g') ∧
  (∀ i query st st', in_guild i = Some g → play W i query st = Some st' →
     queue_of g' st' = queue_of g' st ∧
     pending_playlists st' !! g' = pending_playlists st !! g') ∧
  (∀ ch st,
     queue_of g' (process_pending_playlists W g ch st) = queue_of g' st ∧
     pending_playlists (process_pending_playlists W g ch st) !! g' =
       pending_playlists st !! g') ∧
  (∀ st, queue_of g' (stop g st) = queue_of g' st ∧
         pending_playlists (stop g st) !! g' = pending_playlists st !! g') ∧
  (∀ ch st u rest e,
     is_connected g' st = true → is_playing g' st = false →
     queue_of g' st = u :: rest → audio_cache st !! u = Some e →
     ∃ st', play_next W g' ch st = Some st' ∧
            log st' = log st ++ [EvPlay g' (a_source e)] ++
                      match ch with
                      | Some c => [EvSend c ("Now playing: " +:+
                                             get_or "Unknown" (i_title (a_info e)))]
                      | None => []
                      end ++ [EvCreateTask (TaskPreloadNext g')]).
Proof.
  intros Hne. split_and!.
  - intros ch st st' H. by apply (guild_frame_play_next W g ch st st' H).
  - intros i query st st' Hi H. by apply (guild_frame_play W i query g st st' Hi H).
  - intros ch st. by apply (guild_frame_process_pending W g ch st).
  - intros st. by apply (guild_frame_stop g st).
  - intros ch st u rest e H1 H2 H3 H4.
    destruct (play_next_from_cache W g' ch st u rest e H1 H2 H3 H4)
      as (st' & Hp & _ & Hl).
    by exists st'.
Qed.

Lemma C2_guild_keyed_maps_witness :
  (2 : Z) ≠ 1 ∧
  ∃ st1, play_next world_titles 1 (Some 9) two_guilds = Some st1 ∧
         queue_of 2 st1 = [shared_ref].
Proof.
  split; [done|]. eexists. split; [vm_compute; reflexivity|].
  match goal with |- queue_of 2 ?s = _ =>
    destruct (C2_guild_keyed_maps world_titles 1 2 ltac:(done)) as (H & _);
    destruct (H (Some 9) two_guilds s ltac:(vm_compute; reflexivity)) as (Hq & _)
  end.
  etrans; [exact Hq|]. reflexivity.
Defined.

(** C2, as stated, fails for the two caches.  Guilds 1 and 2 have the same
    reference queued.  Serving guild 1 resolves it and stores the audio and
    title entries; serving guild 2 then plays that very entry, without a
    resolver call of its own; and a later play command in guild 2
    replaces the title entry that was written while serving guild 1. *)
Lemma C2_caches_shared_counterexample :
  ∃ st1 st2 st3 e,
    play_next world_titles 1 (Some 9) two_guilds = Some st1 ∧
    audio_cache two_guilds !! shared_ref = None ∧
    audio_cache st1 !! shared_ref = Some e ∧
    title_cache st1 !! shared_ref = Some (mkTitleInfo "Preloaded title" 100 None) ∧
    play_next world_titles 2 (Some 8) st1 = Some st2 ∧
    log st2 = log st1 ++ [EvPlay 2 (a_source e);
                          EvSend 8 "Now playing: Preloaded title";
                          EvCreateTask (TaskPreloadNext 2)] ∧
    play world_titles in_guild_two shared_ref st2 = Some st3 ∧
    title_cache st3 !! shared_ref =
      Some (mkTitleInfo "Listed title" 100 (Some shared_ref)).
Proof.
  do 4 eexists.
  split; [vm_compute; reflexivity|]. split; [vm_compute; reflexivity|].
  split; [vm_compute; reflexivity|]. split; [vm_compute; reflexivity|].
  split; [vm_compute; reflexivity|]. split; [vm_compute; reflexivity|].
  split; [vm_compute; reflexivity|]. vm_compute; reflexivity.
Qed.

(* ===================================================================== *)
(** ** Properties of the command surface *)
(* ===================================================================== *)


(** The resolver error of [play] reaches that handler with the query as
    normalized. *)
Lemma play_resolved_raises W g ch query e st :
  play_resolved W g ch query (Raises e) st =
  handle_extract_error W g ch query e st.
Proof. reflexivity. Qed.

(** First match wins: a text that names both DRM and unavailability is a
    DRM failure, and the matching is blind to case. *)
Example classify_first_match :
  classify "ERROR: [DRM] Video unavailable" = Some DrmProtected ∧
  classify "Video unavailable: geo restriction" = Some Unavailable ∧
  classify "Sign in to confirm your age" = Some AgeRestricted ∧
  classify "HTTP Error 403: Forbidden" = None.
Proof. vm_compute. done. Qed.

(** The lower case of U+212A is [k]: a text spelt with it names a
    network error. *)
Example classify_kelvin_sign :
  classify ("NETWOR" +:+ of_bytes [226; 132; 170]%nat +:+ " ERROR") = Some Network.
Proof. vm_compute. reflexivity. Qed.



Lemma up_next_fields_cons tc u (rest : list string) :
  up_next_fields tc (u :: rest) =
  mkField "Up Next" (join nl (queue_text tc (u :: rest))) false ::
  if (10 <? length (u :: rest))%nat
  then [mkField "And more..."
          ("*" +:+ str_nat (length (u :: rest) - 10) +:+ " more songs in queue*")
          false]
  else [].
Proof. reflexivity. Qed.

Lemma queue_embed_fields now g st :
  em_fields (queue_embed now g st).1 =
  now :: up_next_fields (title_cache st) (queue_of g st).
Proof.
  unfold queue_embed. pose proof (get_queue_fst g st) as Hq.
  pose proof (get_queue_frame g st) as (T & _).
  destruct (get_queue g st) as [q st1]. simpl in *. by rewrite Hq, T.
Qed.



(** The command, in a guild: the reply is deferred and the card sent,
    and nothing else is done. *)
Lemma queue_in_guild now i g st :
  in_guild i = Some g →
  ∃ card st',
    queue now i st = st' ∧
    log st' = log st ++ [EvDefer; EvFollowupEmbed card] ∧
    em_fields card = now :: up_next_fields (title_cache st) (queue_of g st) ∧
    (∀ g', queue_of g' st' = queue_of g' st) ∧
    title_cache st' = title_cache st ∧ audio_cache st' = audio_cache st ∧
    pending_playlists st' = pending_playlists st ∧
    voice_clients st' = voice_clients st ∧ clock st' = clock st ∧
    em_title card = g_note +:+ " Music Queue".
Proof.
  intros Hg. unfold queue. rewrite Hg.
  pose proof (queue_embed_fields now g (emit EvDefer st)) as Hf.
  assert (em_title (queue_embed now g (emit EvDefer st)).1 =
          g_note +:+ " Music Queue") as Ht.
  { unfold queue_embed. by destruct (get_queue g (emit EvDefer st)). }
  assert ((queue_embed now g (emit EvDefer st)).2 = (get_queue g (emit EvDefer st)).2)
    as Hs.
  { unfold queue_embed. by destruct (get_queue g (emit EvDefer st)). }
  pose proof (get_queue_frame g (emit EvDefer st)) as (T & A & P & V & C & L).
  cbv zeta in T, A, P, V, C, L.
  destruct (queue_embed now g (emit EvDefer st)) as [card st1].
  cbn [fst snd] in Hf, Hs, Ht. subst st1.
  exists card. eexists. split; [reflexivity|]. split_and!; [..|exact Ht].
  - cbn [emit log]. rewrite L. cbn [emit log]. by rewrite <- app_assoc.
  - exact Hf.
  - intros g'. change (queue_of g' (emit ?e ?s)) with (queue_of g' s).
    by rewrite get_queue_queue_of.
  - cbn [emit title_cache]. by rewrite T.
  - cbn [emit audio_cache]. by rewrite A.
  - cbn [emit pending_playlists]. by rewrite P.
  - cbn [emit voice_clients]. by rewrite V.
  - cbn [emit clock]. by rewrite C.
Qed.




Lemma truthy_ne_empty (s : string) : truthy s = true ↔ s ≠ "".
Proof. destruct s; simpl; split; done. Qed.

Lemma phrase_needs_refetch_iff (phrase : string) :
  phrase_needs_refetch phrase = true ↔ phrase = "" ∨ phrase = adventure_phrase.
Proof.
  unfold phrase_needs_refetch. rewrite orb_true_iff, negb_true_iff.
  rewrite String.eqb_eq. destruct phrase; simpl.
  - split; intros _; by left.
  - split; (intros [?|?]; [done|by right]).
Qed.

(** C9.  In the alternative-source search, for a query that contains
    [spotify.com/track/]: the track page is fetched again exactly when the
    extracted phrase is empty or is the literal phrase of line 159, and
    the page title, when found, then replaces the phrase.  For every other
    non-empty phrase, whatever the query, nothing is fetched and the
    search variants are built from the phrase as extracted. *)
Theorem C9_refetch_trigger (W : World) (query phrase : string) (st : State) :
  (contains "spotify.com/track/" query = true →
     (refetch_triggered query phrase = true ↔
        phrase = "" ∨ phrase = adventure_phrase) ∧
     (phrase = "" ∨ phrase = adventure_phrase →
        refine_phrase W query phrase st =
          (match spotify_page_title W (clock st) (track_page query) with
           | FetchRaises => None
           | FetchReturns (Some t) => Some t
           | FetchReturns None => Some phrase
           end,
           tick (emit (EvHttpGet (track_page query)) st)))) ∧
  (phrase ≠ "" → phrase ≠ adventure_phrase →
     refetch_triggered query phrase = false ∧
     refine_phrase W query phrase st = (Some phrase, st) ∧
     ∀ artist title, page_hints W (clock st) query = (artist, title, phrase) →
       try_alternative_source W query st =
         match search_terms_loop W
                 [phrase +:+ " official audio"; phrase +:+ " lyrics"; phrase]
                 (tick (emit (EvPageHints query) st)) with
         | (Some (url, message), st3) => ((true, url, message), st3)
         | (None, st3) => ((false, "", "Could not find an alternative source"), st3)
         end).
Proof.
  split.
  - intros Hq.
    assert (refetch_triggered query phrase = true ↔
            phrase = "" ∨ phrase = adventure_phrase) as Hiff.
    { unfold refetch_triggered. rewrite Hq, andb_true_r.
      apply phrase_needs_refetch_iff. }
    split; [done|]. intros Hp. apply Hiff in Hp.
    unfold refine_phrase. rewrite Hp. fold (track_page query).
    by destruct (spotify_page_title W (clock st) (track_page query)) as [|[t|]].
  - intros H1 H2.
    assert (refetch_triggered query phrase = false) as Hno.
    { unfold refetch_triggered.
      destruct (phrase_needs_refetch phrase) eqn:E; [|done].
      apply phrase_needs_refetch_iff in E. by destruct E. }
    assert (refine_phrase W query phrase st = (Some phrase, st)) as Hr.
    { unfold refine_phrase. by rewrite Hno. }
    split_and!; [done..|]. intros artist title Hh.
    unfold try_alternative_source, extract_song_info. rewrite Hh.
    unfold refine_phrase. rewrite Hno.
    apply truthy_ne_empty in H1. rewrite H1. cbn [negb]. done.
Qed.

Lemma C9_refetch_trigger_witness :
  contains "spotify.com/track/" spotify_query = true ∧
  refine_phrase (world_scrape adventure_phrase (Some "Come Along With Me"))
    spotify_query adventure_phrase init =
  (Some "Come Along With Me",
   tick (emit (EvHttpGet "https://open.spotify.com/track/4uLU6") init)) ∧
  refine_phrase (world_scrape "Artist - Song audio" (Some "Come Along With Me"))
    spotify_query "Artist - Song audio" init =
  (Some "Artist - Song audio", init).
Proof.
  split; [reflexivity|].
  destruct (C9_refetch_trigger
              (world_scrape adventure_phrase (Some "Come Along With Me"))
              spotify_query adventure_phrase init) as [H _].
  destruct (H eq_refl) as [_ H'].
  split; [exact (H' (or_intror eq_refl))|].
  destruct (C9_refetch_trigger
              (world_scrape "Artist - Song audio" (Some "Come Along With Me"))
              spotify_query "Artist - Song audio" init) as [_ H2].
  destruct (H2 ltac:(discriminate) ltac:(discriminate)) as (_ & H3 & _).
  exact H3.
Defined.

(* ===================================================================== *)
(** ** Splitting at a one-character separator *)
(* ===================================================================== *)

Section SplitChar.

Variable c : ascii.

Lemma append_cons x (a b : string) : String x a +:+ b = String x (a +:+ b).
Proof. reflexivity. Qed.

Lemma append_empty_r (a : string) : a +:+ "" = a.
Proof. induction a as [|x a IH]; [done|]. by rewrite append_cons, IH. Qed.

Lemma append_assoc (a b d : string) : (a +:+ b) +:+ d = a +:+ b +:+ d.
Proof. induction a as [|x a IH]; [done|]. by rewrite !append_cons, IH. Qed.

Lemma rev_app_append (s1 s2 t : string) :
  String.rev_app s1 s2 +:+ t = String.rev_app s1 (s2 +:+ t).
Proof.
  revert s2. induction s1 as [|x s1 IH]; intros s2; [done|].
  simpl. by rewrite IH.
Qed.

Lemma rev_snoc x (cur s : string) :
  String.rev (String x cur) +:+ s = String.rev cur +:+ String x s.
Proof. unfold String.rev. simpl. by rewrite !rev_app_append. Qed.

Lemma startswith_sep1 x (s : string) :
  startswith (sep1 c) (String x s) = Ascii.eqb c x.
Proof. unfold sep1. simpl. by destruct (Ascii.eqb c x). Qed.

Lemma contains_sep1_cons x (s : string) :
  contains (sep1 c) (String x s) = Ascii.eqb c x || contains (sep1 c) s.
Proof.
  change (contains (sep1 c) (String x s))
    with (startswith (sep1 c) (String x s) || contains (sep1 c) s).
  by rewrite startswith_sep1.
Qed.

Lemma contains_sep1_app (a b : string) :
  contains (sep1 c) (a +:+ b) = contains (sep1 c) a || contains (sep1 c) b.
Proof.
  induction a as [|x a IH]; [done|].
  by rewrite append_cons, !contains_sep1_cons, IH, orb_assoc.
Qed.

Lemma split_go_cons x cur (s : string) :
  split_go (sep1 c) 0 cur (String x s) =
  if Ascii.eqb c x then String.rev cur :: split_go (sep1 c) 0 "" s
  else split_go (sep1 c) 0 (String x cur) s.
Proof.
  change (split_go (sep1 c) 0 cur (String x s))
    with (if startswith (sep1 c) (String x s)
          then String.rev cur :: split_go (sep1 c) 0 "" s
          else split_go (sep1 c) 0 (String x cur) s).
  by rewrite startswith_sep1.
Qed.

Lemma split_go_nonempty (sep : string) k cur (s : string) :
  split_go sep k cur s ≠ [].
Proof.
  revert k cur. induction s as [|x s IH]; intros k cur; simpl; [done|].
  destruct k; [|apply IH]. destruct (startswith sep (String x s)); [done|apply IH].
Qed.

(** A string without the separator is a single piece. *)
Lemma split_go_no_sep (s : string) :
  contains (sep1 c) s = false →
  ∀ cur, split_go (sep1 c) 0 cur s = [String.rev cur +:+ s].
Proof.
  induction s as [|x s IH]; intros Hc cur.
  - simpl. by rewrite append_empty_r.
  - rewrite contains_sep1_cons in Hc. apply orb_false_iff in Hc as [Hx Hs].
    rewrite split_go_cons, Hx, IH by done. by rewrite rev_snoc.
Qed.

(** The first separator ends the first piece. *)
Lemma split_go_first (a b : string) :
  contains (sep1 c) a = false →
  ∀ cur, split_go (sep1 c) 0 cur (a +:+ String c b) =
         (String.rev cur +:+ a) :: split_go (sep1 c) 0 "" b.
Proof.
  induction a as [|x a IH]; intros Hc cur.
  - change ("" +:+ String c b) with (String c b).
    by rewrite split_go_cons, Ascii.eqb_refl, append_empty_r.
  - rewrite contains_sep1_cons in Hc. apply orb_false_iff in Hc as [Hx Hs].
    rewrite append_cons, split_go_cons, Hx, IH by done. by rewrite rev_snoc.
Qed.

Lemma last_piece_cons (x : string) (l : list string) :
  l ≠ [] → last_piece (x :: l) = last_piece l.
Proof. by destruct l. Qed.

(** The last piece is what follows the last separator. *)
Lemma split_go_last (a b : string) :
  ∀ cur, last_piece (split_go (sep1 c) 0 cur (a +:+ String c b)) =
         last_piece (split_go (sep1 c) 0 "" b).
Proof.
  induction a as [|x a IH]; intros cur.
  - change ("" +:+ String c b) with (String c b).
    rewrite split_go_cons, Ascii.eqb_refl.
    apply last_piece_cons, split_go_nonempty.
  - rewrite append_cons, split_go_cons. destruct (Ascii.eqb c x).
    + rewrite last_piece_cons by apply split_go_nonempty. apply IH.
    + apply IH.
Qed.

End SplitChar.

(** The identifier [play] reads off a shortened link. *)
Lemma video_id_of_short_link (video_id : string) (params : option string) :
  contains "/" video_id = false → contains "?" video_id = false →
  (∀ p, params = Some p → contains "/" p = false) →
  video_id_of (short_link video_id params) = video_id.
Proof.
  intros Hs Hq Hp. unfold video_id_of, split.
  set (rest := match params with Some p => "?" +:+ p | None => "" end).
  change (short_link video_id params)
    with ("https://youtu.be" +:+ String "/" (video_id +:+ rest)).
  change "/" with (sep1 "/") in *. change "?" with (sep1 "?") in *.
  rewrite split_go_last.
  assert (contains (sep1 "/") (video_id +:+ rest) = false) as Hrest.
  { rewrite contains_sep1_app, Hs. unfold rest. destruct params as [p|]; [|done].
    change (sep1 "?" +:+ p) with (String "?" p).
    rewrite contains_sep1_cons, (Hp p eq_refl). reflexivity. }
  rewrite (split_go_no_sep _ _ Hrest).
  change (last_piece [String.rev "" +:+ video_id +:+ rest]) with (video_id +:+ rest).
  unfold rest. destruct params as [p|].
  - change (sep1 "?" +:+ p) with (String "?" p).
    rewrite split_go_first by done. reflexivity.
  - rewrite append_empty_r, split_go_no_sep by done. reflexivity.
Qed.

(** C8 (as amended).  A shortened video link [https://youtu.be/<id>],
    with or without query parameters, whose identifier holds no ['/'] or
    ['?'], whose parameters hold no ['/'], and which names neither
    [spotify.com] nor [music.apple.com]: the query is rewritten to the
    canonical long form of [<id>] without any message or external call,
    and it is with the canonical form that [play] calls the resolver. *)
Theorem C8_short_link_normalized (W : World) (video_id : string)
    (params : option string) (st : State) :
  contains "/" video_id = false → contains "?" video_id = false →
  (∀ p, params = Some p → contains "/" p = false) →
  contains "spotify.com" (lower (short_link video_id params)) = false →
  contains "music.apple.com" (lower (short_link video_id params)) = false →
  normalize_query W (short_link video_id params) st =
    (Some (canonical_link video_id), st) ∧
  ∀ i g, in_guild i = Some g → in_user_voice i = true →
    let st1 := playlist_notice (short_link video_id params)
                 (ensure_connected g (emit EvDefer st)) in
    play W i (short_link video_id params) st =
      play_resolved W g (in_channel i) (canonical_link video_id)
        (ytdl_extract W (clock st1) ExFlat (canonical_link video_id))
        (tick (emit (EvExtract ExFlat (canonical_link video_id)) st1)).
Proof.
  intros Hs Hq Hp Hspot Happle.
  assert (∀ st', normalize_query W (short_link video_id params) st' =
                 (Some (canonical_link video_id), st')) as Hn.
  { intros st'. unfold normalize_query. rewrite Hspot, Happle. cbn [orb].
    assert (startswith "http://" (short_link video_id params)
            || startswith "https://" (short_link video_id params) = true) as ->
      by reflexivity.
    cbn [negb].
    assert (contains "youtu.be" (short_link video_id params) = true) as ->
      by reflexivity.
    by rewrite video_id_of_short_link. }
  split; [apply Hn|]. intros i g Hg Hv st1.
  unfold play. rewrite Hg, Hv. cbn [negb]. cbv zeta. by rewrite Hn.
Qed.

Lemma C8_short_link_normalized_witness :
  contains "/" "abc" = false ∧ contains "?" "abc" = false ∧
  short_link "abc" (Some "x=1") = "https://youtu.be/abc?x=1" ∧
  normalize_query world_titles "https://youtu.be/abc?x=1" init =
    (Some "https://www.youtube.com/watch?v=abc", init).
Proof.
  split; [reflexivity|]. split; [reflexivity|]. split; [reflexivity|].
  eapply proj1, (C8_short_link_normalized world_titles "abc" (Some "x=1") init);
    try reflexivity.
  intros p [= <-]. reflexivity.
Defined.

(** C8, as stated, fails.  A shortened link whose parameters name
    [spotify.com] is taken for a streaming-service link: [play] looks for an
    alternative source, finds no phrase to search for, replies and
    returns; the resolver is never called, and the canonical form is never
    built. *)
Lemma C8_streaming_gate_counterexample :
  "https://youtu.be/abc?x=spotify.com" = short_link "abc" (Some "x=spotify.com") ∧
  (normalize_query world_titles "https://youtu.be/abc?x=spotify.com" init).1 = None ∧
  ∃ st', play world_titles in_guild_one "https://youtu.be/abc?x=spotify.com" init
           = Some st' ∧
         resolver_queries (log st') = [] ∧
         log st' =
           [EvDefer; EvConnect 1;
            EvFollowup (g_link +:+
                        " Processing link... Searching for alternative source...");
            EvPageHints "https://youtu.be/abc?x=spotify.com";
            EvPageHints "https://youtu.be/abc?x=spotify.com";
            EvFollowup (g_cross +:+ " Could not extract song information.")].
Proof.
  split; [reflexivity|]. split; [vm_compute; reflexivity|].
  eexists. split; [vm_compute; reflexivity|].
  split; vm_compute; reflexivity.
Qed.

(** The identifier is read off the last ['/'] of the whole query, so a
    ['/'] among the parameters displaces it. *)
Example video_id_of_slash_in_params :
  video_id_of "https://youtu.be/abc?x=a/b" = "b" ∧
  (normalize_query world_titles "https://youtu.be/abc?x=a/b" init).1 =
    Some "https://www.youtube.com/watch?v=b".
Proof. split; vm_compute; reflexivity. Qed.

(* ===================================================================== *)
(** ** A proof rule for the sequencer *)
(* ===================================================================== *)

(** To show that every run of [play_next] from a state satisfying [I]
    ends in a state related to it by [R], it is enough to look at the
    steps of the run one by one and at the three places it returns from. *)
Section SequencerRule.

Variables (W : World) (g : Z) (ch : option Z).
Variable I : State → Prop.
Variable R : State → State → Prop.

Hypothesis H_get_queue : ∀ st, step_ok I R st (get_queue g st).2.
Hypothesis H_preload : ∀ url st, step_ok I R st (preload_song W url st).2.
Hypothesis H_pop : ∀ st, step_ok I R st (popHead g st).2.
Hypothesis H_send : ∀ msg st, step_ok I R st (send ch msg st).
Hypothesis H_sleep : ∀ st, step_ok I R st (emit (EvSleep 1) st).
Hypothesis H_return :
  ∀ st, I st → is_connected g st = false ∨ queue_of g st = [] → R st st.
Hypothesis H_started :
  ∀ st src st3 msg, I st → vc_play g src st = Some st3 →
    R st (emit (EvCreateTask (TaskPreloadNext g)) (send ch msg st3)).

(** The recursive call [k] is already known to obey the rule. *)
Let obeys (k : State → option State) : Prop :=
  ∀ s f, I s → k s = Some f → R s f.

Lemma rule_play_next_except k msg st f :
  obeys k → I st → play_next_except k g ch msg st = Some f → R st f.
Proof.
  intros Hk HI. unfold play_next_except.
  destruct (H_send ("Error playing song: " +:+ msg) st HI) as [HI1 HR1].
  destruct (queue_of g (send ch _ st)) as [|u rest] eqn:Hq.
  - intros [= <-]. apply HR1, H_return; [done|by right].
  - intros Hf. destruct (H_pop (send ch ("Error playing song: " +:+ msg) st) HI1)
      as [HI2 HR2].
    apply HR1, HR2. by apply Hk.
Qed.

Lemma rule_on_exception k retry n' cached st f :
  obeys k →
  (n' ≠ O → ∀ c s f', I s → retry c s = Some f' → R s f') →
  I st → on_exception k retry n' g ch cached st = Some f → R st f.
Proof.
  intros Hk Hretry HI. unfold on_exception. destruct n' as [|n'].
  - destruct (H_send msg_failed_attempts st HI) as [HI1 HR1].
    destruct (H_pop (send ch msg_failed_attempts st) HI1) as [HI2 HR2].
    destruct (popHead g (send ch msg_failed_attempts st)) as [[r|] st2];
      simpl in HI2, HR2; intros Hf; apply HR1, HR2.
    + by apply Hk.
    + by eapply rule_play_next_except.
  - destruct (H_sleep st HI) as [HI1 HR1]. intros Hf.
    apply HR1. by eapply Hretry.
Qed.

(** One turn of the loop, given the rule for the turns that follow. *)
Lemma rule_loop_turn k retry n' url cached st f :
  obeys k →
  (n' ≠ O → ∀ c s f', I s → retry c s = Some f' → R s f') →
  I st →
  (let r := match cached with
            | Some c => (Some c, st)
            | None => preload_song W url st
            end in
   match r.1 with
   | None => on_exception k retry n' g ch r.1 r.2
   | Some data =>
       match start_playback g ch data r.2 with
       | inl playing => Some playing
       | inr raised => on_exception k retry n' g ch r.1 raised
       end
   end) = Some f →
  R st f.
Proof.
  intros Hk Hretry HI. cbv zeta.
  assert (∃ c1 s1, (match cached with
                    | Some c => (Some c, st)
                    | None => preload_song W url st
                    end) = (c1, s1) ∧ I s1 ∧ ∀ f', R s1 f' → R st f')
    as (c1 & s1 & -> & HI1 & HR1).
  { destruct cached as [c|]; [by exists (Some c), st|].
    destruct (H_preload url st HI) as [? ?].
    destruct (preload_song W url st) as [c1 s1]. by exists c1, s1. }
  cbn [fst snd]. destruct c1 as [data|].
  - unfold start_playback.
    destruct (H_pop s1 HI1) as [HI2 HR2].
    destruct (popHead g s1) as [[r|] s2]; simpl in HI2, HR2.
    + destruct (vc_play g (a_source data) s2) as [s3|] eqn:Hv.
      * intros [= <-]. apply HR1, HR2. by eapply H_started.
      * intros Hf. apply HR1, HR2. by eapply rule_on_exception.
    + intros Hf. apply HR1, HR2. by eapply rule_on_exception.
  - intros Hf. apply HR1. by eapply rule_on_exception.
Qed.

Lemma rule_retry_loop k n url :
  obeys k →
  ∀ cached st f, I st → retry_loop W k (S n) g ch url cached st = Some f → R st f.
Proof.
  intros Hk. induction n as [|n IH]; intros cached st f HI; rewrite retry_loop_S;
    intros Hf; eapply rule_loop_turn; try exact Hf; try done.
Qed.

Lemma rule_play_next_fuel fuel :
  ∀ st f, I st → play_next_fuel fuel W g ch st = Some f → R st f.
Proof.
  induction fuel as [|fuel IH]; intros st f HI; [done|].
  rewrite play_next_fuel_S.
  destruct (is_connected g st) eqn:Hc; cbn [negb].
  2: { intros [= <-]. apply H_return; [done|by left]. }
  destruct (H_get_queue st HI) as [HI1 HR1].
  pose proof (get_queue_queue_of g g st) as Hqq.
  rewrite get_queue_fst.
  destruct (queue_of g st) as [|u rest] eqn:Hq.
  - intros [= <-]. apply HR1.
    destruct (H_send "Queue finished!" _ HI1) as [HI2 HR2].
    apply HR2, H_return; [done|]. right. by rewrite queue_of_send.
  - intros Hf. apply HR1. unfold max_retries in Hf.
    eapply (rule_retry_loop (play_next_fuel fuel W g ch)); [|done|exact Hf].
    intros s f' Hs Hk. by apply IH.
Qed.

(** The rule. *)
Lemma play_next_rule st f :
  I st → play_next W g ch st = Some f → R st f.
Proof. apply rule_play_next_fuel. Qed.

End SequencerRule.

(* ===================================================================== *)
(** ** Further properties of the sequencer *)
(* ===================================================================== *)

(** X1.  The sequencer and the completion callback always return.  The
    queue of the guild they serve is left as a final part of what it was,
    so nothing is ever inserted or reordered; the queues of the other
    guilds and all pending playlists are as before, and the trace is only
    extended. *)
Theorem X1_sequencer_returns (W : World) (g : Z) (ch : option Z) (error : bool)
    (st : State) :
  (∃ st', play_next W g ch st = Some st' ∧
          queue_of g st' `suffix_of` queue_of g st ∧
          (∀ g', g' ≠ g → queue_of g' st' = queue_of g' st) ∧
          pending_playlists st' = pending_playlists st ∧
          log st `prefix_of` log st') ∧
  (∃ st', handle_playback_error W error g ch st = Some st' ∧
          queue_of g st' `suffix_of` queue_of g st ∧
          (∀ g', g' ≠ g → queue_of g' st' = queue_of g' st) ∧
          pending_playlists st' = pending_playlists st ∧
          log st `prefix_of` log st').
Proof.
  split.
  - destruct (play_next_total W g ch st) as (st' & H & Q & O & _ & P & L).
    by exists st'.
  - unfold handle_playback_error.
    set (st1 := if error then send ch _ st else st).
    assert (sequencer_frame g st st1) as F1.
    { unfold st1. destruct error; [apply frame_send|apply sequencer_frame_refl]. }
    destruct (play_next_total W g ch st1) as (st' & H & F2).
    destruct (sequencer_frame_trans g st st1 st' F1 F2) as (Q & O & _ & P & L).
    by exists st'.
Qed.

Lemma played_app l1 l2 : played (l1 ++ l2) = played l1 ++ played l2.
Proof. unfold played. by rewrite omap_app. Qed.

Lemma preload_song_played W url st :
  played (log (preload_song W url st).2) = played (log st).
Proof.
  preload_cases; rewrite ?played_app; simpl; by rewrite ?app_nil_r.
Qed.

Lemma preload_song_voice W url st :
  voice_clients (preload_song W url st).2 = voice_clients st.
Proof.
  pose proof (preload_song_in_frame ExSingle W url st) as H. cbv zeta in H.
  by destruct H as (_ & _ & V & _).
Qed.

Lemma popHead_same g st :
  title_cache (popHead g st).2 = title_cache st ∧
  audio_cache (popHead g st).2 = audio_cache st ∧
  voice_clients (popHead g st).2 = voice_clients st ∧
  log (popHead g st).2 = log st.
Proof.
  destruct (queue_of g st) as [|u rest] eqn:Hq.
  - by destruct (popHead_nil g st Hq) as (st' & -> & _ & T & A & _ & V & _ & L).
  - by destruct (popHead_cons g st u rest Hq)
      as (st' & -> & _ & T & A & _ & V & _ & L).
Qed.

Lemma vc_play_busy g src st : busy g st → vc_play g src st = None.
Proof.
  unfold busy, is_connected, is_playing, vc_play.
  destruct (voice_clients st !! g) as [vc|]; [|done].
  intros [-> ->]. done.
Qed.

Lemma busy_same_voice g st st' :
  voice_clients st' = voice_clients st → busy g st → busy g st'.
Proof. unfold busy, is_connected, is_playing. by intros ->. Qed.

(** X3.  When the sequencer runs while the player of the guild is already
    playing, the player refuses every stream offered to it: nothing is
    handed over, and each refusal costs the queue more entries, until the
    whole queue of the guild has been discarded. *)
Theorem X3_busy_player_drains_queue (W : World) (g : Z) (ch : option Z)
    (st : State) :
  busy g st →
  ∃ st', play_next W g ch st = Some st' ∧ queue_of g st' = [] ∧
         played (log st') = played (log st) ∧ busy g st'.
Proof.
  intros Hb. destruct (play_next_total W g ch st) as (st' & Hp & _).
  exists st'. split; [done|].
  apply (play_next_rule W g ch (busy g)
           (λ s f, queue_of g f = [] ∧ played (log f) = played (log s) ∧ busy g f)
           ) with (st := st); try done.
  - intros s Hs. pose proof (get_queue_frame g s) as (_ & _ & _ & V & _ & L).
    simpl in V, L. split; [by eapply busy_same_voice|]. intros f. by rewrite L.
  - intros url s Hs. split.
    + eapply busy_same_voice; [apply preload_song_voice|done].
    + intros f. by rewrite preload_song_played.
  - intros s Hs. destruct (popHead_same g s) as (_ & _ & V & L).
    split; [by eapply busy_same_voice|]. intros f. by rewrite L.
  - intros msg s Hs. destruct ch as [c|]; [|done]. split; [done|].
    intros f. simpl. by rewrite played_app, app_nil_r.
  - intros s Hs. split; [done|]. intros f. simpl. by rewrite played_app, app_nil_r.
  - intros s Hs [Hd|Hq]; [|done]. destruct Hs as [Hc _]. congruence.
  - intros s src s3 msg Hs Hv. by rewrite vc_play_busy in Hv.
Qed.

Lemma X3_busy_player_drains_queue_witness :
  busy 1 (guild_busy 1 (guild_ready 1 ["a"; "b"; "c"; "d"; "e"] init)) ∧
  ∃ st', play_next world_titles 1 (Some 9)
           (guild_busy 1 (guild_ready 1 ["a"; "b"; "c"; "d"; "e"] init)) = Some st' ∧
         queue_of 1 st' = [].
Proof.
  split; [by split|].
  destruct (X3_busy_player_drains_queue world_titles 1 (Some 9)
              (guild_busy 1 (guild_ready 1 ["a"; "b"; "c"; "d"; "e"] init)))
    as (st' & H1 & H2 & _); [by split|].
  by exists st'.
Defined.

(** X4.  The sequencer never evicts: every entry of the audio cache is
    still there, unchanged, when it returns, and every reference that had
    a title cached still has one. *)
Theorem X4_sequencer_keeps_caches (W : World) (g : Z) (ch : option Z)
    (st : State) :
  ∃ st', play_next W g ch st = Some st' ∧
         (∀ url e, audio_cache st !! url = Some e →
                   audio_cache st' !! url = Some e) ∧
         (∀ url, is_Some (title_cache st !! url) →
                 is_Some (title_cache st' !! url)).
Proof.
  destruct (play_next_total W g ch st) as (st' & Hp & _).
  exists st'. split; [done|].
  apply (play_next_rule W g ch (λ _, True)
           (λ s f, (∀ url e, audio_cache s !! url = Some e →
                             audio_cache f !! url = Some e) ∧
                   (∀ url, is_Some (title_cache s !! url) →
                           is_Some (title_cache f !! url)))) with (st := st);
    try done.
  - intros s _. pose proof (get_queue_frame g s) as (T & A & _). simpl in T, A.
    split; [done|]. intros f. by rewrite T, A.
  - intros url s _. split; [done|]. intros f [HA HT]. split.
    + intros u e Hu. apply HA. revert Hu. preload_cases; try done.
      intros Hu. destruct (decide (url = u)) as [->|Hne]; [congruence|].
      by rewrite lookup_insert_ne.
    + intros u Hu. apply HT. revert Hu. preload_cases; try done;
        intros Hu; (destruct (decide (url = u)) as [->|Hne];
                    [by rewrite lookup_insert_eq|by rewrite lookup_insert_ne]).
  - intros s _. destruct (popHead_same g s) as (T & A & _).
    split; [done|]. intros f. by rewrite T, A.
  - intros msg s _. split; [done|]. by destruct ch.
  - intros s src s3 msg _ Hv. unfold vc_play in Hv.
    repeat case_match; simplify_eq/=; by destruct ch.
Qed.

(** X2.  A queue head that is not cached and resolves at the first
    attempt: one resolver call and one stream construction are made, the
    entry is stored in the audio cache and its title in the title cache,
    exactly the head leaves the queue, its stream is handed to the idle
    player, the channel is told the title, and the preloading of what
    follows is scheduled. *)
Theorem X2_head_resolves_and_plays (W : World) (g : Z) (ch : option Z)
    (st : State) (u : string) (rest : list string) (info : Info)
    (audio_url : string) (src : nat) :
  is_connected g st = true → is_playing g st = false →
  queue_of g st = u :: rest → audio_cache st !! u = None →
  ytdl_extract W (clock st) ExSingle u = Returns (Some info) →
  select_audio_url info = HaveUrl audio_url →
  ffmpeg_source W (S (clock st)) audio_url = Some src →
  ∃ st', play_next W g ch st = Some st' ∧
         queue_of g st' = rest ∧
         audio_cache st' !! u = Some (mkAudioEntry src info (S (S (clock st)))) ∧
         title_cache st' !! u = Some (title_of_info info) ∧
         is_playing g st' = true ∧
         log st' = log st ++
           [EvExtract ExSingle u; EvFFmpeg audio_url; EvPlay g src] ++
           match ch with
           | Some c => [EvSend c ("Now playing: " +:+ get_or "Unknown" (i_title info))]
           | None => []
           end ++ [EvCreateTask (TaskPreloadNext g)].
Proof.
  intros Hconn Hidle Hq Hc Hx Hs Hf.
  unfold play_next. rewrite Hq. cbn [length].
  rewrite play_next_fuel_S, Hconn. cbn [negb].
  rewrite (get_queue_present g st (u :: rest)) by by apply queue_of_cons_present.
  cbn [fst snd]. unfold max_retries. rewrite retry_loop_S, Hc.
  assert (∃ st1, preload_song W u st =
                   (Some (mkAudioEntry src info (S (S (clock st)))), st1) ∧
                 queues st1 = queues st ∧ voice_clients st1 = voice_clients st ∧
                 audio_cache st1 !! u =
                   Some (mkAudioEntry src info (S (S (clock st)))) ∧
                 title_cache st1 !! u = Some (title_of_info info) ∧
                 log st1 = log st ++ [EvExtract ExSingle u; EvFFmpeg audio_url])
    as (st1 & -> & Q1 & V1 & A1 & T1 & L1).
  { unfold preload_song, preload_song_in. rewrite Hc, Hx, Hs. simpl.
    rewrite Hf. eexists. split; [done|]. simpl.
    rewrite !lookup_insert_eq, <- app_assoc. done. }
  cbn [fst snd]. unfold start_playback.
  assert (queue_of g st1 = u :: rest) as Hq1.
  { unfold queue_of in *. by rewrite Q1. }
  destruct (popHead_cons g st1 u rest Hq1)
    as (st2 & -> & Hq2 & T2 & A2 & _ & V2 & _ & L2).
  unfold vc_play, is_connected, is_playing in *. rewrite V2, V1.
  destruct (voice_clients st !! g) as [vc|]; [|done].
  rewrite Hconn, Hidle. cbn [andb negb a_source a_info].
  eexists. split; [done|]. split_and!.
  - change (queue_of g (emit ?e ?s)) with (queue_of g s).
    rewrite queue_of_send.
    change (queue_of g (emit ?e (set_voice ?v ?s))) with (queue_of g s).
    by rewrite Hq2, decide_True.
  - destruct ch; simpl; by rewrite A2.
  - destruct ch; simpl; by rewrite T2.
  - destruct ch; simpl; by rewrite lookup_insert_eq.
  - destruct ch; simpl; rewrite L2, L1, <- ?app_assoc; done.
Qed.

Lemma X2_head_resolves_and_plays_witness :
  ∃ st', play_next world_titles 1 (Some 9) (guild_ready 1 ["a"; "b"] init)
           = Some st' ∧
         queue_of 1 st' = ["b"].
Proof.
  destruct (X2_head_resolves_and_plays world_titles 1 (Some 9)
              (guild_ready 1 ["a"; "b"] init) "a" ["b"]
              (mkInfo (Some "Preloaded title") 100 (Some "http://cdn/a")
                      (Some "a") None None)
              "http://cdn/a" 5%nat)
    as (st' & H1 & H2 & _); try reflexivity.
  by exists st'.
Defined.

(* ===================================================================== *)
(** ** Properties of the preloader's helpers *)
(* ===================================================================== *)

Lemma scheduled_preloads_app l1 l2 :
  scheduled_preloads (l1 ++ l2) = scheduled_preloads l1 ++ scheduled_preloads l2.
Proof. unfold scheduled_preloads. by rewrite omap_app. Qed.

Lemma preload_next_fold (refs : list string) :
  ∀ st,
    let st' := fold_left
                 (fun acc url =>
                    match audio_cache acc !! url with
                    | Some _ => acc
                    | None => emit (EvCreateTask (TaskPreload url)) acc
                    end) refs st in
    queues st' = queues st ∧ title_cache st' = title_cache st ∧
    audio_cache st' = audio_cache st ∧
    pending_playlists st' = pending_playlists st ∧
    voice_clients st' = voice_clients st ∧ clock st' = clock st ∧
    log st' = log st ++
      List.map (fun url => EvCreateTask (TaskPreload url))
        (List.filter
           (fun url => match audio_cache st !! url with
                       | Some _ => false
                       | None => true
                       end) refs).
Proof.
  induction refs as [|u refs IH]; intros st; cbn [fold_left List.filter].
  - simpl. by rewrite app_nil_r.
  - destruct (audio_cache st !! u) as [e|] eqn:Hu.
    + apply IH.
    + specialize (IH (emit (EvCreateTask (TaskPreload u)) st)).
      cbv zeta in IH. destruct IH as (Q & T & A & P & V & C & L).
      simpl in Q, T, A, P, V, C, L. cbv zeta.
      split_and!; try done. rewrite L. simpl. by rewrite <- app_assoc.
Qed.

(** X5.  [preload_next_tracks] schedules a preload for exactly the
    references among the first [count] of the queue (all of them when the
    queue is shorter) that have no entry in the audio cache, in queue
    order, and does nothing else: no resolver call, no change to a queue
    or a cache. *)
Theorem X5_preload_next_tracks (g : Z) (count : nat) (st : State) :
  let st' := preload_next_tracks g count st in
  log st' = log st ++
    List.map (fun url => EvCreateTask (TaskPreload url))
      (to_preload (audio_cache st) count (queue_of g st)) ∧
  (∀ g', queue_of g' st' = queue_of g' st) ∧
  title_cache st' = title_cache st ∧ audio_cache st' = audio_cache st ∧
  pending_playlists st' = pending_playlists st ∧ clock st' = clock st.
Proof.
  unfold preload_next_tracks, to_preload.
  pose proof (get_queue_fst g st) as Hq.
  pose proof (get_queue_frame g st) as (T & A & P & V & C & L).
  pose proof (λ g', get_queue_queue_of g g' st) as Hqq.
  destruct (get_queue g st) as [q st1]. simpl in *. subst q.
  pose proof (preload_next_fold
                (take (Nat.min count (length (queue_of g st))) (queue_of g st)) st1)
    as H.
  cbv zeta in H. destruct H as (Q' & T' & A' & P' & V' & C' & L').
  assert (take (Nat.min count (length (queue_of g st))) (queue_of g st) =
          take count (queue_of g st)) as Htake.
  { destruct (Nat.le_ge_cases count (length (queue_of g st))).
    - by rewrite Nat.min_l.
    - rewrite Nat.min_r by done. by rewrite !take_ge by lia. }
  rewrite Htake in *. split_and!; try congruence.
  - rewrite L', L, A. done.
  - intros g'. unfold queue_of at 1. rewrite Q'. apply Hqq.
Qed.

Example preload_next_tracks_default :
  scheduled_preloads
    (log (preload_next_tracks 1 2
            (set_audio_cache {[ "b" := mkAudioEntry 1 (info_stream "B" 1 "x") 0%nat ]}
               (guild_ready 1 ["a"; "b"; "c"] init)))) = ["a"].
Proof. vm_compute. reflexivity. Qed.

(* ===================================================================== *)
(** ** Properties of the alternative-source search *)
(* ===================================================================== *)

Lemma search_terms_loop_cons W term rest st :
  search_terms_loop W (term :: rest) st =
  match variant_hit W (clock st) term with
  | Some r => (Some r, tick (emit (EvExtract ExSearch ("ytsearch1:" +:+ term)) st))
  | None =>
      search_terms_loop W rest
        (tick (emit (EvExtract ExSearch ("ytsearch1:" +:+ term)) st))
  end.
Proof. reflexivity. Qed.

(** X6.  The search variants are tried in the order given, one resolver
    call each.  The first variant whose call returns a result with a page
    URL decides: its URL and title are returned and no later variant is
    tried; a variant whose call raises or yields nothing usable is passed
    over.  When no variant has a hit, all have been tried and nothing is
    returned. *)
Theorem X6_first_variant_wins (W : World) (terms : list string) (st : State) :
  (∀ i term r,
     terms !! i = Some term →
     variant_hit W (clock st + i) term = Some r →
     (∀ j t, (j < i)%nat → terms !! j = Some t →
             variant_hit W (clock st + j) t = None) →
     (search_terms_loop W terms st).1 = Some r ∧
     log (search_terms_loop W terms st).2 =
       log st ++ List.map (fun t => EvExtract ExSearch ("ytsearch1:" +:+ t))
                   (take (S i) terms)) ∧
  ((∀ j t, terms !! j = Some t → variant_hit W (clock st + j) t = None) →
     (search_terms_loop W terms st).1 = None ∧
     log (search_terms_loop W terms st).2 =
       log st ++ List.map (fun t => EvExtract ExSearch ("ytsearch1:" +:+ t)) terms).
Proof.
  revert st. induction terms as [|term0 rest IH]; intros st.
  { split; [by intros i term r H|]. intros _. simpl. by rewrite app_nil_r. }
  rewrite search_terms_loop_cons. split.
  - intros i term r Hi Hhit Hbefore. destruct i as [|i].
    + simpl in Hi. simplify_eq. rewrite Nat.add_0_r in Hhit. rewrite Hhit. done.
    + pose proof (Hbefore 0%nat term0 ltac:(lia) eq_refl) as H0.
      rewrite Nat.add_0_r in H0. rewrite H0.
      destruct (IH (tick (emit (EvExtract ExSearch ("ytsearch1:" +:+ term0)) st)))
        as [IH1 _].
      destruct (IH1 i term r) as [H1 H2].
      * done.
      * simpl. by rewrite <- Nat.add_succ_r.
      * intros j t Hj Ht. simpl. rewrite <- Nat.add_succ_r.
        apply Hbefore; [lia|done].
      * split; [done|]. rewrite H2. simpl. by rewrite <- app_assoc.
  - intros Hnone.
    pose proof (Hnone 0%nat term0 eq_refl) as H0. rewrite Nat.add_0_r in H0.
    rewrite H0.
    destruct (IH (tick (emit (EvExtract ExSearch ("ytsearch1:" +:+ term0)) st)))
      as [_ IH2].
    destruct IH2 as [H1 H2].
    { intros j t Ht. simpl. rewrite <- Nat.add_succ_r. by apply (Hnone (S j)). }
    split; [done|]. rewrite H2. simpl. by rewrite <- app_assoc.
Qed.

Lemma X6_first_variant_wins_witness :
  (search_terms_loop world_lyrics_only
     ["Song official audio"; "Song lyrics"; "Song"] init).1 =
    Some ("https://yt/w1", "Found alternative: Song (lyrics)") ∧
  log (search_terms_loop world_lyrics_only
         ["Song official audio"; "Song lyrics"; "Song"] init).2 =
    [EvExtract ExSearch "ytsearch1:Song official audio";
     EvExtract ExSearch "ytsearch1:Song lyrics"].
Proof.
  destruct (X6_first_variant_wins world_lyrics_only
              ["Song official audio"; "Song lyrics"; "Song"] init) as [H _].
  apply (H 1%nat "Song lyrics"); [reflexivity|reflexivity|].
  intros [|j] t Hj Ht; [|lia]. simpl in Ht. by simplify_eq.
Defined.

Lemma variant_hit_shape W n term url msg :
  variant_hit W n term = Some (url, msg) →
  truthy url = true ∧ ∃ title, msg = "Found alternative: " +:+ title.
Proof.
  unfold variant_hit. repeat case_match; try done. intros [= <- <-].
  split; [|by eexists].
  match goal with H : opt_truthy ?o = true |- _ => by destruct o end.
Qed.

Lemma search_terms_loop_shape W terms :
  ∀ st url msg, (search_terms_loop W terms st).1 = Some (url, msg) →
  truthy url = true ∧ ∃ title, msg = "Found alternative: " +:+ title.
Proof.
  induction terms as [|t ts IH]; intros st url msg; [done|].
  rewrite search_terms_loop_cons.
  destruct (variant_hit W (clock st) t) as [[u m]|] eqn:Hh.
  - intros [= <- <-]. by eapply variant_hit_shape.
  - apply IH.
Qed.

(** X7.  The triple the alternative-source search returns is one of four:
    found, with a non-empty URL and a message that starts with "Found
    alternative: "; or not found, with an empty URL and one of three
    fixed messages. *)
Theorem X7_alternative_source_result (W : World) (query : string) (st : State) :
  let r := try_alternative_source W query st in
  (r.1.1.1 = true ∧ truthy r.1.1.2 = true ∧
   ∃ title, r.1.2 = "Found alternative: " +:+ title) ∨
  (r.1.1.1 = false ∧ r.1.1.2 = "" ∧
   (r.1.2 = "Could not extract song information" ∨
    r.1.2 = "Could not find an alternative source" ∨
    r.1.2 = "Error searching for alternative")).
Proof.
  unfold try_alternative_source, extract_song_info.
  destruct (page_hints W (clock st) query) as [[artist title] phrase].
  destruct (refine_phrase W query phrase _) as [[phrase'|] st2];
    [|right; simpl; eauto].
  destruct (negb (truthy phrase')); [right; simpl; eauto|].
  match goal with |- context [search_terms_loop W ?t st2] =>
    pose proof (search_terms_loop_shape W t st2) as Hs;
    destruct (search_terms_loop W t st2) as [[[u m]|] st3] end.
  - left. destruct (Hs u m eq_refl) as [H1 H2]. simpl. eauto.
  - right. simpl. eauto.
Qed.

(* ===================================================================== *)
(** ** The two variants choose the same stream *)
(* ===================================================================== *)

Lemma best_format_fold_filter (formats : list Format) :
  ∀ acc, fold_left best_format_step formats acc =
         fold_left best_format_step (List.filter has_audio formats) acc.
Proof.
  induction formats as [|f fs IH]; intros acc; [done|]. simpl.
  destruct (has_audio f) eqn:Hf; simpl; rewrite IH; [done|].
  unfold best_format_step at 2. by rewrite Hf.
Qed.

Lemma best_format_fold_audio (formats : list Format) :
  Forall (λ f, has_audio f = true ∧ format_truthy f = true) formats →
  ∀ b, format_truthy b = true →
       fold_left best_format_step formats (Some b) =
       match argmax_first formats with
       | None => Some b
       | Some y => if f_abr y >? f_abr b then Some y else Some b
       end.
Proof.
  induction 1 as [|f fs [Hf Ht] Hfs IH]; intros b Hb; [done|].
  cbn [fold_left argmax_first]. unfold best_format_step at 2.
  rewrite Hf, Hb. cbn [negb orb].
  destruct (Z.gtb_spec (f_abr f) (f_abr b)) as [Hgt|Hle]; rewrite IH by done;
    destruct (argmax_first fs) as [y|];
    repeat (match goal with |- context [?a >? ?b] =>
              destruct (Z.gtb_spec a b) end; try done; try lia).
Qed.

Lemma sort_desc_head (formats : list Format) :
  head (Old.sort_desc formats) = argmax_first formats.
Proof.
  induction formats as [|f fs IH]; [done|].
  cbn [Old.sort_desc fold_right argmax_first]. fold (Old.sort_desc fs).
  rewrite <- IH. destruct (Old.sort_desc fs) as [|g rest]; [done|].
  simpl. by destruct (f_abr g >? f_abr f).
Qed.

Lemma argmax_first_elem (formats : list Format) b :
  argmax_first formats = Some b → b ∈ formats.
Proof.
  revert b. induction formats as [|f fs IH]; intros b; [done|].
  cbn [argmax_first]. destruct (argmax_first fs) as [y|].
  - destruct (f_abr y >? f_abr f); intros [= <-].
    + apply list_elem_of_further. by apply IH.
    + apply list_elem_of_here.
  - intros [= <-]. apply list_elem_of_here.
Qed.

Lemma filter_audio_truthy (formats : list Format) :
  forallb format_truthy formats = true →
  Forall (λ f, has_audio f = true ∧ format_truthy f = true)
         (List.filter has_audio formats).
Proof.
  intros Hall. apply Forall_forall. intros f Hf. apply list_elem_of_In in Hf.
  apply List.filter_In in Hf as [Hin Ha]. split; [done|].
  rewrite forallb_forall in Hall. by apply Hall.
Qed.

(** Where no format is an empty dictionary, the loop of the newer
    variant and the sort of the older one pick the same format. *)
Lemma best_format_sort_desc (formats : list Format) :
  forallb format_truthy formats = true →
  best_format formats = head (Old.sort_desc (List.filter has_audio formats)).
Proof.
  intros Hall. unfold best_format. rewrite best_format_fold_filter, sort_desc_head.
  pose proof (filter_audio_truthy formats Hall) as Hft.
  destruct (List.filter has_audio formats) as [|f fs]; [done|].
  apply Forall_cons in Hft as [[Hf Ht] Hfs].
  cbn [fold_left argmax_first]. unfold best_format_step at 2. rewrite Hf.
  rewrite best_format_fold_audio by done.
  by destruct (argmax_first fs) as [y|].
Qed.

(** X8.  For a resolved track none of whose formats is an empty
    dictionary, both variants of the preloader build the stream from the
    same URL: the direct URL of the track when it has one, otherwise the
    URL of the earliest format, among those with an audio codec, of the
    highest bitrate; and they fail alike when there is none or when the
    chosen format has no URL. *)
Theorem X8_variants_choose_same_url (info : Info) :
  forallb format_truthy (default [] (i_formats info)) = true →
  select_audio_url info = Old.select_audio_url info ∧
  (opt_truthy (i_url info) = false →
   select_audio_url info =
     match argmax_first (List.filter has_audio (default [] (i_formats info))) with
     | Some b => url_of_format b
     | None => NoUrl
     end).
Proof.
  intros Hall.
  assert (select_audio_url info = Old.select_audio_url info) as Heq.
  { unfold select_audio_url, Old.select_audio_url.
    destruct (opt_truthy (i_url info)); [done|].
    destruct (i_formats info) as [[|f fs]|]; [done| |done].
    cbn [default] in Hall. rewrite best_format_sort_desc by done.
    pose proof (sort_desc_head (List.filter has_audio (f :: fs))) as Hh.
    destruct (Old.sort_desc (List.filter has_audio (f :: fs))) as [|b rest];
      [done|].
    cbn [head]. symmetry in Hh. apply argmax_first_elem in Hh.
    apply list_elem_of_In, List.filter_In in Hh as [Hin _].
    rewrite forallb_forall in Hall. by rewrite (Hall b Hin). }
  split; [done|]. intros Hu. rewrite Heq. unfold Old.select_audio_url.
  rewrite Hu. destruct (i_formats info) as [formats|]; [|done]. simpl.
  rewrite <- sort_desc_head.
  by destruct (Old.sort_desc (List.filter has_audio formats)).
Qed.

Lemma X8_variants_choose_same_url_witness :
  let low := mkFormat (Some "opus") 64 (Some "http://cdn/low") false in
  let high := mkFormat (Some "opus") 160 (Some "http://cdn/high") false in
  let again := mkFormat (Some "mp4a") 160 (Some "http://cdn/again") false in
  let mute := mkFormat (Some "none") 900 (Some "http://cdn/video") false in
  select_audio_url (mkInfo None 0 None None (Some [low; mute; high; again]) None)
    = HaveUrl "http://cdn/high".
Proof.
  intros low high again mute.
  destruct (X8_variants_choose_same_url
              (mkInfo None 0 None None (Some [low; mute; high; again]) None)
              eq_refl)
    as [_ H].
  rewrite H by reflexivity. reflexivity.
Defined.

(** An empty dictionary among the formats parts the two variants: the
    newer one passes over it, the older one, whose sort leaves it in
    front, fails on its missing URL. *)
Example empty_format_parts_the_variants :
  let info :=
    mkInfo None 0 None None
      (Some [mkFormat None 0 None false;
             mkFormat None 0 (Some "http://cdn/x") false]) None in
  select_audio_url info = HaveUrl "http://cdn/x" ∧
  Old.select_audio_url info = MissingKey.
Proof. split; reflexivity. Qed.

(* ===================================================================== *)
(** ** Further properties of the playlist expansion *)
(* ===================================================================== *)

Lemma sent_app l1 l2 : sent (l1 ++ l2) = sent l1 ++ sent l2.
Proof. unfold sent. by rewrite omap_app. Qed.

Lemma expand_entry_sent g st e :
  sent (log (expand_entry g st e)) = sent (log st).
Proof.
  unfold expand_entry. destruct e as [d|]; [|done].
  destruct (entry_ok (Some d)); [|done]. cbv zeta.
  match goal with |- context [append g ?u ?s] =>
    pose proof (append_frame g u s) as (_ & _ & _ & _ & _ & L) end.
  destruct (_ <=? _)%nat; cbn [emit log]; rewrite ?sent_app, L; [|done].
  simpl. by rewrite app_nil_r.
Qed.

Lemma expand_entries_sent g es :
  ∀ st, sent (log (fold_left (expand_entry g) es st)) = sent (log st).
Proof.
  induction es as [|e es IH]; intros st; [done|]. cbn [fold_left].
  rewrite IH. apply expand_entry_sent.
Qed.

Lemma expand_playlist_sent W g ch st p :
  sent (log (expand_playlist W g ch st p)) =
  sent (log st) ++
  match ch, ytdl_extract W (clock st) ExFull p with
  | Some c, Raises e => [(c, "Error processing playlist: " +:+ e)]
  | _, _ => []
  end.
Proof.
  unfold expand_playlist.
  destruct (ytdl_extract W (clock st) ExFull p) as [e|[info|]].
  - destruct ch; simpl; rewrite !sent_app; simpl; by rewrite ?app_nil_r.
  - destruct (i_entries info) as [entries|].
    + pose proof (get_queue_frame g (tick (emit (EvExtract ExFull p) st)))
        as (_ & _ & _ & _ & _ & L).
      destruct (get_queue g _) as [q st2]. simpl in L.
      rewrite expand_entries_sent, L, sent_app. simpl.
      destruct ch; by rewrite !app_nil_r.
    + simpl. rewrite sent_app. simpl. destruct ch; by rewrite !app_nil_r.
  - simpl. rewrite sent_app. simpl. destruct ch; by rewrite !app_nil_r.
Qed.

Lemma expand_pending_sent W g c pending :
  ∀ st, sent (log (fold_left (expand_playlist W g (Some c)) pending st)) =
        sent (log st) ++ List.map (pair c) (playlist_errors W (clock st) pending).
Proof.
  induction pending as [|p ps IH]; intros st.
  - simpl. by rewrite app_nil_r.
  - cbn [fold_left playlist_errors]. rewrite IH, expand_playlist_sent.
    destruct (expand_playlist_expanded W g (Some c) st st [] p (expanded_refl g st))
      as (_ & -> & _).
    rewrite List.map_app, <- app_assoc. f_equal. f_equal.
    by destruct (ytdl_extract W (clock st) ExFull p).
Qed.

(** X9.  A drain pass for a guild without a pending list changes nothing.
    Otherwise it makes one resolver call per pending playlist, appends to
    the guild's queue the resolvable entries that follow the first element
    of each entry list, sends the channel one notice for each playlist
    whose resolution raises and goes on with the next, leaves the audio
    cache alone, and ends with an empty pending list. *)
Theorem X9_drain_pass (W : World) (g : Z) (c : Z) (st : State) :
  (pending_playlists st !! g = None →
     process_pending_playlists W g (Some c) st = st) ∧
  (∀ pending, pending_playlists st !! g = Some pending →
     let st' := process_pending_playlists W g (Some c) st in
     queue_of g st' = queue_of g st ++ appended_refs W (clock st) pending ∧
     resolved_playlists (log st') = resolved_playlists (log st) ++ pending ∧
     clock st' = (clock st + length pending)%nat ∧
     sent (log st') =
       sent (log st) ++ List.map (pair c) (playlist_errors W (clock st) pending) ∧
     audio_cache st' = audio_cache st ∧
     pending_playlists st' !! g = Some []).
Proof.
  split.
  - intros H. unfold process_pending_playlists. by rewrite H.
  - intros pending H. unfold process_pending_playlists. rewrite H. cbv zeta.
    destruct (expand_pending_expanded W g (Some c) st pending st []
                (expanded_refl g st))
      as ((Q & _ & _ & _ & _ & A & _) & C & Rp).
    split_and!; try done.
    + apply (expand_pending_sent W g c pending st).
    + simpl. by rewrite lookup_insert_eq.
Qed.

Lemma X9_drain_pass_witness :
  pending_playlists two_pending !! 1 = Some ["bad"; playlist_query] ∧
  queue_of 1 (process_pending_playlists world_bad_playlist 1 (Some 9) two_pending)
    = ["v0"; "v1"; "v2"; "v3"] ∧
  sent (log (process_pending_playlists world_bad_playlist 1 (Some 9) two_pending))
    = [(9, "Error processing playlist: private playlist")].
Proof.
  split; [reflexivity|].
  destruct (X9_drain_pass world_bad_playlist 1 9 two_pending) as [_ H].
  destruct (H ["bad"; playlist_query] eq_refl) as (Hq & _ & _ & Hs & _).
  split; [etrans; [exact Hq|]|etrans; [exact Hs|]]; vm_compute; reflexivity.
Defined.

Lemma valid_refs_take_tail (entries : list (option Entry)) :
  eager_is_first entries = true →
  take 1 (valid_refs entries) ++ valid_refs (tail entries) = valid_refs entries.
Proof.
  destruct entries as [|e es]; [done|]. simpl. intros He.
  unfold valid_refs. simpl. by rewrite He.
Qed.

Lemma valid_refs_tail_all (entries : list (option Entry)) :
  eager_is_first entries = false →
  valid_refs (tail entries) = valid_refs entries.
Proof.
  destruct entries as [|e es]; [done|]. simpl. intros He.
  unfold valid_refs. simpl. by rewrite He.
Qed.

(** X10.  A playlist from request to queue, for a guild with no other
    playlist pending: what [play] enqueues at once followed by what the
    drain pass appends.  When the list given to the drain pass starts with
    a resolvable entry, that is every resolvable entry of the playlist,
    once and in order; when it starts with an unresolvable one, the drain
    pass appends all the resolvable entries, so that the entry [play]
    enqueued is queued a second time. *)
Theorem X10_playlist_from_request_to_queue (W : World) (g : Z) (ch : option Z)
    (query : string) (flat full : list (option Entry)) (info : Info)
    (st : State) :
  default [] (pending_playlists st !! g) = [] →
  ytdl_extract W (clock st) ExFull query = Returns (Some info) →
  i_entries info = Some full →
  let st1 := enqueue_playlist g ch query flat st in
  let st2 := process_pending_playlists W g ch st1 in
  queue_of g st2 =
    queue_of g st ++ take 1 (valid_refs flat) ++ valid_refs (tail full) ∧
  (flat = full → eager_is_first full = true →
     queue_of g st2 = queue_of g st ++ valid_refs full) ∧
  (flat = full → eager_is_first full = false →
     queue_of g st2 =
       queue_of g st ++ take 1 (valid_refs full) ++ valid_refs full).
Proof.
  intros Hp Hx He st1 st2.
  destruct (enqueue_playlist_spec g ch query flat st) as (Q1 & P1 & L1).
  fold st1 in Q1, P1, L1. rewrite Hp in P1. simpl in P1.
  assert (clock st1 = clock st) as C1.
  { unfold st1, enqueue_playlist. destruct (first_resolvable flat) as [d|]; [|done].
    cbv zeta. match goal with |- context [enqueue g ?u ?e ?s] =>
      pose proof (enqueue_frame g u e s) as (_ & _ & _ & _ & _ & C & _) end.
    cbn [emit clock]. by rewrite C. }
  destruct (expand_pending_expanded W g ch st1 [query] st1 [] (expanded_refl g st1))
    as ((Q & _) & _).
  assert (queue_of g st2 =
          queue_of g st ++ take 1 (valid_refs flat) ++ valid_refs (tail full)) as Hq.
  { unfold st2, process_pending_playlists. rewrite P1.
    change (queue_of g (set_pending ?p ?s)) with (queue_of g s).
    rewrite Q, Q1. simpl. unfold playlist_entries. rewrite C1, Hx, He. simpl.
    by rewrite app_nil_r, <- app_assoc. }
  split_and!; [done|..].
  - intros -> Hf. by rewrite Hq, valid_refs_take_tail.
  - intros -> Hf. by rewrite Hq, valid_refs_tail_all.
Qed.

Lemma X10_playlist_from_request_to_queue_witness :
  queue_of 1
    (process_pending_playlists world_playlist 1 (Some 9)
       (enqueue_playlist 1 (Some 9) playlist_query
          [None; entry_at "v1" "One"; entry_at "v2" "Two"] init)) =
  ["v1"; "v1"; "v2"; "v3"].
Proof.
  destruct (X10_playlist_from_request_to_queue world_playlist 1 (Some 9)
              playlist_query [None; entry_at "v1" "One"; entry_at "v2" "Two"]
              [entry_at "v0" "Zero"; entry_at "v1" "One"; entry_at "v2" "Two";
               entry_at "v3" "Three"] four_tracks init eq_refl eq_refl eq_refl)
    as (H & _).
  etrans; [exact H|]. vm_compute. reflexivity.
Defined.

(* ===================================================================== *)
(** ** Further properties of the commands *)
(* ===================================================================== *)

(** X11.  [stop] in a guild with a voice client empties the queue of that
    guild and removes its voice client, so that a later run of the
    sequencer, such as the completion callback of the stream just stopped,
    does nothing.  The caches and the pending playlists are left as they
    are.  Without a voice client, [stop] only replies. *)
Theorem X11_stop (W : World) (g : Z) (ch : option Z) (st : State) :
  (is_Some (voice_clients st !! g) →
     queue_of g (stop g st) = [] ∧
     voice_clients (stop g st) !! g = None ∧
     play_next W g ch (stop g st) = Some (stop g st) ∧
     title_cache (stop g st) = title_cache st ∧
     audio_cache (stop g st) = audio_cache st ∧
     pending_playlists (stop g st) = pending_playlists st ∧
     log (stop g st) = log st ++ [EvResponse "Stopped playing and cleared the queue!"]) ∧
  (voice_clients st !! g = None →
     stop g st = emit (EvResponse "Not playing any music!") st).
Proof.
  unfold stop. split.
  - intros [vc Hvc]. rewrite Hvc. unfold clear.
    pose proof (get_queue_frame g st) as (T & A & P & V & _ & L).
    destruct (get_queue g st) as [q st1]. simpl in T, A, P, V, L.
    assert (∀ s, voice_clients s !! g = None → queue_of g s = [] →
                 play_next W g ch s = Some s) as Hhalt.
    { intros s Hv Hq. unfold play_next. rewrite Hq. simpl.
      unfold is_connected. by rewrite Hv. }
    split_and!; simpl; rewrite ?lookup_delete_eq, ?T, ?A, ?P, ?L; try done.
    + unfold queue_of. simpl. by rewrite lookup_insert_eq.
    + apply Hhalt; simpl; [by rewrite lookup_delete_eq|].
      unfold queue_of. simpl. by rewrite lookup_insert_eq.
  - by intros ->.
Qed.

Lemma X11_stop_witness :
  is_Some (voice_clients (guild_busy 1 (guild_ready 1 ["a"; "b"] init)) !! 1) ∧
  queue_of 1 (stop 1 (guild_busy 1 (guild_ready 1 ["a"; "b"] init))) = [].
Proof.
  split; [by eexists|].
  eapply proj1, (X11_stop world_titles 1 None). by eexists.
Defined.

(** X12.  The DRM fallback of [play]: when the resolver's error text
    names DRM, the alternative-source search finds a URL, and that URL
    resolves to a track with a reference, the caller is told that DRM was
    detected and then what was found, the reference of the alternative is
    appended to the guild's queue with its title and duration cached, and
    playback starts if the player is idle. *)
Theorem X12_drm_fallback_enqueues (W : World) (g : Z) (ch : option Z)
    (query e alt_url message ref : string) (info : Info) (st st2 : State) :
  contains "[drm]" (lower e) = true ∨ contains "drm protection" (lower e) = true →
  try_alternative_source W query (followup msg_drm_detected st) =
    ((true, alt_url, message), st2) →
  ytdl_extract W (clock st2) ExFull alt_url = Returns (Some info) →
  py_or (i_webpage_url info) (i_url info) = Some ref → truthy ref = true →
  ∃ st6,
    handle_extract_error W g ch query e st = start_if_idle W g ch st6 ∧
    queue_of g st6 = queue_of g st ++ [ref] ∧
    title_cache st6 !! ref =
      Some (mkTitleInfo (get_or "Unknown" (i_title info)) (i_duration info) None) ∧
    voice_clients st6 = voice_clients st ∧
    log st6 = log st2 ++ [EvExtract ExFull alt_url;
                          EvFollowup (g_ok +:+ " " +:+ message)] ∧
    log st ++ [EvFollowup msg_drm_detected] `prefix_of` log st2.
Proof.
  intros Hdrm Halt Hx Href Htruthy.
  unfold handle_extract_error.
  assert (contains "[drm]" (lower e) || contains "drm protection" (lower e) = true)
    as -> by (apply orb_true_iff; done).
  unfold drm_fallback. rewrite Halt, Hx, Href. simpl opt_truthy. rewrite Htruthy.
  pose proof (try_alternative_source_same W query (followup msg_drm_detected st))
    as (Q2 & _ & V2). rewrite Halt in Q2, V2. simpl in Q2, V2.
  match goal with |- context [get_queue g ?s] =>
    pose proof (get_queue_frame g s) as (T5 & _ & _ & V5 & _ & L5);
    pose proof (get_queue_queue_of g g s) as Q5;
    destruct (get_queue g s) as [q st5] end.
  simpl in T5, V5, L5, Q5. cbv beta iota zeta.
  match goal with |- context [enqueue g ?u ?t st5] =>
    pose proof (enqueue_frame g u t st5) as (Q6 & T6 & _ & _ & V6 & _ & L6);
    exists (enqueue g u t st5) end.
  split; [done|]. split_and!.
  - rewrite Q6, decide_True, Q5 by done. unfold queue_of. simpl. by rewrite Q2.
  - rewrite T6. simpl. by rewrite lookup_insert_eq.
  - congruence.
  - rewrite L6, L5. simpl. by rewrite <- app_assoc.
  - assert (∀ W q s, log s `prefix_of` log (try_alternative_source W q s).2) as Hpre.
    { clear. intros W q s. unfold try_alternative_source, extract_song_info.
      destruct (page_hints W (clock s) q) as [[a t] p].
      assert (∀ terms s0, log s0 `prefix_of` log (search_terms_loop W terms s0).2)
        as Hloop.
      { induction terms as [|t0 ts IH]; intros s0; [done|].
        rewrite search_terms_loop_cons.
        destruct (variant_hit W (clock s0) t0).
        - simpl. by apply prefix_app_r.
        - etrans; [|apply IH]. simpl. by apply prefix_app_r. }
      assert (log (tick (emit (EvPageHints q) s)) `prefix_of`
              log (refine_phrase W q p (tick (emit (EvPageHints q) s))).2) as Hr.
      { unfold refine_phrase. repeat case_match; simpl; try done;
          by apply prefix_app_r. }
      destruct (refine_phrase W q p _) as [[p'|] s2]; simpl in Hr.
      2: { simpl. etrans; [|exact Hr]. simpl. by apply prefix_app_r. }
      destruct (negb (truthy p')).
      { simpl. etrans; [|exact Hr]. simpl. by apply prefix_app_r. }
      match goal with |- context [search_terms_loop W ?t s2] =>
        pose proof (Hloop t s2) as Hl;
        destruct (search_terms_loop W t s2) as [[[u m]|] s3] end;
        simpl in *; (etrans; [|exact Hl]); (etrans; [|exact Hr]);
        by apply prefix_app_r. }
    specialize (Hpre W query (followup msg_drm_detected st)).
    by rewrite Halt in Hpre.
Qed.

Lemma X12_drm_fallback_enqueues_witness :
  ∃ st', handle_extract_error world_drm 1 (Some 9)
           "https://music.example/track/1" "ERROR: [DRM] protected"
           (guild_busy 1 init) = Some st' ∧
         queue_of 1 st' = ["https://yt/alt"] ∧
         EvFollowup (g_ok +:+ " Found alternative: Song (audio)") ∈ log st'.
Proof.
  destruct (X12_drm_fallback_enqueues world_drm 1 (Some 9)
              "https://music.example/track/1" "ERROR: [DRM] protected"
              "https://yt/alt" "Found alternative: Song (audio)" "https://yt/alt"
              (mkInfo (Some "Song (audio)") 200 None (Some "https://yt/alt") None None)
              (guild_busy 1 init)
              (try_alternative_source world_drm "https://music.example/track/1"
                 (followup msg_drm_detected (guild_busy 1 init))).2)
    as (st6 & H & Hq & _ & Hv & Hl & _);
    [by left|vm_compute; reflexivity|reflexivity|reflexivity|reflexivity|].
  exists st6. split.
  { rewrite H. unfold start_if_idle, is_playing. by rewrite Hv. }
  split; [exact Hq|].
  rewrite Hl. apply elem_of_app. right. apply list_elem_of_further, list_elem_of_here.
Defined.

(** The card of a track cannot be built exactly when the duration is a
    nonzero float. *)
Lemma track_embed_cases title (d : Duration) :
  match d with
  | DFloat f =>
      if duration_truthy d then track_embed title d = Raise msg_format_float
      else ∃ card, track_embed title d = Ok card
  | _ => ∃ card, track_embed title d = Ok card
  end.
Proof.
  unfold track_embed. destruct d as [z|f|]; cbn [duration_truthy minsec].
  - destruct (negb (z =? 0)); by eexists.
  - destruct f; cbn [duration_truthy]; try done; by eexists.
  - by eexists.
Qed.

(** X13.  A single track resolved by the play command.  While the player
    of the guild is busy the track is only enqueued: its reference goes
    to the tail of the guild's queue, its title, duration and page URL
    are cached, the caller gets the card of the track, and neither the
    player nor the audio cache is touched.  When the duration is a
    nonzero float the card cannot be built: the track has been enqueued
    and cached all the same, the caller gets the error reply of the
    command in place of the card, and the player is not started even if
    it is idle.  A track without any reference is not enqueued at all. *)
Theorem X13_play_while_playing (W : World) (g : Z) (ch : option Z)
    (query : string) (info : Info) (st : State) :
  i_entries info = None →
  let title := get_or "Unknown" (i_title info) in
  let enqueued ref st' :=
    queue_of g st' = queue_of g st ++ [ref] ∧
    title_cache st' !! ref = Some (mkTitleInfo title (i_duration info) (Some ref)) ∧
    audio_cache st' = audio_cache st ∧
    voice_clients st' = voice_clients st in
  (∀ ref, py_or (i_webpage_url info) (i_url info) = Some ref → truthy ref = true →
     is_playing g st = true →
     (∀ f, i_duration info = DFloat f → duration_truthy (DFloat f) = false) →
     ∃ st' card,
       play_resolved W g ch query (Returns (Some info)) st = Some st' ∧
       enqueued ref st' ∧
       track_embed title (i_duration info) = Ok card ∧
       log st' = log st ++ [EvFollowupEmbed card]) ∧
  (∀ ref f, py_or (i_webpage_url info) (i_url info) = Some ref → truthy ref = true →
     i_duration info = DFloat f → duration_truthy (DFloat f) = true →
     ∃ st',
       play_resolved W g ch query (Returns (Some info)) st = Some st' ∧
       enqueued ref st' ∧
       log st' = log st ++
         [EvLogError ("Error in play command: " +:+ msg_format_float);
          EvFollowup ("An error occurred: " +:+ msg_format_float)]) ∧
  (opt_truthy (py_or (i_webpage_url info) (i_url info)) = false →
     ∃ st', play_resolved W g ch query (Returns (Some info)) st = Some st' ∧
            queue_of g st' = queue_of g st ∧
            title_cache st' = title_cache st ∧
            log st' = log st ++ [EvFollowup (g_warn +:+ " Could not process the track!")]).
Proof.
  intros He title enqueued. unfold play_resolved. rewrite He.
  pose proof (get_queue_frame g st) as (T5 & A5 & _ & V5 & _ & L5).
  pose proof (get_queue_queue_of g g st) as Q5.
  destruct (get_queue g st) as [q st5]. simpl in T5, A5, V5, L5, Q5.
  unfold enqueue_single. fold title.
  pose proof (track_embed_cases title (i_duration info)) as Hcard.
  split_and!.
  - intros ref Href Ht Hbusy Hd. rewrite Href. simpl opt_truthy. rewrite Ht.
    cbn [get_or].
    match goal with |- context [enqueue g ref ?t st5] =>
      pose proof (enqueue_frame g ref t st5) as (Q6 & T6 & A6 & _ & V6 & _ & L6) end.
    assert (∃ card, track_embed title (i_duration info) = Ok card) as [card Hc].
    { destruct (i_duration info) as [z|f|]; [done| |done].
      by rewrite (Hd f eq_refl) in Hcard. }
    rewrite Hc.
    unfold start_if_idle, is_playing. cbn [emit voice_clients]. rewrite V6, V5.
    unfold is_playing in Hbusy. rewrite Hbusy. cbn [negb].
    eexists. exists card. split; [done|]. split; [|split; [done|]].
    + unfold enqueued. split_and!.
      * change (queue_of g (emit ?e ?s)) with (queue_of g s).
        by rewrite Q6, decide_True, Q5.
      * cbn [emit title_cache]. rewrite T6. by rewrite lookup_insert_eq.
      * cbn [emit audio_cache]. congruence.
      * cbn [emit voice_clients]. congruence.
    + cbn [emit log]. by rewrite L6, L5.
  - intros ref f Href Ht Hd Hnz. rewrite Href. simpl opt_truthy. rewrite Ht.
    cbn [get_or].
    match goal with |- context [enqueue g ref ?t st5] =>
      pose proof (enqueue_frame g ref t st5) as (Q6 & T6 & A6 & _ & V6 & _ & L6) end.
    assert (track_embed title (i_duration info) = Raise msg_format_float) as Hc.
    { rewrite Hd in Hcard |- *. by rewrite Hnz in Hcard. }
    rewrite Hc.
    eexists. split; [done|]. split.
    + unfold enqueued, play_except, followup. split_and!.
      * change (queue_of g (emit ?e (emit ?e' ?s))) with (queue_of g s).
        by rewrite Q6, decide_True, Q5.
      * cbn [emit title_cache]. rewrite T6. by rewrite lookup_insert_eq.
      * cbn [emit audio_cache]. congruence.
      * cbn [emit voice_clients]. congruence.
    + unfold play_except, followup. cbn [emit log]. rewrite L6, L5.
      by rewrite <- app_assoc.
  - intros ->. eexists. split; [done|]. split_and!.
    + change (queue_of g (followup ?m ?s)) with (queue_of g s). exact Q5.
    + exact T5.
    + simpl. by rewrite L5.
Qed.

Lemma X13_play_while_playing_witness :
  (∃ st', play_resolved world_titles 1 (Some 9) "q"
            (Returns (Some (info_stream "T" 61 "http://cdn/t")))
            (guild_busy 1 (guild_ready 1 ["a"] init)) = Some st' ∧
          queue_of 1 st' = ["a"; "http://cdn/t"]) ∧
  (∃ st', play_resolved world_titles 1 (Some 9) "q"
            (Returns (Some (info_stream "T" (DFloat (S754_finite false 123 (-1)))
                              "http://cdn/t")))
            (guild_ready 1 ["a"] init) = Some st' ∧
          queue_of 1 st' = ["a"; "http://cdn/t"] ∧
          is_playing 1 st' = false).
Proof.
  split.
  - destruct (X13_play_while_playing world_titles 1 (Some 9) "q"
                (info_stream "T" 61 "http://cdn/t")
                (guild_busy 1 (guild_ready 1 ["a"] init)) eq_refl) as [H _].
    destruct (H "http://cdn/t" eq_refl eq_refl eq_refl)
      as (st' & card & H1 & (H2 & _) & _); [intros f; discriminate|].
    by exists st'.
  - destruct (X13_play_while_playing world_titles 1 (Some 9) "q"
                (info_stream "T" (DFloat (S754_finite false 123 (-1))) "http://cdn/t")
                (guild_ready 1 ["a"] init) eq_refl) as (_ & H & _).
    destruct (H "http://cdn/t" _ eq_refl eq_refl eq_refl eq_refl)
      as (st' & H1 & (H2 & _ & _ & H3) & _).
    exists st'. split; [exact H1|]. split; [exact H2|].
    unfold is_playing. rewrite H3. reflexivity.
Defined.

(* ===================================================================== *)
(** ** Properties of the older variant *)
(* ===================================================================== *)

Lemma old_preload_song_frame W url st :
  queues (Old.preload_song W url st).2 = queues st ∧
  pending_playlists (Old.preload_song W url st).2 = pending_playlists st ∧
  voice_clients (Old.preload_song W url st).2 = voice_clients st ∧
  log st `prefix_of` log (Old.preload_song W url st).2.
Proof.
  preload_cases; split_and!; try done; rewrite <- ?app_assoc;
    by apply prefix_app_r.
Qed.

Lemma old_frame_preload g W url st :
  sequencer_frame g st (Old.preload_song W url st).2.
Proof.
  destruct (old_preload_song_frame W url st) as (Q & P & V & L).
  unfold sequencer_frame, queue_of. rewrite Q, P. split_and!; try done.
  intros. by rewrite V.
Qed.

Lemma old_play_next_fuel_S refusal W g ch fuel st :
  OldCog.play_next_fuel (S fuel) refusal W g ch st =
  if negb (is_connected g st) then Some st
  else
    let k := OldCog.play_next_fuel fuel refusal W g ch in
    let st1 := (get_queue g st).2 in
    match (get_queue g st).1 with
    | [] => Some (send ch "Queue finished!" st1)
    | url :: _ =>
        let cached := (Old.preload_song W url st1).1 in
        let st2 := (Old.preload_song W url st1).2 in
        let st3 := (popHead g st2).2 in
        match cached with
        | None =>
            match (popHead g st2).1 with
            | None => OldCog.play_next_except k ch "pop from empty list" st3
            | Some _ =>
                match ch with
                | Some c => k (emit (EvSend c "Could not load the audio.") st3)
                | None =>
                    OldCog.play_next_except k ch
                      "'NoneType' object has no attribute 'send'" st3
                end
            end
        | Some data =>
            match (popHead g st2).1 with
            | None => OldCog.play_next_except k ch "pop from empty list" st3
            | Some _ =>
                match vc_play g (a_source data) st3 with
                | None => OldCog.play_next_except k ch refusal st3
                | Some st4 =>
                    Some (send ch ("Now playing: " +:+
                                   get_or "Unknown" (i_title (a_info data))) st4)
                end
            end
        end
    end.
Proof.
  simpl. destruct (negb (is_connected g st)); [done|].
  destruct (get_queue g st) as [[|u q] st1]; [done|]. simpl.
  destruct (Old.preload_song W u st1) as [[data|] st2]; simpl;
    by destruct (popHead g st2) as [[r|] st3].
Qed.

(** The older sequencer returns whenever it is given more fuel than the
    queue is long, and stays within the frame of the newer one. *)
Lemma old_play_next_fuel_spec refusal W g ch fuel :
  ∀ st, (length (queue_of g st) < fuel)%nat →
  ∃ st', OldCog.play_next_fuel fuel refusal W g ch st = Some st' ∧
         sequencer_frame g st st'.
Proof.
  induction fuel as [|fuel IH]; intros st Hlen; [lia|].
  rewrite old_play_next_fuel_S.
  destruct (is_connected g st); cbn [negb].
  2: { eexists; split; [done|apply sequencer_frame_refl]. }
  cbv zeta. pose proof (frame_get_queue g g st) as F1.
  pose proof (get_queue_queue_of g g st) as Hqq. rewrite get_queue_fst.
  destruct (queue_of g st) as [|u rest] eqn:Hq.
  { eexists; split; [done|].
    eapply sequencer_frame_trans; [exact F1|apply frame_send]. }
  set (st1 := (get_queue g st).2) in *.
  pose proof (old_frame_preload g W u st1) as F2.
  destruct (old_preload_song_frame W u st1) as (Q2 & _).
  set (st2 := (Old.preload_song W u st1).2) in *.
  assert (queue_of g st2 = u :: rest) as Hq2.
  { unfold queue_of in *. by rewrite Q2. }
  destruct (popHead_cons g st2 u rest Hq2) as (st3 & Hpop & Hq3 & _).
  pose proof (frame_popHead g st2) as F3. rewrite Hpop in *. cbn [fst snd] in *.
  assert (queue_of g st3 = rest) as Hq3' by by rewrite Hq3, decide_True.
  assert (sequencer_frame g st st3) as F13.
  { eapply sequencer_frame_trans; [exact F1|].
    eapply sequencer_frame_trans; [exact F2|exact F3]. }
  assert (∀ s, sequencer_frame g st3 s → queue_of g s = rest →
               ∃ st', OldCog.play_next_fuel fuel refusal W g ch s = Some st' ∧
                      sequencer_frame g st st') as Hk.
  { intros s Fs Hs. destruct (IH s) as (st' & -> & F').
    { rewrite Hs. cbn [length] in Hlen. lia. }
    eexists; split; [done|].
    eapply sequencer_frame_trans; [exact F13|].
    eapply sequencer_frame_trans; [exact Fs|exact F']. }
  assert (∀ msg, ∃ st', OldCog.play_next_except
                          (OldCog.play_next_fuel fuel refusal W g ch) ch msg st3
                        = Some st' ∧ sequencer_frame g st st') as Hexc.
  { intros msg. unfold OldCog.play_next_except. apply Hk; [apply frame_send|].
    by rewrite queue_of_send. }
  destruct (Old.preload_song W u st1).1 as [data|].
  - destruct (vc_play g (a_source data) st3) as [st4|] eqn:Hv; [|apply Hexc].
    eexists; split; [done|]. apply frame_vc_play in Hv.
    eapply sequencer_frame_trans; [exact F13|].
    eapply sequencer_frame_trans; [exact Hv|apply frame_send].
  - destruct ch as [c|]; [|apply Hexc]. apply Hk; [apply frame_emit|done].
Qed.

(** X14.  The older sequencer always returns, leaving of the guild's
    queue a final part.  It makes a single preload attempt on the head: a
    head whose preload yields none is removed at once, the channel is told
    that the audio could not be loaded, and the run goes on as it would
    from the remaining queue. *)
Theorem X14_old_single_attempt (refusal : string) (W : World) (g : Z) (c : Z)
    (st : State) :
  (∃ st', OldCog.play_next refusal W g (Some c) st = Some st' ∧
          queue_of g st' `suffix_of` queue_of g st) ∧
  (∀ u rest st1,
     is_connected g st = true → queue_of g st = u :: rest →
     Old.preload_song W u st = (None, st1) →
     ∃ st2, popHead g st1 = (Some u, st2) ∧ queue_of g st2 = rest ∧
            log st2 = log st1 ∧
            OldCog.play_next refusal W g (Some c) st =
            OldCog.play_next refusal W g (Some c)
              (emit (EvSend c "Could not load the audio.") st2)).
Proof.
  split.
  - destruct (old_play_next_fuel_spec refusal W g (Some c)
                (S (length (queue_of g st))) st) as (st' & H & Q & _); [lia|].
    by exists st'.
  - intros u rest st1 Hconn Hq Hpre.
    destruct (old_preload_song_frame W u st) as (Q1 & _). rewrite Hpre in Q1.
    simpl in Q1.
    assert (queue_of g st1 = u :: rest) as Hq1.
    { unfold queue_of in *. by rewrite Q1. }
    destruct (popHead_cons g st1 u rest Hq1)
      as (st2 & Hpop & Hq2 & _ & _ & _ & _ & _ & L2).
    assert (queue_of g st2 = rest) as Hq2' by by rewrite Hq2, decide_True.
    exists st2. split_and!; try done.
    unfold OldCog.play_next at 1. rewrite Hq. cbn [length].
    rewrite old_play_next_fuel_S, Hconn. cbn [negb]. cbv zeta.
    rewrite (get_queue_present g st (u :: rest)) by by apply queue_of_cons_present.
    cbn [fst snd]. rewrite Hpre. cbn [fst snd]. rewrite Hpop. cbn [fst snd].
    unfold OldCog.play_next.
    change (queue_of g (emit ?e st2)) with (queue_of g st2). by rewrite Hq2'.
Qed.

Lemma X14_old_single_attempt_witness :
  (λ st, (queue_of 1 st, log st)) <$>
    OldCog.play_next "Already playing audio." old_world_bad 1 (Some 9)
      (guild_ready 1 ["bad"; "good"] init) =
  (λ st, (queue_of 1 st, log st)) <$>
    OldCog.play_next "Already playing audio." old_world_bad 1 (Some 9)
      (emit (EvSend 9 "Could not load the audio.")
         (popHead 1 (Old.preload_song old_world_bad "bad"
                       (guild_ready 1 ["bad"; "good"] init)).2).2).
Proof.
  destruct (X14_old_single_attempt "Already playing audio." old_world_bad 1 9
              (guild_ready 1 ["bad"; "good"] init)) as [_ H].
  destruct (H "bad" ["good"] _ eq_refl eq_refl eq_refl) as (st2 & Hp & _ & _ & ->).
  vm_compute in Hp. by simplify_eq.
Defined.

Example old_play_next_trace :
  (λ st, (queue_of 1 st, log st)) <$>
    OldCog.play_next "Already playing audio." old_world_bad 1 (Some 9)
      (guild_ready 1 ["bad"; "good"] init) =
  Some ([],
        [EvExtract ExFull "bad"; EvSend 9 "Could not load the audio.";
         EvExtract ExFull "good"; EvFFmpeg "http://cdn/good"; EvPlay 1 5;
         EvSend 9 "Now playing: Title of good"]).
Proof. vm_compute. reflexivity. Qed.

Lemma old_add_entries g (entries : list (option Entry)) :
  Forall (λ e, entry_ok e = true) entries →
  ∀ st titles,
    let r := fold_left (OldCog.add_entry g) entries (st, titles) in
    queue_of g r.1 =
      queue_of g st ++ List.map (fun e => get_or "" (entry_ref e)) entries ∧
    r.2 = titles ++ List.map (fun e => match e with
                                       | Some d => get_or "Unknown" (e_title d)
                                       | None => "Unknown"
                                       end) entries ∧
    (∀ u, u ∈ List.map (fun e => get_or "" (entry_ref e)) entries →
          ∃ d, title_cache r.1 !! u = Some (title_of_entry u d)) ∧
    (∀ u, (∃ d, title_cache st !! u = Some (title_of_entry u d)) →
          ∃ d, title_cache r.1 !! u = Some (title_of_entry u d)) ∧
    (∀ g', g' ≠ g → queue_of g' r.1 = queue_of g' st) ∧
    audio_cache r.1 = audio_cache st ∧
    pending_playlists r.1 = pending_playlists st ∧
    voice_clients r.1 = voice_clients st ∧ clock r.1 = clock st ∧
    log r.1 = log st.
Proof.
  induction 1 as [|e es He Hes IH]; intros st titles.
  { simpl. rewrite !app_nil_r. split_and!; try done.
    intros u Hu. by apply elem_of_nil in Hu. }
  cbn [fold_left]. destruct e as [d|]; [|done].
  set (u0 := get_or "" (entry_ref (Some d))).
  change (OldCog.add_entry g (st, titles) (Some d))
    with (enqueue g u0 (title_of_entry u0 d) st,
          titles ++ [get_or "Unknown" (e_title d)]).
  pose proof (enqueue_frame g u0 (title_of_entry u0 d) st)
    as (Q & T & A & P & V & C & L).
  specialize (IH (enqueue g u0 (title_of_entry u0 d) st)
                 (titles ++ [get_or "Unknown" (e_title d)])).
  cbv zeta in IH. destruct IH as (I1 & I2 & I3 & I4 & I5 & I6 & I7 & I8 & I9 & I10).
  cbv zeta. split_and!.
  - rewrite I1, Q, decide_True by done. simpl. by rewrite <- app_assoc.
  - rewrite I2. simpl. by rewrite <- app_assoc.
  - intros u Hu. simpl in Hu. apply elem_of_cons in Hu as [->|Hu].
    + apply I4. rewrite T. exists d. by rewrite lookup_insert_eq.
    + by apply I3.
  - intros u [d' Hd']. apply I4. rewrite T.
    destruct (decide (u0 = u)) as [<-|Hne].
    + exists d. by rewrite lookup_insert_eq.
    + exists d'. by rewrite lookup_insert_ne.
  - intros g' Hg. rewrite I5, Q, decide_False by done. done.
  - congruence.
  - congruence.
  - congruence.
  - congruence.
  - congruence.
Qed.

Lemma last_entry_for_filter u (entries : list (option Entry)) :
  last_entry_for u (List.filter entry_ok entries) = last_entry_for u entries.
Proof.
  induction entries as [|e es IH]; [done|]. cbn [List.filter last_entry_for].
  destruct (entry_ok e) eqn:Hok; cbn [last_entry_for]; rewrite IH; [done|].
  unfold refers_to. rewrite Hok. by destruct (last_entry_for u es).
Qed.

Lemma old_add_entries_titles g (entries : list (option Entry)) :
  Forall (λ e, entry_ok e = true) entries →
  ∀ acc u,
    title_cache (fold_left (OldCog.add_entry g) entries acc).1 !! u =
    match last_entry_for u entries with
    | Some d => Some (title_of_entry u d)
    | None => title_cache acc.1 !! u
    end.
Proof.
  induction 1 as [|e es He Hes IH]; intros acc u; [done|].
  cbn [fold_left last_entry_for]. rewrite IH.
  destruct (last_entry_for u es) as [d'|]; [done|].
  unfold refers_to. rewrite He. cbn [andb].
  destruct e as [d|]; [|done]. unfold OldCog.add_entry. cbn [fst].
  match goal with |- context [enqueue g ?u0 ?t ?s] =>
    pose proof (enqueue_frame g u0 t s) as (_ & T & _) end.
  rewrite T.
  destruct (String.eqb_spec (get_or "" (entry_ref (Some d))) u) as [->|Hne].
  - by rewrite lookup_insert_eq.
  - by rewrite lookup_insert_ne.
Qed.

(** X15.  The playlist branch of the older play command enqueues the
    whole playlist before it replies: the references of all resolvable
    entries are appended to the guild's queue in playlist order, and
    unresolvable entries are passed over.  For each appended reference
    the cache holds the title, duration and page URL of the last entry of
    the playlist with that reference; every other cache entry is as it
    was.  The reply counts the tracks added.  No playlist is left pending
    and no background task is scheduled. *)
Theorem X15_old_playlist_enqueued_whole (g : Z) (entries : list (option Entry))
    (st : State) :
  let st' := OldCog.enqueue_playlist g entries st in
  queue_of g st' = queue_of g st ++ valid_refs entries ∧
  (∀ u, u ∈ valid_refs entries ↔ is_Some (last_entry_for u entries)) ∧
  (∀ u, title_cache st' !! u =
        match last_entry_for u entries with
        | Some d => Some (title_of_entry u d)
        | None => title_cache st !! u
        end) ∧
  (∀ g', g' ≠ g → queue_of g' st' = queue_of g' st) ∧
  pending_playlists st' = pending_playlists st ∧
  audio_cache st' = audio_cache st ∧
  log st' = log st ++ [OldCog.playlist_reply (valid_titles entries)] ∧
  length (valid_titles entries) = length (valid_refs entries).
Proof.
  unfold OldCog.enqueue_playlist. cbv zeta.
  pose proof (old_add_entries g (List.filter entry_ok entries)) as H.
  assert (Forall (λ e, entry_ok e = true) (List.filter entry_ok entries)) as Hall.
  { apply Forall_forall. intros e He. apply list_elem_of_In in He.
    by apply List.filter_In in He as [_ ?]. }
  pose proof (old_add_entries_titles g _ Hall (st, [])) as Ht.
  specialize (H Hall st []). cbv zeta in H.
  destruct (fold_left (OldCog.add_entry g) (List.filter entry_ok entries) (st, []))
    as [st1 added]. cbn [fst snd] in H, Ht.
  destruct H as (Q & Ti & T & _ & O & A & P & V & C & L).
  simpl in Ti. subst added.
  split_and!; try done.
  - intros u. symmetry. apply last_entry_for_valid.
  - intros u. cbn [emit title_cache]. rewrite Ht. by rewrite last_entry_for_filter.
  - simpl. by rewrite L.
  - unfold valid_titles, valid_refs. by rewrite !length_map.
Qed.

Example old_playlist_all_at_once :
  queue_of 1 (OldCog.enqueue_playlist 1
                [entry_at "v0" "Zero"; None; entry_at "v1" "One";
                 entry_at "v2" "Two"] (guild_ready 1 ["a"] init)) =
  ["a"; "v0"; "v1"; "v2"].
Proof. vm_compute. reflexivity. Qed.

(** The player after a cached head has been handed to it. *)
Lemma play_next_from_cache_voice W g ch st u rest e :
  is_connected g st = true → is_playing g st = false →
  queue_of g st = u :: rest → audio_cache st !! u = Some e →
  ∃ st', play_next W g ch st = Some st' ∧
         voice_clients st' !! g = Some (mkVoiceClient true true (Some (a_source e))).
Proof.
  intros Hconn Hplay Hq Hc.
  unfold play_next. rewrite Hq. cbn [length].
  rewrite play_next_fuel_S, Hconn. cbn [negb].
  rewrite (get_queue_present g st (u :: rest)) by by apply queue_of_cons_present.
  cbn [fst snd]. unfold max_retries. rewrite retry_loop_S, Hc. cbn [fst snd].
  unfold start_playback.
  destruct (popHead_cons g st u rest Hq) as (st2 & -> & _ & _ & _ & _ & V & _).
  unfold vc_play, is_connected, is_playing in *. rewrite V.
  destruct (voice_clients st !! g) as [vc|]; [|done].
  rewrite Hconn, Hplay. cbn [andb negb].
  eexists. split; [done|]. destruct ch; simpl; by rewrite lookup_insert_eq.
Qed.

(** X16.  [skip] on a playing guild stops the stream and changes neither
    the queue nor a cache; when the completion callback of the stopped
    stream then runs and the head of the queue is cached, the head is
    removed and its stream handed to the player.  On a guild that is not
    playing, [skip] only replies. *)
Theorem X16_skip_then_advance (W : World) (g : Z) (ch : option Z) (st : State)
    (u : string) (rest : list string) (e : AudioEntry) :
  (is_connected g st = true → is_playing g st = true →
   queue_of g st = u :: rest → audio_cache st !! u = Some e →
     queue_of g (skip g st) = u :: rest ∧
     is_playing g (skip g st) = false ∧
     ∃ st', handle_playback_error W false g ch (skip g st) = Some st' ∧
            queue_of g st' = rest ∧ is_playing g st' = true ∧
            played (log st') = played (log st) ++ [(g, a_source e)]) ∧
  (is_playing g st = false →
     queues (skip g st) = queues st ∧ voice_clients (skip g st) = voice_clients st ∧
     played (log (skip g st)) = played (log st)).
Proof.
  split.
  - intros Hconn Hplay Hq Hc. unfold is_connected, is_playing in Hconn, Hplay.
    destruct (voice_clients st !! g) as [vc|] eqn:Hvc; [|done].
    assert (skip g st =
            emit (EvResponse "Skipped the current song")
              (set_voice (<[g := mkVoiceClient true false None]> (voice_clients st)) st))
      as Hskip.
    { unfold skip. by rewrite Hvc, Hplay, Hconn. }
    rewrite Hskip. split; [done|]. split.
    { unfold is_playing. simpl. by rewrite lookup_insert_eq. }
    unfold handle_playback_error.
    match goal with |- context [play_next W g ch ?s] =>
      destruct (play_next_from_cache W g ch s u rest e) as (st' & Hp & Hq' & Hl) end.
    + unfold is_connected. simpl. by rewrite lookup_insert_eq.
    + unfold is_playing. simpl. by rewrite lookup_insert_eq.
    + done.
    + done.
    + exists st'. split; [done|]. split; [done|].
      assert (played (log st') = played (log st) ++ [(g, a_source e)]) as Hpl.
      { rewrite Hl. simpl. rewrite !played_app. simpl.
        destruct ch; simpl; by rewrite !app_nil_r. }
      split; [|done].
      match type of Hp with play_next W g ch ?s = _ =>
        destruct (play_next_from_cache_voice W g ch s u rest e)
          as (st'' & Hp'' & Hv'') end.
      * unfold is_connected. simpl. by rewrite lookup_insert_eq.
      * unfold is_playing. simpl. by rewrite lookup_insert_eq.
      * done.
      * done.
      * rewrite Hp in Hp''. simplify_eq. unfold is_playing. by rewrite Hv''.
  - intros Hidle. unfold skip, is_playing in *.
    destruct (voice_clients st !! g) as [vc|]; [rewrite Hidle|];
      split_and!; try done; simpl; by rewrite played_app, app_nil_r.
Qed.

Lemma X16_skip_then_advance_witness :
  let st := set_audio_cache
              {[ "a" := mkAudioEntry 7 (info_stream "A" 10 "http://cdn/a") 0%nat ]}
              (guild_busy 1 (guild_ready 1 ["a"; "b"] init)) in
  ∃ st', handle_playback_error world_titles false 1 (Some 9) (skip 1 st) = Some st' ∧
         queue_of 1 st' = ["b"] ∧ played (log st') = [(1, 7%nat)].
Proof.
  intros st.
  destruct (X16_skip_then_advance world_titles 1 (Some 9) st "a" ["b"]
              (mkAudioEntry 7 (info_stream "A" 10 "http://cdn/a") 0%nat)) as [H _].
  destruct H as (_ & _ & st' & H1 & H2 & _ & H3); try reflexivity.
  exists st'. split_and!; try done.
Defined.

(** X17.  A resolver error of [play] that does not name DRM, and a
    resolver that returns nothing, cost one reply to the caller and
    nothing else: no queue, cache, pending list or player is touched, no
    further external call is made, and playback is not started. *)
Theorem X17_failed_resolution_is_harmless (W : World) (g : Z) (ch : option Z)
    (query e : string) (st : State) :
  (contains "[drm]" (lower e) = false →
   contains "drm protection" (lower e) = false →
   ∃ st' msg, handle_extract_error W g ch query e st = Some st' ∧
          queues st' = queues st ∧ title_cache st' = title_cache st ∧
          audio_cache st' = audio_cache st ∧
          pending_playlists st' = pending_playlists st ∧
          voice_clients st' = voice_clients st ∧ clock st' = clock st ∧
          followups (log st') = followups (log st) ++ [msg] ∧
          played (log st') = played (log st)) ∧
  play_resolved W g ch query (Returns None) st =
    Some (followup "Could not find any playable audio!" st).
Proof.
  split; [|done]. intros H1 H2. unfold handle_extract_error. rewrite H1, H2.
  cbn [orb]. unfold followups, played.
  repeat case_match; eexists; eexists; (split; [done|]); simpl;
    rewrite !omap_app; simpl; rewrite ?app_nil_r; done.
Qed.

Lemma X17_failed_resolution_is_harmless_witness :
  ∃ st', handle_extract_error world_titles 1 (Some 9) "q"
           "ERROR: Video unavailable" (guild_ready 1 ["a"] init) = Some st' ∧
         queues st' = queues (guild_ready 1 ["a"] init) ∧
         followups (log st') = [msg_unavailable].
Proof.
  destruct (X17_failed_resolution_is_harmless world_titles 1 (Some 9) "q"
              "ERROR: Video unavailable" (guild_ready 1 ["a"] init)) as [H _].
  destruct (H eq_refl eq_refl) as (st' & msg & H1 & H2 & _ & _ & _ & _ & _ & H3 & _).
  exists st'. split; [done|]. split; [done|].
  vm_compute in H1. simplify_eq. vm_compute. reflexivity.
Defined.

(* ===================================================================== *)
(** ** The alternative-source search of the older variant *)
(* ===================================================================== *)

Section ReplaceChar.

Variables a b c : ascii.
Hypothesis Hca : Ascii.eqb c a = false.
Hypothesis Hcb : Ascii.eqb c b = false.

Lemma replace_char_app (s t : string) :
  OldCog.replace_char a b (s +:+ t) =
  OldCog.replace_char a b s +:+ OldCog.replace_char a b t.
Proof. induction s as [|x s IH]; [done|]. simpl. by rewrite append_cons, IH. Qed.

Lemma replace_char_keeps (s : string) :
  OldCog.replace_char a b (String c s) = String c (OldCog.replace_char a b s).
Proof. simpl. by rewrite Hca. Qed.

Lemma contains_replace_char (s : string) :
  contains (sep1 c) (OldCog.replace_char a b s) = contains (sep1 c) s.
Proof.
  induction s as [|x s IH]; [done|]. simpl OldCog.replace_char.
  rewrite !contains_sep1_cons, IH. f_equal.
  destruct (Ascii.eqb_spec x a) as [->|Hne]; [|done].
  by rewrite Hca, Hcb.
Qed.

End ReplaceChar.

Lemma resolver_queries_app l1 l2 :
  resolver_queries (l1 ++ l2) = resolver_queries l1 ++ resolver_queries l2.
Proof. unfold resolver_queries. by rewrite omap_app. Qed.

(** X18.  The alternative-source search of the older variant always
    makes exactly one search, and never gives up for lack of a phrase: it
    searches for the phrase scraped from the page or, when that is empty,
    for the last path segment of the query with its hyphens turned into
    spaces and its query parameters cut off. *)
Theorem X18_old_search_phrase (W : World) (query : string) (st : State) :
  let phrase := (page_hints W (clock st) query).2 in
  let searched := if truthy phrase then phrase else OldCog.fallback_phrase query in
  let r := OldCog.try_alternative_source W query st in
  resolver_queries (log r.2) =
    resolver_queries (log st) ++ [(ExSearch, "ytsearch1:" +:+ searched)] ∧
  r.1.2 ≠ "Could not extract song information" ∧
  (r.1.1.1 = false → r.1.2 = "Could not find an alternative source") ∧
  ∀ base slug params,
    contains "/" slug = false → contains "?" slug = false →
    (∀ p, params = Some p → contains "/" p = false) →
    query = base +:+ "/" +:+ slug +:+
            match params with Some p => "?" +:+ p | None => "" end →
    OldCog.fallback_phrase query = OldCog.replace_char "-" " " slug.
Proof.
  cbv zeta. unfold OldCog.try_alternative_source, extract_song_info.
  destruct (page_hints W (clock st) query) as [[artist title] phrase].
  cbn [snd]. cbv zeta.
  set (searched := if truthy phrase then phrase else OldCog.fallback_phrase query).
  split_and!.
  - repeat case_match; simpl; rewrite !resolver_queries_app; simpl;
      by rewrite ?app_nil_r, <- ?app_assoc.
  - repeat case_match; simpl; discriminate.
  - repeat case_match; simpl; done.
  - intros base slug params Hs Hq Hp ->. unfold OldCog.fallback_phrase, split.
    set (rest := match params with Some p => "?" +:+ p | None => "" end).
    change (base +:+ "/" +:+ slug +:+ rest)
      with (base +:+ String "/" (slug +:+ rest)).
    change "/" with (sep1 "/") in *. change "?" with (sep1 "?") in *.
    rewrite split_go_last.
    assert (contains (sep1 "/") (slug +:+ rest) = false) as Hrest.
    { rewrite contains_sep1_app, Hs. unfold rest. destruct params as [p|]; [|done].
      change (sep1 "?" +:+ p) with (String "?" p).
      rewrite contains_sep1_cons, (Hp p eq_refl). reflexivity. }
    rewrite (split_go_no_sep _ _ Hrest).
    change (last_piece [String.rev "" +:+ slug +:+ rest]) with (slug +:+ rest).
    rewrite replace_char_app.
    assert (contains (sep1 "?") (OldCog.replace_char "-" " " slug) = false) as Hq'.
    { by rewrite contains_replace_char. }
    unfold rest. destruct params as [p|].
    + change (sep1 "?" +:+ p) with (String "?" p).
      rewrite (replace_char_keeps "-" " " "?") by done.
      rewrite split_go_first by done. reflexivity.
    + change (OldCog.replace_char "-" " " "") with "".
      rewrite append_empty_r, split_go_no_sep by done. reflexivity.
Qed.

Lemma X18_old_search_phrase_witness :
  OldCog.fallback_phrase "https://open.spotify.com/track/come-along-with-me?si=a-b"
  = "come along with me".
Proof.
  destruct (X18_old_search_phrase world_titles
              "https://open.spotify.com/track/come-along-with-me?si=a-b" init)
    as (_ & _ & _ & H).
  apply (H "https://open.spotify.com/track" "come-along-with-me" (Some "si=a-b"));
    try reflexivity.
  intros p [= <-]. reflexivity.
Defined.

(** X19.  The show-queue command changes no store: the queue of every
    guild, both caches, the pending playlists and the players are as
    before.  Outside a guild it only answers that it is for servers; in
    a guild its visible actions are the deferral of the reply and the
    sending of one card.  Whatever the length of the queue, the card has
    the now-playing field, one "Up Next" field, and, exactly when more
    than 10 references are queued, a third field that gives the number of
    references beyond the tenth. *)
Theorem X19_show_queue_read_only (now : Field) (i : Interaction) (st : State) :
  let st' := queue now i st in
  (∀ g', queue_of g' st' = queue_of g' st) ∧
  title_cache st' = title_cache st ∧ audio_cache st' = audio_cache st ∧
  pending_playlists st' = pending_playlists st ∧
  voice_clients st' = voice_clients st ∧ clock st' = clock st ∧
  (in_guild i = None →
   log st' = log st ++ [EvResponse "This command can only be used in a server!"]) ∧
  (∀ g, in_guild i = Some g →
     let n := length (queue_of g st) in
     ∃ card,
       log st' = log st ++ [EvDefer; EvFollowupEmbed card] ∧
       em_title card = g_note +:+ " Music Queue" ∧
       ((n ≤ 10)%nat → ∃ up_next, em_fields card = [now; up_next]) ∧
       ((10 < n)%nat →
          ∃ up_next, em_fields card =
            [now; up_next;
             mkField "And more..."
               ("*" +:+ str_nat (n - 10) +:+ " more songs in queue*") false])).
Proof.
  cbv zeta. destruct (in_guild i) as [g|] eqn:Hg.
  - destruct (queue_in_guild now i g st Hg)
      as (card & st' & E & L & F & Q & T & A & P & V & C & Ti).
    rewrite E. split_and!; try done.
    intros g0 [= <-]. exists card. split; [done|]. split_and!.
    + exact Ti.
    + intros Hn. rewrite F. destruct (queue_of g st) as [|u rest] eqn:Hq;
        [by eexists|].
      rewrite up_next_fields_cons.
      destruct (Nat.ltb_spec 10 (length (u :: rest))); [lia|by eexists].
    + intros Hn. rewrite F.
      destruct (queue_of g st) as [|u rest] eqn:Hq; [simpl in Hn; lia|].
      rewrite up_next_fields_cons.
      destruct (Nat.ltb_spec 10 (length (u :: rest))); [|lia]. by eexists.
  - unfold queue. rewrite Hg. split_and!; try done.
Qed.

Lemma X19_show_queue_read_only_witness :
  ∃ card up_next,
    log (queue now_idle in_guild_one (guild_ready 1 (twelve_refs ++ twelve_refs) init))
      = [EvDefer; EvFollowupEmbed card] ∧
    em_fields card =
      [now_idle; up_next; mkField "And more..." "*14 more songs in queue*" false].
Proof.
  destruct (X19_show_queue_read_only now_idle in_guild_one
              (guild_ready 1 (twelve_refs ++ twelve_refs) init))
    as (_ & _ & _ & _ & _ & _ & _ & H).
  destruct (H 1 eq_refl) as (card & L & _ & _ & Hmore).
  destruct Hmore as [up Hup]; [vm_compute; lia|].
  exists card, up. split; [exact L|exact Hup].
Defined.
